(** * Tic-Tac-Toe self-play learner: the engine of [game_logic.py]

    A shallow embedding of the board encoding, the symmetry
    canonicalisation, the move selection and the self-play loop, with the
    properties the specification states about them.

    Python integers are unbounded: they are [Z].  [//] and [%] by a
    positive divisor are [Z.div] and [Z.modulo] (both round to the floor).
    The value table is a [dict] from key pairs to (sum, count) pairs: a
    [gmap (Z * Z) (Z * Z)].  A float is a rational number; [/] on two
    integers gives the nearest float, or raises when there is none. *)

From Stdlib Require Import ZArith QArith Lia List.
From stdpp Require Import gmap strings list sorting.

Local Open Scope Z_scope.

(** ** Exceptions and the loop budget *)

Inductive exn :=
  IndexError | ValueError | KeyError | OverflowError | ZeroDivisionError.

(** The outcome of running a piece of Python: a value, a raised exception,
    or [OutOfFuel] when the budget given to a [while True] loop ran out. *)
Inductive py (A : Type) : Type :=
| Ok (a : A)
| Raise (e : exn)
| OutOfFuel.
Arguments Ok {A} a.
Arguments Raise {A} e.
Arguments OutOfFuel {A}.

#[global] Instance py_ret : MRet py := λ A a, Ok a.
#[global] Instance py_bind : MBind py := λ A B f m,
  match m with
  | Ok a => f a
  | Raise e => Raise e
  | OutOfFuel => OutOfFuel
  end.

(** [for x in l: body], the loop variables threaded through [s]. *)
Fixpoint for_each {A S : Type} (l : list A) (body : S → A → py S) (s : S) : py S :=
  match l with
  | [] => mret s
  | x :: l' => s' ← body s x; for_each l' body s'
  end.

(** [range(n)] *)
Definition range (n : Z) : list Z := seqZ 0 n.

(** [divmod(a, b)] *)
Definition divmod (a b : Z) : Z * Z := (a / b, a mod b).

(** [seq[i]] on a tuple or list: a negative index counts from the end, an
    index outside the sequence raises [IndexError]. *)
Definition getitem {A : Type} (seq : list A) (i : Z) : py A :=
  let n := Z.of_nat (length seq) in
  let j := if i <? 0 then i + n else i in
  if (0 <=? j) && (j <? n)
  then match seq !! Z.to_nat j with
       | Some x => Ok x
       | None => Raise IndexError
       end
  else Raise IndexError.

(** ** The symmetries of the square *)

Definition _TRANSFORMS : list (Z → Z → Z * Z) :=
  [ (λ r c, (r, c));           (* identity *)
    (λ r c, (c, 2 - r));       (* rotate 90 *)
    (λ r c, (2 - r, 2 - c));   (* rotate 180 *)
    (λ r c, (2 - c, r));       (* rotate 270 *)
    (λ r c, (r, 2 - c));       (* reflect vertical axis *)
    (λ r c, (2 - r, c));       (* reflect horizontal axis *)
    (λ r c, (c, r));           (* reflect main diagonal *)
    (λ r c, (2 - c, 2 - r)) ]. (* reflect anti-diagonal *)

Definition _transform_index (index transform_id : Z) : py Z :=
  let '(row, col) := divmod index 3 in
  f ← getitem _TRANSFORMS transform_id;
  let '(new_row, new_col) := f row col in
  mret (new_row * 3 + new_col).

Definition _transform_state (state transform_id : Z) : py Z :=
  for_each (range 9)
    (λ new_state i,
       let cell_value := (state / 3 ^ i) mod 3 in
       if negb (cell_value =? 0)
       then new_index ← _transform_index i transform_id;
            mret (new_state + cell_value * 3 ^ new_index)
       else mret new_state)
    0.

(** A table key: (state, action). *)
Abbreviation key := (Z * Z)%type.

(** [<] on pairs of integers: Python compares tuples lexicographically. *)
Definition key_lt (a b : key) : bool :=
  (a.1 <? b.1) || ((a.1 =? b.1) && (a.2 <? b.2)).

(** [best_key] starts as [None] and is set by the first transform; with
    [range(8)] not empty the function never returns [None], so the last
    line of the model hands out the key itself. *)
Definition canonicalize_state_action (state action : Z) : py key :=
  best_key ← for_each (range 8)
    (λ (best_key : option key) transform_id,
       transformed_state ← _transform_state state transform_id;
       transformed_action ← _transform_index action transform_id;
       let k := (transformed_state, transformed_action) in
       match best_key with
       | None => mret (Some k)
       | Some b => if key_lt k b then mret (Some k) else mret best_key
       end)
    None;
  match best_key with
  | Some k => mret k
  | None => Raise ValueError
  end.

(** ** The board *)

Record Board := { state : Z }.

(** [Board()] *)
Definition new_board : Board := {| state := 0 |}.

(** Called with [row] and [col] in 0..2 only: [is_valid_move] checks the
    range before it reads the cell and [check_winner] loops over
    [range(3)]. *)
Definition _get_cell (b : Board) (row col : Z) : Z :=
  let index := row * 3 + col in
  (state b / 3 ^ index) mod 3.

Definition _set_cell (b : Board) (row col value : Z) : Board :=
  let index := row * 3 + col in
  let current_value := _get_cell b row col in
  let s := state b - current_value * 3 ^ index in
  {| state := s + value * 3 ^ index |}.

Definition is_valid_move (b : Board) (row col : Z) : bool :=
  (0 <=? row) && (row <? 3) && ((0 <=? col) && (col <? 3)
  && (_get_cell b row col =? 0)).

Definition get_valid_moves (b : Board) : list Z :=
  fold_left
    (λ valid_moves i,
       let '(row, col) := divmod i 3 in
       if is_valid_move b row col then valid_moves ++ [i] else valid_moves)
    (range 9) [].

(** Returns the flag and the board after the call. *)
Definition make_move_cpu (b : Board) (player_num move : Z) : bool * Board :=
  if (0 <=? move) && (move <? 9)
  then let '(row, col) := divmod move 3 in
       if is_valid_move b row col
       then (true, _set_cell b row col player_num)
       else (false, b)
  else (false, b).

(** [line.count(x)] *)
Definition count (x : Z) (line : list Z) : Z :=
  Z.of_nat (length (filter (λ y, y = x) line)).

(** The eight lines in the order [check_winner] builds them: row 0,
    column 0, row 1, column 1, row 2, column 2, main diagonal,
    anti-diagonal. *)
Definition lines (b : Board) : list (list Z) :=
  fold_left
    (λ lines i,
       (lines ++ [(λ j, _get_cell b i j) <$> range 3])
         ++ [(λ j, _get_cell b j i) <$> range 3])
    (range 3) []
  ++ [(λ i, _get_cell b i i) <$> range 3]
  ++ [(λ i, _get_cell b i (2 - i)) <$> range 3].

(** The scan [for line in lines: if ...: return line[0]]; [None] when the
    loop ends without returning.  Every line has three cells, so
    [line[0]] is its head. *)
Fixpoint scan_lines (ls : list (list Z)) : option Z :=
  match ls with
  | [] => None
  | line :: ls' =>
      let line0 := hd 0 line in
      if (count line0 line =? 3) && negb (line0 =? 0)
      then Some line0
      else scan_lines ls'
  end.

(** -1 draw, 0 in progress, 1 X won, 2 O won. *)
Definition check_winner (b : Board) : Z :=
  match scan_lines (lines b) with
  | Some w => w
  | None =>
      if forallb (λ r, forallb (λ c, negb (_get_cell b r c =? 0)) (range 3))
           (range 3)
      then -1
      else 0
  end.

(** ** The random source

    Python's generator, as the sequence of raw draws it will hand out:
    [draws k] is the [k]-th one and [used] counts those consumed.  The
    theorems hold for every such sequence. *)

Record Random := { draws : nat → Z; used : nat }.

Definition next_draw (g : Random) : Z * Random :=
  (draws g (used g), {| draws := draws g; used := S (used g) |}).

(** [random.random()]: a multiple of 2^-53 in the interval [0, 1). *)
Definition random_random (g : Random) : Q * Random :=
  let '(z, g') := next_draw g in
  (Qmake (z mod 2 ^ 53) (2 ^ 53)%positive, g').

(** [random.choice(seq)]: [IndexError] on an empty sequence, else the
    element at a drawn position below [len(seq)]. *)
Definition random_choice {A : Type} (seq : list A) (g : Random) : py (A * Random) :=
  match seq with
  | [] => Raise IndexError
  | _ =>
      let '(z, g') := next_draw g in
      x ← getitem seq (z mod Z.of_nat (length seq));
      mret (x, g')
  end.

(** ** [max] and [min] *)

(** [max(l, key=f)]: the first item whose key no other item exceeds;
    [ValueError] on an empty list. *)
Fixpoint max_from {A K : Type} (ltb : K → K → bool) (f : A → K)
    (best : A) (l : list A) : A :=
  match l with
  | [] => best
  | x :: l' => max_from ltb f (if ltb (f best) (f x) then x else best) l'
  end.

Definition py_max {A K : Type} (ltb : K → K → bool) (f : A → K)
    (l : list A) : py A :=
  match l with
  | [] => Raise ValueError
  | x :: l' => Ok (max_from ltb f x l')
  end.

(** [min(l)] on integers. *)
Fixpoint min_from (best : Z) (l : list Z) : Z :=
  match l with
  | [] => best
  | x :: l' => min_from (if x <? best then x else best) l'
  end.

Definition py_min (l : list Z) : py Z :=
  match l with
  | [] => Raise ValueError
  | x :: l' => Ok (min_from x l')
  end.

(** [a < b] on rationals. *)
Definition Qlt_bool (a b : Q) : bool := negb (Qle_bool b a).

(** ** Players *)

Abbreviation table := (gmap key (Z * Z)).

Record CPU := {
  name : string;
  marker : Z;
  q_values : table;   (* set by the constructor, not read by the engine *)
  moves : list key
}.

(** [CPU(name, marker)] *)
Definition new_cpu (name : string) (marker : Z) : CPU :=
  {| name := name; marker := marker; q_values := ∅; moves := [] |}.

Definition set_moves (c : CPU) (ms : list key) : CPU :=
  {| name := name c; marker := marker c; q_values := q_values c; moves := ms |}.

(** [q_values.get(key, (0, 0))] *)
Definition get (q : table) (k : key) : Z * Z := default (0, 0) (q !! k).

(** The least magnitude that does not round to a float: halfway between
    the largest float, [2^1024 - 2^971], and [2^1024]. *)
Definition float_limit : Z := 2 ^ 1024 - 2 ^ 970.
Arguments float_limit : simpl never.

Section Engine.

(** The float nearest to the quotient of two integers, when there is
    one; a float is a rational number.  Nothing below depends on how the
    quotient is rounded. *)
Variable nearest : Z → Z → Q.

(** [a / b], Python's true division of two integers: [ZeroDivisionError]
    for a zero divisor, [OverflowError] when the quotient rounds beyond
    the largest float, the nearest float otherwise. *)
Definition true_div (a b : Z) : py Q :=
  if b =? 0 then Raise ZeroDivisionError
  else if float_limit * Z.abs b <=? Z.abs a then Raise OverflowError
  else Ok (nearest a b).

(** The exploitation branch of [get_and_save_move]. *)
Definition greedy_move (board : Board) (moves : list Z) (gen : Z)
    (q : table) (epsilon : Q) (g : Random) : py (Z * Random) :=
  q_avgs ← for_each moves
    (λ (q_avgs : list (Q * Z * Z)) m,
       k ← canonicalize_state_action (state board) m;
       let '(total, count) := get q k in
       avg ← (if 0 <? count then true_div total count else Ok 0%Q);
       mret (q_avgs ++ [(avg, count, m)]))
    [];
  best ← py_max Qlt_bool (λ x : Q * Z * Z, x.1.1) q_avgs;
  let max_avg := best.1.1 in
  let best_moves :=
    (λ x : Q * Z * Z, (x.1.2, x.2))
      <$> filter (λ x : Q * Z * Z, Qeq_bool x.1.1 max_avg = true) q_avgs in
  bestc ← py_max Z.ltb (λ x : Z * Z, x.1) best_moves;
  let max_count := bestc.1 in
  let best_moves :=
    (λ x : Z * Z, x.2) <$> filter (λ x : Z * Z, x.1 = max_count) best_moves in
  if (gen =? 3) && Qeq_bool epsilon 0
  then move ← py_min best_moves; mret (move, g)
  else random_choice best_moves g.

(** Returns the move, the player with its history extended and the random
    source after the call.  [or] evaluates left to right and stops at the
    first true operand, so [random.random()] is drawn only when [gen] is
    not 1 and a table is given. *)
Definition get_and_save_move (self : CPU) (board : Board) (gen : Z)
    (q_values : option table) (epsilon : Q) (g : Random)
    : py (Z * CPU * Random) :=
  let history := moves self in
  let moves := get_valid_moves board in
  '(move, g) ←
    (if gen =? 1 then random_choice moves g
     else match q_values with
          | None => random_choice moves g
          | Some q =>
              let '(u, g) := random_random g in
              if Qlt_bool u epsilon then random_choice moves g
              else greedy_move board moves gen q epsilon g
          end);
  k ← canonicalize_state_action (state board) move;
  mret (move, set_moves self (history ++ [k]), g).

(** ** One game of self-play *)

(** [stats[k] += 1]: [KeyError] when [k] is missing. *)
Definition incr (stats : gmap string Z) (k : string) : py (gmap string Z) :=
  match stats !! k with
  | Some v => Ok (<[k := v + 1]> stats)
  | None => Raise KeyError
  end.

(** [for key in history: q_values[key] = (total + reward, times + 1)] *)
Definition credit (reward : Z) (history : list key) (q : table) : table :=
  fold_left
    (λ q k, let '(total_reward, times) := get q k in
            <[k := (total_reward + reward, times + 1)]> q)
    history q.

(** [current_player] and [other_player] are references to the two
    players, which are two distinct objects. *)
Inductive ref := Cpu1 | Cpu2.

(** What the call leaves behind: the two players, the table, the
    statistics, the random source, and the board when the loop broke. *)
Record Game := {
  g_cpu1 : CPU;
  g_cpu2 : CPU;
  g_q_values : table;
  g_stats : gmap string Z;
  g_random : Random;
  g_board : Board
}.

(** The [while True] loop; one unit of [fuel] per iteration. *)
Fixpoint game_loop (fuel : nat) (cpu1 cpu2 : CPU) (q : table)
    (stats : gmap string Z) (gen : Z) (epsilon : Q) (learn : bool)
    (board : Board) (current_player other_player : ref) (g : Random)
    : py Game :=
  match fuel with
  | O => OutOfFuel
  | S fuel' =>
      let self := match current_player with Cpu1 => cpu1 | Cpu2 => cpu2 end in
      '(move, self, g) ← get_and_save_move self board gen (Some q) epsilon g;
      let cpu1 := match current_player with Cpu1 => self | Cpu2 => cpu1 end in
      let cpu2 := match current_player with Cpu1 => cpu2 | Cpu2 => self end in
      let board := (make_move_cpu board (marker self) move).2 in
      let result := check_winner board in
      if negb (result =? 0)
      then
        '(reward1, reward2, stats) ←
          (if result =? -1
           then stats ← incr stats "draws"; mret (0, 0, stats)
           else if result =? marker cpu1
           then stats ← incr stats "win_loss"; mret (1, -1, stats)
           else stats ← incr stats "win_loss"; mret (-1, 1, stats));
        let q :=
          if learn
          then credit reward2 (moves cpu2) (credit reward1 (moves cpu1) q)
          else q in
        mret {| g_cpu1 := cpu1; g_cpu2 := cpu2; g_q_values := q;
                g_stats := stats; g_random := g; g_board := board |}
      else
        game_loop fuel' cpu1 cpu2 q stats gen epsilon learn board
          other_player current_player g
  end.

Definition simulate_game (fuel : nat) (cpu1 cpu2 : CPU) (q_values : table)
    (stats : gmap string Z) (gen : Z) (epsilon : Q) (learn : bool)
    (g : Random) : py Game :=
  let board := new_board in
  let cpu1 := set_moves cpu1 [] in
  let cpu2 := set_moves cpu2 [] in
  game_loop fuel cpu1 cpu2 q_values stats gen epsilon learn board Cpu1 Cpu2 g.

End Engine.

(** The exact quotient, for running the engine on concrete tables. *)
Definition exact_div (a b : Z) : Q := Qmake a (Z.to_pos b).

(** * Properties *)

(** ** Base-3 digits *)

(** Digit [i] of the packed state: what [_get_cell] reads at index [i]. *)
Definition digit (s i : Z) : Z := (s / 3 ^ i) mod 3.

Lemma pow3_pos i : 0 ≤ i → 0 < 3 ^ i.
Proof. intros. apply Z.pow_pos_nonneg; lia. Qed.

Lemma digit_range s i : 0 ≤ digit s i < 3.
Proof. unfold digit. apply Z.mod_pos_bound. lia. Qed.

Lemma pow3_split i j : 0 ≤ j → j < i → 3 ^ i = 3 * 3 ^ (i - j - 1) * 3 ^ j.
Proof.
  intros Hj Hji.
  replace i with (1 + (i - j - 1) + j) at 1 by lia.
  rewrite !Z.pow_add_r by lia. rewrite Z.pow_1_r. ring.
Qed.

Lemma digit_shift s i j : 0 ≤ i → 0 ≤ j → digit s (i + j) = digit (s / 3 ^ i) j.
Proof.
  intros Hi Hj. unfold digit.
  rewrite Z.pow_add_r by lia.
  rewrite Z.div_div by (pose proof (pow3_pos i); pose proof (pow3_pos j); lia).
  reflexivity.
Qed.

(** Writing [v] into an empty digit [i] changes that digit and no other. *)
Lemma digit_add_pow s v i j :
  0 ≤ i → 0 ≤ j → digit s i = 0 → 0 ≤ v < 3 →
  digit (s + v * 3 ^ i) j = if i =? j then v else digit s j.
Proof.
  intros Hi Hj Hz Hv.
  destruct (Z.eqb_spec i j) as [->|Hne].
  - unfold digit in *. rewrite Z.div_add by (pose proof (pow3_pos j); lia).
    rewrite Z.add_mod, Hz, Z.add_0_l, Z.mod_mod by lia.
    apply Z.mod_small. lia.
  - destruct (Z_lt_le_dec j i) as [Hlt|Hge].
    + unfold digit. rewrite (pow3_split i j) by lia.
      rewrite !Z.mul_assoc, Z.div_add by (pose proof (pow3_pos j); lia).
      replace (v * 3 * 3 ^ (i - j - 1)) with (v * 3 ^ (i - j - 1) * 3) by ring.
      apply Z_mod_plus_full.
    + replace j with (i + (1 + (j - i - 1))) by lia.
      rewrite (digit_shift _ i), (digit_shift s i) by lia.
      rewrite Z.div_add by (pose proof (pow3_pos i); lia).
      rewrite !(digit_shift _ 1) by lia.
      f_equal. unfold digit in Hz. rewrite Z.pow_1_r.
      set (q := s / 3 ^ i) in *.
      assert (Hq : q = 3 * (q / 3)).
      { pose proof (Z.div_mod q 3). lia. }
      rewrite Hq at 1.
      rewrite Z.mul_comm, Z.add_comm, Z.div_add by lia.
      rewrite (Z.div_small v) by lia. lia.
Qed.

(** ** The board: cells, legal moves, moves *)

Lemma range_9 : range 9 = [0; 1; 2; 3; 4; 5; 6; 7; 8].
Proof. reflexivity. Qed.

Lemma range_8 : range 8 = [0; 1; 2; 3; 4; 5; 6; 7].
Proof. reflexivity. Qed.

Lemma elem_of_range n i : i ∈ range n ↔ 0 ≤ i < n.
Proof. unfold range. rewrite elem_of_seqZ. lia. Qed.

Lemma get_cell_digit b r c : _get_cell b r c = digit (state b) (r * 3 + c).
Proof. reflexivity. Qed.

Lemma flat_index m : m / 3 * 3 + m mod 3 = m.
Proof. pose proof (Z.div_mod m 3). lia. Qed.

Lemma flat_row_col r c : 0 ≤ c < 3 → (r * 3 + c) / 3 = r ∧ (r * 3 + c) mod 3 = c.
Proof.
  intros Hc. split.
  - rewrite Z.add_comm, Z.div_add by lia. rewrite Z.div_small; lia.
  - rewrite Z.add_comm, Z_mod_plus_full. apply Z.mod_small; lia.
Qed.

Lemma is_valid_move_flat b m :
  0 ≤ m < 9 → is_valid_move b (m / 3) (m mod 3) = (digit (state b) m =? 0).
Proof.
  intros Hm. unfold is_valid_move.
  rewrite get_cell_digit, flat_index.
  assert (0 ≤ m / 3 < 3) by (split; [apply Z.div_pos | apply Z.div_lt_upper_bound]; lia).
  pose proof (Z.mod_pos_bound m 3).
  repeat match goal with
  | |- context [?a <=? ?b] => rewrite (proj2 (Z.leb_le a b)) by lia
  | |- context [?a <? ?b] => rewrite (proj2 (Z.ltb_lt a b)) by lia
  end.
  reflexivity.
Qed.

Lemma fold_append_filter {A} (P : A → bool) (l acc : list A) :
  fold_left (λ vm i, if P i then vm ++ [i] else vm) l acc
  = acc ++ filter (λ i, P i = true) l.
Proof.
  revert acc. induction l as [|x l IH]; intros acc; simpl.
  - by rewrite app_nil_r.
  - rewrite IH. destruct (P x) eqn:E.
    + rewrite filter_cons_True by done. by rewrite <- app_assoc.
    + rewrite filter_cons_False by congruence. done.
Qed.

Lemma filter_ext_elem {A} (P1 P2 : A → Prop)
    `{∀ x, Decision (P1 x)} `{∀ x, Decision (P2 x)} (l : list A) :
  (∀ x, x ∈ l → (P1 x ↔ P2 x)) → filter P1 l = filter P2 l.
Proof.
  induction l as [|x l IH]; intros Hl; [done|].
  rewrite !filter_cons.
  rewrite IH by (intros y Hy; apply Hl; by right).
  pose proof (Hl x (list_elem_of_here x l)).
  repeat case_decide; tauto.
Qed.

Lemma get_valid_moves_filter b :
  get_valid_moves b = filter (λ i, digit (state b) i = 0) (range 9).
Proof.
  unfold get_valid_moves.
  change (fold_left _ (range 9) [])
    with (fold_left (λ vm i, if is_valid_move b (i / 3) (i mod 3)
                             then vm ++ [i] else vm) (range 9) []).
  rewrite fold_append_filter. simpl.
  apply filter_ext_elem. intros i Hi%elem_of_range.
  rewrite is_valid_move_flat by lia. apply Z.eqb_eq.
Qed.

Lemma elem_of_get_valid_moves b i :
  i ∈ get_valid_moves b ↔ 0 ≤ i < 9 ∧ digit (state b) i = 0.
Proof.
  rewrite get_valid_moves_filter, list_elem_of_filter, elem_of_range. tauto.
Qed.

Lemma StronglySorted_filter_lt (P : Z → Prop) `{∀ x, Decision (P x)} l :
  StronglySorted Z.lt l → StronglySorted Z.lt (filter P l).
Proof.
  induction 1 as [|x l Hl IH Hx].
  - constructor.
  - rewrite filter_cons. destruct (decide (P x)); [|done].
    constructor; [done|].
    apply Forall_forall. intros y [_ Hy]%list_elem_of_filter.
    rewrite Forall_forall in Hx. auto.
Qed.

Lemma range_9_sorted : StronglySorted Z.lt (range 9).
Proof. rewrite range_9. repeat constructor; lia. Qed.

(** C5: [get_valid_moves] lists the flat indices [row * 3 + col] of the
    empty cells, and only those, in strictly increasing order. *)
Theorem get_valid_moves_spec (b : Board) :
  StronglySorted Z.lt (get_valid_moves b)
  ∧ (∀ i, i ∈ get_valid_moves b ↔
          0 ≤ i < 9 ∧ _get_cell b (i / 3) (i mod 3) = 0)
  ∧ (∀ row col, 0 ≤ row < 3 → 0 ≤ col < 3 →
          (row * 3 + col ∈ get_valid_moves b ↔ _get_cell b row col = 0)).
Proof.
  split; [|split].
  - rewrite get_valid_moves_filter.
    apply StronglySorted_filter_lt, range_9_sorted.
  - intros i. rewrite elem_of_get_valid_moves, get_cell_digit, flat_index. done.
  - intros row col Hr Hc.
    rewrite elem_of_get_valid_moves, get_cell_digit. split; [tauto|].
    intros. split; [lia|done].
Qed.

(** A move is legal when its index is on the board and its cell is empty. *)
Definition legal (b : Board) (move : Z) : Prop :=
  0 ≤ move < 9 ∧ _get_cell b (move / 3) (move mod 3) = 0.

Lemma legal_digit b m : legal b m ↔ 0 ≤ m < 9 ∧ digit (state b) m = 0.
Proof. unfold legal. by rewrite get_cell_digit, flat_index. Qed.

Lemma legal_valid_moves b m : legal b m ↔ m ∈ get_valid_moves b.
Proof. by rewrite legal_digit, elem_of_get_valid_moves. Qed.

Lemma make_move_cpu_illegal b p m : ¬ legal b m → make_move_cpu b p m = (false, b).
Proof.
  rewrite legal_digit. intros Hn. unfold make_move_cpu.
  destruct ((0 <=? m) && (m <? 9)) eqn:E; [|done].
  apply andb_true_iff in E as [?%Z.leb_le ?%Z.ltb_lt].
  cbv beta iota delta [divmod].
  rewrite is_valid_move_flat by lia.
  destruct (Z.eqb_spec (digit (state b) m) 0); [|done].
  exfalso. apply Hn. split; [lia|done].
Qed.

Lemma make_move_cpu_legal b p m :
  legal b m → make_move_cpu b p m = (true, {| state := state b + p * 3 ^ m |}).
Proof.
  rewrite legal_digit. intros [Hm Hd]. unfold make_move_cpu.
  rewrite (proj2 (Z.leb_le 0 m)), (proj2 (Z.ltb_lt m 9)) by lia.
  cbv beta iota delta [divmod andb].
  rewrite is_valid_move_flat, Hd by lia. simpl.
  unfold _set_cell. rewrite get_cell_digit, flat_index, Hd.
  do 2 f_equal. lia.
Qed.

(** The cells of the board after a legal move. *)
Lemma digit_after_move b p m i :
  legal b m → p = 1 ∨ p = 2 → 0 ≤ i →
  digit (state (make_move_cpu b p m).2) i
  = if m =? i then p else digit (state b) i.
Proof.
  intros Hl Hp Hi. rewrite make_move_cpu_legal by done. simpl.
  apply legal_digit in Hl as [Hm Hd].
  apply digit_add_pow; lia.
Qed.

(** C6: an illegal move (index outside 0..8, or an occupied cell) is
    refused with [False] and the board is left as it was; a legal move by
    player 1 or 2 returns [True], writes the player's marker into that
    cell and changes no other cell.  The function is total: no input
    makes it raise. *)
Theorem make_move_cpu_spec (b : Board) (player_num move : Z) :
  player_num = 1 ∨ player_num = 2 →
  (¬ legal b move → make_move_cpu b player_num move = (false, b))
  ∧ (legal b move →
       ∃ b', make_move_cpu b player_num move = (true, b')
         ∧ _get_cell b' (move / 3) (move mod 3) = player_num
         ∧ ∀ row col, 0 ≤ row < 3 → 0 ≤ col < 3 → row * 3 + col ≠ move →
             _get_cell b' row col = _get_cell b row col).
Proof.
  intros Hp. split; [apply make_move_cpu_illegal|].
  intros Hl. eexists. split; [by apply make_move_cpu_legal|].
  pose proof (digit_after_move b player_num move) as Hd.
  rewrite make_move_cpu_legal in Hd by done. simpl in Hd.
  destruct (proj1 (legal_digit _ _) Hl) as [Hm _].
  split.
  - rewrite get_cell_digit, flat_index. simpl.
    rewrite Hd by (done || lia). by rewrite Z.eqb_refl.
  - intros row col Hr Hc Hne. rewrite !get_cell_digit. simpl.
    rewrite Hd by (done || lia).
    destruct (Z.eqb_spec move (row * 3 + col)); [congruence|done].
Qed.

Lemma make_move_cpu_spec_witness :
  (2 = 1 ∨ 2 = 2)
  ∧ legal {| state := 13 |} 4 ∧ ¬ legal {| state := 13 |} 1
  ∧ make_move_cpu {| state := 13 |} 2 1 = (false, {| state := 13 |})
  ∧ ∃ b', make_move_cpu {| state := 13 |} 2 4 = (true, b')
      ∧ _get_cell b' (4 / 3) (4 mod 3) = 2
      ∧ ∀ row col, 0 ≤ row < 3 → 0 ≤ col < 3 → row * 3 + col ≠ 4 →
          _get_cell b' row col = _get_cell {| state := 13 |} row col.
Proof.
  assert (H2 : 2 = 1 ∨ 2 = 2) by (right; reflexivity).
  assert (Hl : legal {| state := 13 |} 4) by (split; [lia|reflexivity]).
  assert (Hn : ¬ legal {| state := 13 |} 1) by (intros [_ H]; discriminate H).
  split; [exact H2|]. split; [exact Hl|]. split; [exact Hn|]. split.
  - exact (proj1 (make_move_cpu_spec {| state := 13 |} 2 1 H2) Hn).
  - exact (proj2 (make_move_cpu_spec {| state := 13 |} 2 4 H2) Hl).
Defined.

(** ** The result of a position *)

(** The coordinates of the eight lines, in the order of the scan. *)
Definition line_cells : list (list (Z * Z)) :=
  [ [(0, 0); (0, 1); (0, 2)]; [(0, 0); (1, 0); (2, 0)];
    [(1, 0); (1, 1); (1, 2)]; [(0, 1); (1, 1); (2, 1)];
    [(2, 0); (2, 1); (2, 2)]; [(0, 2); (1, 2); (2, 2)];
    [(0, 0); (1, 1); (2, 2)]; [(0, 2); (1, 1); (2, 0)] ].

(** All cells of the line [l] hold [p]. *)
Definition holds (b : Board) (p : Z) (l : list (Z * Z)) : Prop :=
  ∀ rc, rc ∈ l → _get_cell b rc.1 rc.2 = p.

(** Some line is completed by the marker [p]. *)
Definition has_line (b : Board) (p : Z) : Prop :=
  ∃ l, l ∈ line_cells ∧ holds b p l.

(** Some line has three equal, non-empty cells. *)
Definition decided (b : Board) : Prop := ∃ p, p ≠ 0 ∧ has_line b p.

Definition full (b : Board) : Prop :=
  ∀ row col, 0 ≤ row < 3 → 0 ≤ col < 3 → _get_cell b row col ≠ 0.

(** [l] is the first completed line of the scan, and [p] its marker. *)
Definition first_line (b : Board) (p : Z) : Prop :=
  ∃ before l after,
    line_cells = before ++ l :: after
    ∧ p ≠ 0 ∧ holds b p l
    ∧ ∀ l' q, l' ∈ before → q ≠ 0 → ¬ holds b q l'.

(** The contents of the cells of a line. *)
Definition read (b : Board) (l : list (Z * Z)) : list Z :=
  (λ rc : Z * Z, _get_cell b rc.1 rc.2) <$> l.

Lemma lines_cells b : lines b = read b <$> line_cells.
Proof. reflexivity. Qed.

(** The test of the scan on one line of three cells. *)
Lemma line_test b (l : list (Z * Z)) :
  length l = 3%nat →
  let line := read b l in
  (count (hd 0 line) line =? 3) && negb (hd 0 line =? 0) = true
  ↔ hd 0 line ≠ 0 ∧ holds b (hd 0 line) l.
Proof.
  intros Hlen.
  destruct l as [|x [|y [|z [|]]]]; try discriminate Hlen. simpl.
  unfold holds, count.
  rewrite andb_true_iff, negb_true_iff, Z.eqb_eq, Z.eqb_neq.
  rewrite !filter_cons, filter_nil.
  split.
  - intros [Hc Hn]. split; [done|].
    intros rc Hrc.
    repeat case_decide; simpl in Hc; try lia.
    rewrite !elem_of_cons, elem_of_nil in Hrc.
    destruct Hrc as [->|[->|[->|[]]]]; done.
  - intros [Hn Hh]. split; [|done].
    rewrite !decide_True; [done|..]; apply Hh; set_solver.
Qed.

Lemma holds_unique b p q l : l ≠ [] → holds b p l → holds b q l → p = q.
Proof.
  destruct l as [|x l]; [done|]. intros _ Hp Hq.
  rewrite <- (Hp x), <- (Hq x); [done|left..].
Qed.

Lemma line_cells_length l : l ∈ line_cells → length l = 3%nat.
Proof.
  unfold line_cells. rewrite !elem_of_cons, elem_of_nil.
  intros H. repeat destruct H as [->|H]; done.
Qed.

Lemma holds_hd b q l : l ≠ [] → holds b q l → hd 0 (read b l) = q.
Proof. destruct l as [|x l]; [done|]. intros _ H. apply (H x). left. Qed.

Lemma line_test_false b (l : list (Z * Z)) :
  length l = 3%nat →
  (count (hd 0 (read b l)) (read b l) =? 3) && negb (hd 0 (read b l) =? 0) = false
  ↔ ∀ q, q ≠ 0 → ¬ holds b q l.
Proof.
  intros Hlen. rewrite <- not_true_iff_false, (line_test b l Hlen).
  assert (l ≠ []) by (intros ->; discriminate Hlen).
  split.
  - intros Hn q Hq Hh. apply Hn. by rewrite (holds_hd b q l).
  - intros Hn [H0 Hh]. by apply (Hn _ H0).
Qed.

Lemma scan_lines_None b (ls : list (list (Z * Z))) :
  (∀ l, l ∈ ls → length l = 3%nat) →
  scan_lines (read b <$> ls) = None ↔ ∀ l q, l ∈ ls → q ≠ 0 → ¬ holds b q l.
Proof.
  induction ls as [|l ls IH]; intros Hlen.
  - simpl. split; [|done]. intros _ l q Hl. by apply elem_of_nil in Hl.
  - rewrite fmap_cons. cbn [scan_lines].
    assert (Hl : length l = 3%nat) by (apply Hlen; left).
    destruct (_ && _) eqn:E.
    + split; [done|]. intros Hn. exfalso.
      apply (line_test b l Hl) in E as [H0 Hh].
      apply (Hn l _ (list_elem_of_here _ _) H0 Hh).
    + rewrite IH by (intros; apply Hlen; by right).
      rewrite (line_test_false b l Hl) in E.
      split.
      * intros Hn l' q [->|Hl']%elem_of_cons; [by apply E|by apply Hn].
      * intros Hn l' q Hl'. apply Hn. by right.
Qed.

Lemma scan_lines_Some b (ls : list (list (Z * Z))) p :
  (∀ l, l ∈ ls → length l = 3%nat) →
  scan_lines (read b <$> ls) = Some p
  ↔ ∃ before l after,
      ls = before ++ l :: after ∧ p ≠ 0 ∧ holds b p l
      ∧ ∀ l' q, l' ∈ before → q ≠ 0 → ¬ holds b q l'.
Proof.
  induction ls as [|l ls IH]; intros Hlen.
  - simpl. split; [done|]. intros (before & l & after & H & _).
    by destruct before.
  - rewrite fmap_cons. cbn [scan_lines].
    assert (Hl : length l = 3%nat) by (apply Hlen; left).
    assert (Hne : l ≠ []) by (intros ->; discriminate Hl).
    destruct (_ && _) eqn:E.
    + apply (line_test b l Hl) in E as [H0 Hh]. split.
      * intros [= <-]. exists [], l, ls. split; [done|]. split; [done|].
        split; [done|]. intros l' q Hl'. by apply elem_of_nil in Hl'.
      * intros (before & l0 & after & Heq & Hp & Hhp & Hb).
        destruct before as [|l1 before]; simplify_eq/=.
        -- f_equal. by apply holds_hd.
        -- exfalso. apply (Hb l1 _ (list_elem_of_here _ _) H0 Hh).
    + rewrite (line_test_false b l Hl) in E.
      rewrite IH by (intros; apply Hlen; by right). split.
      * intros (before & l0 & after & -> & Hp & Hhp & Hb).
        exists (l :: before), l0, after. split; [done|]. split; [done|].
        split; [done|].
        intros l' q [->|Hl']%elem_of_cons; [by apply E|by apply Hb].
      * intros (before & l0 & after & Heq & Hp & Hhp & Hb).
        destruct before as [|l1 before]; simplify_eq/=.
        -- exfalso. by apply (E p).
        -- exists before, l0, after. split; [done|]. split; [done|].
           split; [done|]. intros l' q Hl'. apply Hb. by right.
Qed.

Lemma full_forallb b :
  forallb (λ r, forallb (λ c, negb (_get_cell b r c =? 0)) (range 3)) (range 3)
  = true ↔ full b.
Proof.
  rewrite forallb_forall. unfold full.
  setoid_rewrite forallb_forall.
  setoid_rewrite <- list_elem_of_In.
  setoid_rewrite elem_of_range.
  setoid_rewrite negb_true_iff. setoid_rewrite Z.eqb_neq.
  split; intros H r c Hr Hc; by apply H.
Qed.

Lemma get_cell_range b r c : 0 ≤ _get_cell b r c < 3.
Proof. rewrite get_cell_digit. apply digit_range. Qed.

Lemma scan_lines_value b p : scan_lines (lines b) = Some p → p = 1 ∨ p = 2.
Proof.
  rewrite lines_cells, scan_lines_Some by apply line_cells_length.
  intros (before & l & after & Heq & Hp & Hh & _).
  assert (Hl : l ∈ line_cells) by (rewrite Heq, elem_of_app; right; left).
  apply line_cells_length in Hl.
  destruct l as [|x l]; [done|].
  pose proof (Hh x (list_elem_of_here _ _)) as Hx.
  pose proof (get_cell_range b x.1 x.2). lia.
Qed.

Lemma scan_lines_decided b : scan_lines (lines b) = None ↔ ¬ decided b.
Proof.
  rewrite lines_cells, scan_lines_None by apply line_cells_length.
  unfold decided, has_line. split.
  - intros Hn (p & Hp & l & Hl & Hh). by apply (Hn l p).
  - intros Hn l q Hl Hq Hh. apply Hn. eauto.
Qed.

Lemma check_winner_first_line b p :
  p = 1 ∨ p = 2 → check_winner b = p ↔ first_line b p.
Proof.
  intros Hp. unfold first_line.
  rewrite <- (scan_lines_Some b line_cells p line_cells_length), <- lines_cells.
  unfold check_winner. destruct (scan_lines (lines b)) as [w|].
  - split; congruence.
  - split; [|done]. destruct (forallb _ _); lia.
Qed.

Lemma first_line_has_line b p : first_line b p → has_line b p.
Proof.
  intros (before & l & after & Heq & _ & Hh & _).
  exists l. split; [|done]. rewrite Heq, elem_of_app. right. left.
Qed.

Lemma decided_first_line b : decided b → ∃ p, first_line b p.
Proof.
  intros Hd. destruct (scan_lines (lines b)) as [p|] eqn:E.
  - exists p. revert E.
    rewrite lines_cells. by apply scan_lines_Some, line_cells_length.
  - by apply scan_lines_decided in E.
Qed.

(** A board on which both markers hold a completed line (rows 0 and 1;
    reached by six calls of [make_move_cpu]): the scan meets row 0 first
    and reports player 1, although row 1 is complete for player 2. *)
Lemma check_winner_two_lines :
  let b := {| state := 1 + 3 + 9 + 2 * (27 + 81 + 243) |} in
  has_line b 2 ∧ check_winner b = 1 ∧ check_winner b ≠ 2.
Proof.
  split; [|split; [reflexivity|discriminate]].
  exists [(1, 0); (1, 1); (1, 2)]. split.
  - unfold line_cells. do 2 right. left.
  - intros rc. rewrite !elem_of_cons, elem_of_nil.
    intros [->|[->|[->|[]]]]; reflexivity.
Qed.

(** C4 (amended): [check_winner] returns a win for [p] exactly when [p]
    is the marker of the first completed line in the order of the scan
    (row 0, column 0, row 1, column 1, row 2, column 2, main diagonal,
    anti-diagonal); on a board where no other marker completes a line that
    is: exactly when some line holds [p] three times.  It returns -1
    exactly when no line decides and no cell is empty, 0 exactly when no
    line decides and a cell is empty, and nothing else.  Row 0 held by X
    with all else empty is a win for X, and the empty board is in
    progress. *)
Theorem check_winner_spec (b : Board) :
  (∀ p, p = 1 ∨ p = 2 → (check_winner b = p ↔ first_line b p))
  ∧ (∀ p, p = 1 ∨ p = 2 → (∀ q, q ≠ 0 → q ≠ p → ¬ has_line b q) →
       (check_winner b = p ↔ has_line b p))
  ∧ (check_winner b = 1 ∨ check_winner b = 2 ↔ decided b)
  ∧ (check_winner b = -1 ↔ ¬ decided b ∧ full b)
  ∧ (check_winner b = 0 ↔ ¬ decided b ∧ ¬ full b)
  ∧ ((∀ row col, 0 ≤ row < 3 → 0 ≤ col < 3 →
        _get_cell b row col = if row =? 0 then 1 else 0) →
     check_winner b = 1)
  ∧ check_winner new_board = 0.
Proof.
  assert (Hwin : ∀ p, p = 1 ∨ p = 2 → has_line b p →
                 (∀ q, q ≠ 0 → q ≠ p → ¬ has_line b q) → check_winner b = p).
  { intros p Hp Hl Hother.
    destruct (decided_first_line b) as [p' Hf].
    { exists p. split; [lia|done]. }
    destruct (decide (p' = p)) as [->|Hne].
    - by apply check_winner_first_line.
    - exfalso. apply (Hother p'); [|done|by apply first_line_has_line].
      by destruct Hf as (_ & _ & _ & _ & ? & _). }
  assert (Hdec : check_winner b = 1 ∨ check_winner b = 2 ↔ decided b).
  { split.
    - intros [H|H]; apply check_winner_first_line, first_line_has_line in H;
        try lia; eexists; (split; [|exact H]); lia.
    - intros [p Hf]%decided_first_line.
      assert (Hp : p = 1 ∨ p = 2).
      { apply (scan_lines_value b). rewrite lines_cells.
        by apply scan_lines_Some; [apply line_cells_length|]. }
      apply check_winner_first_line in Hf; [|done]. lia. }
  split; [apply check_winner_first_line|].
  split.
  { intros p Hp Hother. split; [|by auto].
    intros H. by apply first_line_has_line, check_winner_first_line. }
  split; [done|].
  assert (Hnone : ∀ r, r = -1 ∨ r = 0 → check_winner b = r →
                  scan_lines (lines b) = None).
  { intros r Hr. unfold check_winner.
    destruct (scan_lines (lines b)) as [w|] eqn:E; [|done].
    apply scan_lines_value in E. lia. }
  split; [|split; [|split]].
  - split.
    + intros H. pose proof (Hnone _ (or_introl eq_refl) H) as Hs.
      split; [by apply scan_lines_decided|].
      apply full_forallb. unfold check_winner in H. rewrite Hs in H.
      by destruct (forallb _ _).
    + intros [Hn Hf]. unfold check_winner.
      apply scan_lines_decided in Hn as ->.
      apply full_forallb in Hf as ->. done.
  - split.
    + intros H. pose proof (Hnone _ (or_intror eq_refl) H) as Hs.
      split; [by apply scan_lines_decided|].
      rewrite <- full_forallb. unfold check_winner in H. rewrite Hs in H.
      by destruct (forallb _ _).
    + intros [Hn Hf]. unfold check_winner.
      apply scan_lines_decided in Hn as ->.
      rewrite <- full_forallb in Hf. by destruct (forallb _ _).
  - intros Hc. apply check_winner_first_line; [by left|].
    exists [], [(0, 0); (0, 1); (0, 2)], (tail line_cells).
    split; [done|]. split; [done|]. split.
    + intros rc. rewrite !elem_of_cons, elem_of_nil.
      intros [->|[->|[->|[]]]]; simpl; by rewrite Hc.
    + intros l' q Hl'. by apply elem_of_nil in Hl'.
  - reflexivity.
Qed.

Example check_winner_draw :
  (* X O X / X O O / O X X *)
  check_winner {| state := 1 + 2*3 + 9 + 27 + 2*81 + 2*243 + 2*729 + 2187 + 6561 |}
  = -1.
Proof. reflexivity. Qed.

(** ** Symmetry *)

(** The values [_transform_index] and [_transform_state] return. *)
Definition tindex (t a : Z) : Z :=
  match _transform_index a t with Ok v => v | _ => 0 end.

Definition tstate (t s : Z) : Z :=
  match _transform_state s t with Ok v => v | _ => 0 end.

(** The eight candidate keys of [canonicalize_state_action]. *)
Definition keys (s a : Z) : list key :=
  (λ t, (tstate t s, tindex t a)) <$> range 8.

(** The transform that is [t] followed by [u], found by comparing the
    permutations of the nine indices. *)
Definition same_perm (f g : Z → Z) : bool :=
  forallb (λ a, f a =? g a) (range 9).

Definition compose (u t : Z) : Z :=
  default 0 (find (λ v, same_perm (λ a, tindex u (tindex t a)) (tindex v)) (range 8)).

Definition inverse (t : Z) : Z :=
  default 0 (find (λ v, same_perm (λ a, tindex v (tindex t a)) id) (range 8)).

(** The base-3 number with the digits [l], lowest first. *)
Fixpoint of_digits (l : list Z) : Z :=
  match l with
  | [] => 0
  | d :: l' => d + 3 * of_digits l'
  end.

Lemma transform_id_cases t :
  0 ≤ t < 8 → t = 0 ∨ t = 1 ∨ t = 2 ∨ t = 3 ∨ t = 4 ∨ t = 5 ∨ t = 6 ∨ t = 7.
Proof. lia. Qed.

Lemma index_cases a :
  0 ≤ a < 9 →
  a = 0 ∨ a = 1 ∨ a = 2 ∨ a = 3 ∨ a = 4 ∨ a = 5 ∨ a = 6 ∨ a = 7 ∨ a = 8.
Proof. lia. Qed.

Ltac each_case H := repeat destruct H as [->|H]; [..|subst].

Lemma transform_index_Ok a t :
  0 ≤ t < 8 → _transform_index a t = Ok (tindex t a).
Proof.
  intros Ht%transform_id_cases. unfold tindex, _transform_index, divmod.
  each_case Ht; reflexivity.
Qed.

Lemma for_each_Ok {A S} (l : list A) (body : S → A → py S) (f : S → A → S) s :
  (∀ s x, x ∈ l → body s x = Ok (f s x)) →
  for_each l body s = Ok (fold_left f l s).
Proof.
  revert s. induction l as [|x l IH]; intros s Hb; [done|].
  simpl. rewrite Hb by left. simpl. apply IH.
  intros s' y Hy. apply Hb. by right.
Qed.

Lemma transform_state_sum s t :
  0 ≤ t < 8 →
  _transform_state s t
  = Ok (fold_left (λ acc i, acc + digit s i * 3 ^ tindex t i) (range 9) 0).
Proof.
  intros Ht. unfold _transform_state. apply for_each_Ok.
  intros acc i _. fold (digit s i).
  destruct (Z.eqb_spec (digit s i) 0) as [->|_]; simpl.
  - f_equal. lia.
  - by rewrite transform_index_Ok.
Qed.

Lemma transform_state_Ok s t : 0 ≤ t < 8 → _transform_state s t = Ok (tstate t s).
Proof. intros Ht. unfold tstate. by rewrite transform_state_sum. Qed.

(** Facts about the eight transforms that are checked by running them. *)
Lemma forallb_range n (P : Z → bool) :
  forallb P (range n) = true → ∀ i, 0 ≤ i < n → P i = true.
Proof.
  rewrite forallb_forall. intros H i Hi.
  apply H, list_elem_of_In, elem_of_range, Hi.
Qed.

Lemma tindex_range t a : 0 ≤ t < 8 → 0 ≤ a < 9 → 0 ≤ tindex t a < 9.
Proof.
  intros Ht Ha.
  assert (H : forallb (λ t, forallb (λ a, (0 <=? tindex t a) && (tindex t a <? 9))
                         (range 9)) (range 8) = true) by (vm_compute; reflexivity).
  pose proof (forallb_range _ _ (forallb_range _ _ H t Ht) a Ha) as Hb.
  simpl in Hb. apply andb_true_iff in Hb as [?%Z.leb_le ?%Z.ltb_lt]. lia.
Qed.

Lemma compose_range u t : 0 ≤ u < 8 → 0 ≤ t < 8 → 0 ≤ compose u t < 8.
Proof.
  intros Hu Ht.
  assert (H : forallb (λ u, forallb (λ t, (0 <=? compose u t) && (compose u t <? 8))
                         (range 8)) (range 8) = true) by (vm_compute; reflexivity).
  pose proof (forallb_range _ _ (forallb_range _ _ H u Hu) t Ht) as Hb.
  simpl in Hb. apply andb_true_iff in Hb as [?%Z.leb_le ?%Z.ltb_lt]. lia.
Qed.

Lemma inverse_range t : 0 ≤ t < 8 → 0 ≤ inverse t < 8.
Proof.
  intros Ht.
  assert (H : forallb (λ t, (0 <=? inverse t) && (inverse t <? 8)) (range 8)
              = true) by (vm_compute; reflexivity).
  pose proof (forallb_range _ _ H t Ht) as Hb.
  simpl in Hb. apply andb_true_iff in Hb as [?%Z.leb_le ?%Z.ltb_lt]. lia.
Qed.

Lemma tindex_compose u t a :
  0 ≤ u < 8 → 0 ≤ t < 8 → 0 ≤ a < 9 →
  tindex u (tindex t a) = tindex (compose u t) a.
Proof.
  intros Hu Ht Ha.
  assert (H : forallb (λ u, forallb (λ t, forallb (λ a,
                 tindex u (tindex t a) =? tindex (compose u t) a)
                 (range 9)) (range 8)) (range 8) = true)
    by (vm_compute; reflexivity).
  pose proof (forallb_range _ _ (forallb_range _ _ (forallb_range _ _ H u Hu) t Ht) a Ha) as Hb.
  simpl in Hb. by apply Z.eqb_eq in Hb.
Qed.

Lemma tindex_inverse t a :
  0 ≤ t < 8 → 0 ≤ a < 9 → tindex t (tindex (inverse t) a) = a.
Proof.
  intros Ht Ha.
  assert (H : forallb (λ t, forallb (λ a, tindex t (tindex (inverse t) a) =? a)
                 (range 9)) (range 8) = true) by (vm_compute; reflexivity).
  pose proof (forallb_range _ _ (forallb_range _ _ H t Ht) a Ha) as Hb.
  simpl in Hb. by apply Z.eqb_eq in Hb.
Qed.

Lemma inverse_compose u t a :
  0 ≤ u < 8 → 0 ≤ t < 8 → 0 ≤ a < 9 →
  tindex (inverse t) (tindex (inverse u) a) = tindex (inverse (compose u t)) a.
Proof.
  intros Hu Ht Ha.
  assert (H : forallb (λ u, forallb (λ t, forallb (λ a,
                 tindex (inverse t) (tindex (inverse u) a)
                 =? tindex (inverse (compose u t)) a)
                 (range 9)) (range 8)) (range 8) = true)
    by (vm_compute; reflexivity).
  pose proof (forallb_range _ _ (forallb_range _ _ (forallb_range _ _ H u Hu) t Ht) a Ha) as Hb.
  simpl in Hb. by apply Z.eqb_eq in Hb.
Qed.

Lemma compose_cancel v t :
  0 ≤ v < 8 → 0 ≤ t < 8 → compose (compose v (inverse t)) t = v.
Proof.
  intros Hv Ht.
  assert (H : forallb (λ v, forallb (λ t,
                 compose (compose v (inverse t)) t =? v) (range 8)) (range 8)
              = true) by (vm_compute; reflexivity).
  pose proof (forallb_range _ _ (forallb_range _ _ H v Hv) t Ht) as Hb.
  simpl in Hb. by apply Z.eqb_eq in Hb.
Qed.

Lemma digit_of_digits l j :
  Forall (λ d, 0 ≤ d < 3) l → 0 ≤ j →
  digit (of_digits l) j = nth (Z.to_nat j) l 0.
Proof.
  intros Hl. revert j. induction Hl as [|d l Hd Hl IH]; intros j Hj.
  - simpl. unfold digit. rewrite Z.div_0_l by (pose proof (pow3_pos j); lia).
    by destruct (Z.to_nat j).
  - destruct (decide (j = 0)) as [->|Hne].
    + simpl. unfold digit. rewrite Z.pow_0_r, Z.div_1_r.
      rewrite Z.mul_comm, Z_mod_plus_full. apply Z.mod_small. lia.
    + replace j with (1 + (j - 1)) at 1 by lia.
      rewrite digit_shift by lia. cbn [of_digits]. rewrite Z.pow_1_r.
      rewrite (Z.mul_comm 3), Z.div_add, (Z.div_small d), Z.add_0_l by lia.
      rewrite IH by lia.
      replace (Z.to_nat j) with (S (Z.to_nat (j - 1))) by lia. done.
Qed.

Ltac run_transforms :=
  repeat match goal with
  | |- context [tindex ?t ?a] =>
      let v := eval vm_compute in (tindex t a) in change (tindex t a) with v
  end;
  repeat match goal with
  | |- context [3 ^ ?k] =>
      let v := eval vm_compute in (3 ^ k) in change (3 ^ k) with v
  end.

(** The transformed state, digit by digit: cell [j] of the image is cell
    [inverse t j] of the original. *)
Lemma tstate_digits t s :
  0 ≤ t < 8 →
  tstate t s = of_digits ((λ j, digit s (tindex (inverse t) j)) <$> range 9).
Proof.
  intros Ht. unfold tstate. rewrite transform_state_sum by done.
  rewrite range_9. cbn [fold_left fmap list_fmap of_digits].
  apply transform_id_cases in Ht.
  each_case Ht; run_transforms; lia.
Qed.

Lemma digit_tstate t s j :
  0 ≤ t < 8 → 0 ≤ j < 9 →
  digit (tstate t s) j = digit s (tindex (inverse t) j).
Proof.
  intros Ht Hj. rewrite tstate_digits by done.
  rewrite digit_of_digits.
  - apply index_cases in Hj. each_case Hj; reflexivity.
  - apply Forall_fmap, Forall_forall. intros x _. apply digit_range.
  - lia.
Qed.

Lemma tstate_compose u t s :
  0 ≤ u < 8 → 0 ≤ t < 8 → tstate u (tstate t s) = tstate (compose u t) s.
Proof.
  intros Hu Ht.
  rewrite (tstate_digits u), (tstate_digits (compose u t))
    by auto using compose_range.
  f_equal. apply list_fmap_ext. intros _ j Hj%list_elem_of_lookup_2%elem_of_range.
  rewrite digit_tstate by auto using tindex_range, inverse_range.
  by rewrite inverse_compose.
Qed.

(** *** The smallest candidate *)

(** One turn of the loop of [canonicalize_state_action]. *)
Definition pick (best : option key) (k : key) : option key :=
  match best with
  | None => Some k
  | Some b => if key_lt k b then Some k else best
  end.

Definition min_key (l : list key) : option key := fold_left pick l None.

Lemma key_lt_spec a b :
  key_lt a b = true ↔ a.1 < b.1 ∨ (a.1 = b.1 ∧ a.2 < b.2).
Proof.
  unfold key_lt.
  rewrite orb_true_iff, andb_true_iff, !Z.ltb_lt, Z.eqb_eq. done.
Qed.

Lemma key_ge_spec a b :
  key_lt a b = false ↔ b.1 < a.1 ∨ (a.1 = b.1 ∧ b.2 ≤ a.2).
Proof. rewrite <- not_true_iff_false, key_lt_spec. lia. Qed.

Lemma key_antisym (a b : key) : key_lt a b = false → key_lt b a = false → a = b.
Proof.
  rewrite !key_ge_spec. destruct a, b; simpl. intros. f_equal; lia.
Qed.

Lemma fold_pick_spec l b :
  ∃ m, fold_left pick l (Some b) = Some m
    ∧ (m = b ∨ m ∈ l)
    ∧ key_lt b m = false
    ∧ ∀ k, k ∈ l → key_lt k m = false.
Proof.
  revert b. induction l as [|x l IH]; intros b.
  - exists b. split; [done|]. split; [by left|]. split.
    + apply key_ge_spec. lia.
    + intros k Hk. by apply elem_of_nil in Hk.
  - simpl. destruct (key_lt x b) eqn:E.
    + destruct (IH x) as (m & Hm & Hin & Hxm & Hall).
      exists m. split; [done|].
      split; [right; destruct Hin as [->|?]; [left|by right]|].
      apply key_lt_spec in E. rewrite key_ge_spec in Hxm. split.
      * apply key_ge_spec. lia.
      * intros k [->|Hk]%elem_of_cons; [by apply key_ge_spec|by apply Hall].
    + destruct (IH b) as (m & Hm & Hin & Hbm & Hall).
      exists m. split; [done|].
      split; [destruct Hin as [->|?]; [by left|right; by right]|].
      split; [done|].
      rewrite key_ge_spec in E, Hbm.
      intros k [->|Hk]%elem_of_cons; [apply key_ge_spec; lia|by apply Hall].
Qed.

Lemma min_key_spec l :
  l ≠ [] →
  ∃ m, min_key l = Some m ∧ m ∈ l ∧ ∀ k, k ∈ l → key_lt k m = false.
Proof.
  destruct l as [|x l]; [done|]. intros _.
  destruct (fold_pick_spec l x) as (m & Hm & Hin & Hxm & Hall).
  exists m. split; [done|].
  split; [destruct Hin as [->|?]; [left|by right]|].
  intros k [->|Hk]%elem_of_cons; [done|by apply Hall].
Qed.

Lemma min_key_same_elements l1 l2 :
  l1 ≠ [] → (∀ k, k ∈ l1 ↔ k ∈ l2) → min_key l1 = min_key l2.
Proof.
  intros Hne Hsame.
  assert (Hne2 : l2 ≠ []).
  { destruct l1 as [|x l1]; [done|]. intros ->.
    apply (elem_of_nil x), Hsame. left. }
  destruct (min_key_spec l1 Hne) as (m1 & -> & Hin1 & Hall1).
  destruct (min_key_spec l2 Hne2) as (m2 & -> & Hin2 & Hall2).
  f_equal. apply key_antisym.
  - apply Hall2, Hsame, Hin1.
  - apply Hall1, Hsame, Hin2.
Qed.

Lemma elem_of_keys s a k :
  k ∈ keys s a ↔ ∃ t, 0 ≤ t < 8 ∧ k = (tstate t s, tindex t a).
Proof.
  unfold keys. rewrite list_elem_of_fmap.
  setoid_rewrite elem_of_range.
  split; intros (t & H1 & H2); by exists t.
Qed.

Lemma keys_nonempty s a : keys s a ≠ [].
Proof. done. Qed.

Lemma canonicalize_min s a :
  canonicalize_state_action s a
  = match min_key (keys s a) with Some k => Ok k | None => Raise ValueError end.
Proof.
  unfold canonicalize_state_action.
  rewrite (for_each_Ok _ _ (λ best t, pick best (tstate t s, tindex t a))).
  - reflexivity.
  - intros best t Ht%elem_of_range.
    rewrite transform_state_Ok, transform_index_Ok by done. simpl.
    destruct best as [b|]; [|done]. simpl. by destruct (key_lt _ b).
Qed.

(** The canonical key is one of the eight candidates and no candidate is
    smaller. *)
Lemma canonicalize_Ok s a :
  ∃ k, canonicalize_state_action s a = Ok k
    ∧ k ∈ keys s a ∧ ∀ k', k' ∈ keys s a → key_lt k' k = false.
Proof.
  rewrite canonicalize_min.
  destruct (min_key_spec (keys s a) (keys_nonempty s a)) as (m & -> & Hm).
  by exists m.
Qed.

(** Every symmetric image has the same candidates, hence the same key. *)
Lemma keys_transform s a t k :
  0 ≤ t < 8 → 0 ≤ a < 9 →
  k ∈ keys (tstate t s) (tindex t a) ↔ k ∈ keys s a.
Proof.
  intros Ht Ha. rewrite !elem_of_keys. split.
  - intros (u & Hu & ->). exists (compose u t).
    split; [by apply compose_range|].
    by rewrite tstate_compose, tindex_compose.
  - intros (v & Hv & ->). exists (compose v (inverse t)).
    pose proof (inverse_range t Ht).
    split; [by apply compose_range|].
    rewrite tstate_compose, tindex_compose by auto using compose_range.
    by rewrite compose_cancel.
Qed.

Lemma canonicalize_transform s a t :
  0 ≤ t < 8 → 0 ≤ a < 9 →
  canonicalize_state_action (tstate t s) (tindex t a)
  = canonicalize_state_action s a.
Proof.
  intros Ht Ha. rewrite !canonicalize_min.
  rewrite (min_key_same_elements (keys (tstate t s) (tindex t a)) (keys s a));
    [done|apply keys_nonempty|].
  intros k. by apply keys_transform.
Qed.

(** C1: the images of (S, A) under any two of the eight transforms get
    the same canonical key, which is also the key of (S, A) itself. *)
Theorem canonicalize_symmetric (S A T1 T2 : Z) :
  0 ≤ A < 9 → 0 ≤ T1 < 8 → 0 ≤ T2 < 8 →
  ∃ S1 A1 S2 A2 k,
    _transform_state S T1 = Ok S1 ∧ _transform_index A T1 = Ok A1
    ∧ _transform_state S T2 = Ok S2 ∧ _transform_index A T2 = Ok A2
    ∧ canonicalize_state_action S1 A1 = Ok k
    ∧ canonicalize_state_action S2 A2 = Ok k
    ∧ canonicalize_state_action S A = Ok k.
Proof.
  intros HA H1 H2.
  destruct (canonicalize_Ok S A) as (k & Hk & _).
  exists (tstate T1 S), (tindex T1 A), (tstate T2 S), (tindex T2 A), k.
  rewrite !transform_state_Ok, !transform_index_Ok by done.
  rewrite !canonicalize_transform by done. done.
Qed.

Lemma canonicalize_symmetric_witness :
  (0 ≤ 5 < 9 ∧ 0 ≤ 1 < 8 ∧ 0 ≤ 6 < 8)
  ∧ ∃ S1 A1 S2 A2 k,
      _transform_state 715 1 = Ok S1 ∧ _transform_index 5 1 = Ok A1
      ∧ _transform_state 715 6 = Ok S2 ∧ _transform_index 5 6 = Ok A2
      ∧ canonicalize_state_action S1 A1 = Ok k
      ∧ canonicalize_state_action S2 A2 = Ok k
      ∧ canonicalize_state_action 715 5 = Ok k.
Proof.
  split; [lia|]. apply (canonicalize_symmetric 715 5 1 6); lia.
Defined.

(** C9: canonicalising the canonical key again returns it unchanged, and
    so does canonicalising the key of any symmetric image of (S, A). *)
Theorem canonicalize_idempotent (S A : Z) :
  0 ≤ A < 9 →
  ∃ k, canonicalize_state_action S A = Ok k
    ∧ canonicalize_state_action k.1 k.2 = Ok k
    ∧ ∀ T, 0 ≤ T < 8 →
        ∃ S' A' k',
          _transform_state S T = Ok S' ∧ _transform_index A T = Ok A'
          ∧ canonicalize_state_action S' A' = Ok k'
          ∧ canonicalize_state_action k'.1 k'.2 = Ok k'
          ∧ k' = k.
Proof.
  intros HA.
  destruct (canonicalize_Ok S A) as (k & Hk & Hin & _).
  assert (Hkk : canonicalize_state_action k.1 k.2 = Ok k).
  { apply elem_of_keys in Hin as (t & Ht & ->). simpl.
    by rewrite canonicalize_transform. }
  exists k. split; [done|]. split; [done|].
  intros T HT. exists (tstate T S), (tindex T A), k.
  rewrite transform_state_Ok, transform_index_Ok by done.
  by rewrite canonicalize_transform.
Qed.

Lemma canonicalize_idempotent_witness :
  0 ≤ 5 < 9
  ∧ ∃ k, canonicalize_state_action 715 5 = Ok k
      ∧ canonicalize_state_action k.1 k.2 = Ok k
      ∧ ∀ T, 0 ≤ T < 8 →
          ∃ S' A' k',
            _transform_state 715 T = Ok S' ∧ _transform_index 5 T = Ok A'
            ∧ canonicalize_state_action S' A' = Ok k'
            ∧ canonicalize_state_action k'.1 k'.2 = Ok k'
            ∧ k' = k.
Proof.
  split; [lia|]. apply (canonicalize_idempotent 715 5). lia.
Defined.

(** ** Choosing a move *)

(** The key [canonicalize_state_action] returns. *)
Definition ckey (s a : Z) : key :=
  match canonicalize_state_action s a with Ok k => k | _ => (0, 0) end.

Lemma canonicalize_ckey s a : canonicalize_state_action s a = Ok (ckey s a).
Proof.
  unfold ckey. by destruct (canonicalize_Ok s a) as (k & -> & _).
Qed.

Lemma getitem_Ok {A} (l : list A) i :
  0 ≤ i < Z.of_nat (length l) → ∃ x, getitem l i = Ok x ∧ x ∈ l.
Proof.
  intros Hi. unfold getitem.
  rewrite (proj2 (Z.ltb_ge i 0)) by lia.
  rewrite (proj2 (Z.leb_le 0 i)), (proj2 (Z.ltb_lt i _)) by lia. simpl.
  destruct (lookup_lt_is_Some_2 l (Z.to_nat i)) as [x Hx]; [lia|].
  rewrite Hx. exists x. split; [done|]. by eapply list_elem_of_lookup_2.
Qed.

Lemma random_choice_Ok {A} (l : list A) g :
  l ≠ [] → ∃ x g', random_choice l g = Ok (x, g') ∧ x ∈ l.
Proof.
  intros Hne. unfold random_choice.
  destruct l as [|y l'] eqn:El; [done|]. rewrite <- El.
  destruct (next_draw g) as [z g'].
  destruct (getitem_Ok l (z mod Z.of_nat (length l))) as (x & Hx & Hin).
  { apply Z.mod_pos_bound. rewrite El. simpl. lia. }
  rewrite Hx. by exists x, g'.
Qed.

(** *** [max] and [min] *)

Section Max.
Context {A K : Type} (ltb : K → K → bool) (f : A → K).
Hypothesis ltb_trans :
  ∀ a b c, ltb a b = false → ltb b c = false → ltb a c = false.
Hypothesis ltb_asym : ∀ a b, ltb a b = true → ltb b a = false.
Hypothesis ltb_irrefl : ∀ a, ltb a a = false.

Lemma max_from_spec best l :
  let r := max_from ltb f best l in
  (r = best ∨ r ∈ l)
  ∧ ltb (f r) (f best) = false
  ∧ ∀ x, x ∈ l → ltb (f r) (f x) = false.
Proof.
  revert best. induction l as [|x l IH]; intros best; simpl.
  - split; [by left|]. split; [apply ltb_irrefl|].
    intros x Hx. by apply elem_of_nil in Hx.
  - destruct (ltb (f best) (f x)) eqn:E.
    + destruct (IH x) as (Hin & Hrx & Hall).
      split; [right; destruct Hin as [->|?]; [left|by right]|].
      split; [eauto|].
      intros y [->|Hy]%elem_of_cons; [done|by apply Hall].
    + destruct (IH best) as (Hin & Hrb & Hall).
      split; [destruct Hin as [->|?]; [by left|right; by right]|].
      split; [done|].
      intros y [->|Hy]%elem_of_cons; [eauto|by apply Hall].
Qed.

Lemma py_max_spec l :
  l ≠ [] →
  ∃ r, py_max ltb f l = Ok r ∧ r ∈ l ∧ ∀ x, x ∈ l → ltb (f r) (f x) = false.
Proof.
  destruct l as [|x l]; [done|]. intros _. eexists. split; [done|].
  destruct (max_from_spec x l) as (Hin & Hrx & Hall).
  split; [destruct Hin as [->|?]; [left|by right]|].
  intros y [->|Hy]%elem_of_cons; [done|by apply Hall].
Qed.
End Max.

Lemma Qlt_bool_false a b : Qlt_bool a b = false ↔ (b <= a)%Q.
Proof.
  unfold Qlt_bool. rewrite negb_false_iff. apply Qle_bool_iff.
Qed.

Lemma Qlt_bool_true a b : Qlt_bool a b = true ↔ (a < b)%Q.
Proof.
  unfold Qlt_bool. rewrite negb_true_iff, <- not_true_iff_false, Qle_bool_iff.
  split; [apply Qnot_le_lt|apply Qlt_not_le].
Qed.

Lemma py_max_Q {A} (f : A → Q) (l : list A) :
  l ≠ [] →
  ∃ r, py_max Qlt_bool f l = Ok r ∧ r ∈ l ∧ ∀ x, x ∈ l → (f x <= f r)%Q.
Proof.
  intros Hne.
  destruct (py_max_spec Qlt_bool f) with (l := l) as (r & Hr & Hin & Hall);
    [| | |done|].
  - intros a b c. rewrite !Qlt_bool_false. intros. by apply Qle_trans with b.
  - intros a b. rewrite Qlt_bool_true, Qlt_bool_false. apply Qlt_le_weak.
  - intros a. apply Qlt_bool_false, Qle_refl.
  - exists r. split; [done|]. split; [done|].
    intros x Hx. by apply Qlt_bool_false, Hall.
Qed.

Lemma py_max_Z {A} (f : A → Z) (l : list A) :
  l ≠ [] →
  ∃ r, py_max Z.ltb f l = Ok r ∧ r ∈ l ∧ ∀ x, x ∈ l → f x ≤ f r.
Proof.
  intros Hne.
  destruct (py_max_spec Z.ltb f) with (l := l) as (r & Hr & Hin & Hall);
    [| | |done|].
  - intros a b c. rewrite !Z.ltb_ge. lia.
  - intros a b. rewrite Z.ltb_lt, Z.ltb_ge. lia.
  - intros a. apply Z.ltb_irrefl.
  - exists r. split; [done|]. split; [done|].
    intros x Hx. by apply Z.ltb_ge, Hall.
Qed.

Lemma min_from_spec best l :
  let r := min_from best l in
  (r = best ∨ r ∈ l) ∧ r ≤ best ∧ ∀ x, x ∈ l → r ≤ x.
Proof.
  revert best. induction l as [|x l IH]; intros best; simpl.
  - split; [by left|]. split; [lia|]. intros x Hx. by apply elem_of_nil in Hx.
  - destruct (Z.ltb_spec x best).
    + destruct (IH x) as (Hin & Hrx & Hall).
      split; [right; destruct Hin as [->|?]; [left|by right]|].
      split; [lia|].
      intros y [->|Hy]%elem_of_cons; [done|by apply Hall].
    + destruct (IH best) as (Hin & Hrb & Hall).
      split; [destruct Hin as [->|?]; [by left|right; by right]|].
      split; [done|].
      intros y [->|Hy]%elem_of_cons; [lia|by apply Hall].
Qed.

Lemma py_min_spec l :
  l ≠ [] → ∃ r, py_min l = Ok r ∧ r ∈ l ∧ ∀ x, x ∈ l → r ≤ x.
Proof.
  destruct l as [|x l]; [done|]. intros _. eexists. split; [done|].
  destruct (min_from_spec x l) as (Hin & Hrx & Hall).
  split; [destruct Hin as [->|?]; [left|by right]|].
  intros y [->|Hy]%elem_of_cons; [done|by apply Hall].
Qed.

Section EngineProperties.
Variable nearest : Z → Z → Q.

(** What the exploitation branch computes for a legal move [m]: the
    average reward of its key and the number of times it was taken. *)
Definition average (q : table) (board : Board) (m : Z) : Q :=
  let '(total, count) := get q (ckey (state board) m) in
  if 0 <? count then nearest total count else 0%Q.

Definition samples (q : table) (board : Board) (m : Z) : Z :=
  (get q (ckey (state board) m)).2.

(** Whether averaging the entry of the legal move [m] overflows. *)
Definition overflows (q : table) (board : Board) (m : Z) : bool :=
  let '(total, count) := get q (ckey (state board) m) in
  (0 <? count) && (float_limit * Z.abs count <=? Z.abs total).

(** A table every average of which is in the range of the floats. *)
Definition no_overflow (q : table) : Prop :=
  ∀ k total count, q !! k = Some (total, count) → 0 < count →
    Z.abs total < float_limit * count.

Lemma float_limit_gt_1 : 1 < float_limit.
Proof. by vm_compute. Qed.

Lemma no_overflow_empty : no_overflow ∅.
Proof. intros k total count. by rewrite lookup_empty. Qed.

Lemma no_overflow_overflows q board m : no_overflow q → overflows q board m = false.
Proof.
  intros Hq. unfold overflows, get.
  destruct (q !! ckey (state board) m) as [[total count]|] eqn:E; [|done].
  cbn [default from_option id].
  destruct (Z.ltb_spec 0 count) as [Hc|Hc]; [|done].
  pose proof (Hq _ _ _ E Hc) as Hlt. cbn [andb]. apply Z.leb_gt.
  by rewrite (Z.abs_eq count) by lia.
Qed.

Lemma existsb_overflows q board (moves : list Z) :
  (∀ m, m ∈ moves → overflows q board m = false) →
  existsb (overflows q board) moves = false.
Proof.
  induction moves as [|m l IH]; intros H; [done|].
  cbn [existsb]. rewrite H by left. apply IH. intros m' Hm'. apply H. by right.
Qed.

Lemma no_overflow_existsb q board (moves : list Z) :
  no_overflow q → existsb (overflows q board) moves = false.
Proof.
  intros Hq. apply existsb_overflows. intros m _.
  by apply no_overflow_overflows.
Qed.

(** The scores of the legal moves, or the [OverflowError] of the first
    average that has no float. *)
Lemma greedy_scores board (moves : list Z) q (acc : list (Q * Z * Z)) :
  for_each moves
    (λ (q_avgs : list (Q * Z * Z)) m,
       k ← canonicalize_state_action (state board) m;
       let '(total, count) := get q k in
       avg ← (if 0 <? count then true_div nearest total count else Ok 0%Q);
       mret (q_avgs ++ [(avg, count, m)]))
    acc
  = if existsb (overflows q board) moves then Raise OverflowError
    else Ok (acc ++ ((λ m, (average q board m, samples q board m, m)) <$> moves)).
Proof.
  revert acc. induction moves as [|m l IH]; intros acc.
  { cbn. by rewrite app_nil_r. }
  cbn [for_each existsb fmap list_fmap]. rewrite canonicalize_ckey.
  cbn [mbind py_bind]. unfold overflows at 1, average, samples, true_div.
  destruct (get q (ckey (state board) m)) as [total count] eqn:E.
  destruct (Z.ltb_spec 0 count) as [Hc|Hc]; cbn [andb orb snd].
  - rewrite (proj2 (Z.eqb_neq count 0)) by lia.
    destruct (_ <=? _); [done|]. cbn [mbind py_bind mret py_ret orb].
    rewrite IH. unfold average, samples. by rewrite <- app_assoc.
  - cbn [mbind py_bind mret py_ret]. rewrite IH.
    unfold average, samples. by rewrite <- app_assoc.
Qed.

Lemma fold_snoc_map {A B} (h : A → B) (l : list A) (acc : list B) :
  fold_left (λ acc x, acc ++ [h x]) l acc = acc ++ (h <$> l).
Proof.
  revert acc. induction l as [|x l IH]; intros acc; simpl.
  - by rewrite app_nil_r.
  - by rewrite IH, <- app_assoc.
Qed.

(** The exploitation branch up to its last line: the final [best_moves]
    holds the legal moves of largest average and, among those, of largest
    count. *)
Lemma greedy_candidates board (moves : list Z) gen q epsilon g :
  moves ≠ [] → existsb (overflows q board) moves = false →
  ∃ best_moves max_avg max_count,
    greedy_move nearest board moves gen q epsilon g
    = (if (gen =? 3) && Qeq_bool epsilon 0
       then move ← py_min best_moves; mret (move, g)
       else random_choice best_moves g)
    ∧ best_moves ≠ []
    ∧ (∀ m, m ∈ moves → (average q board m <= max_avg)%Q)
    ∧ (∀ m, m ∈ moves → (average q board m == max_avg)%Q →
         samples q board m ≤ max_count)
    ∧ (∀ m, m ∈ best_moves ↔
         m ∈ moves ∧ (average q board m == max_avg)%Q
         ∧ samples q board m = max_count).
Proof.
  intros Hne Hno. unfold greedy_move.
  rewrite greedy_scores, Hno, app_nil_l.
  set (h := λ m, (average q board m, samples q board m, m)).
  cbn [mbind py_bind].
  destruct (py_max_Q (λ x : Q * Z * Z, x.1.1) (h <$> moves))
    as (best & -> & Hbest & Hmax).
  { by destruct moves. }
  apply list_elem_of_fmap in Hbest as (mb & -> & Hmb).
  cbn [mbind py_bind]. cbn [h fst snd] in Hmax |- *.
  set (max_avg := average q board mb).
  set (bm1 := (λ x : Q * Z * Z, (x.1.2, x.2))
                <$> filter (λ x : Q * Z * Z, Qeq_bool x.1.1 max_avg = true)
                      (h <$> moves)).
  assert (Hbm1 : ∀ y, y ∈ bm1 ↔
            ∃ m, m ∈ moves ∧ (average q board m == max_avg)%Q
                 ∧ y = (samples q board m, m)).
  { intros y. unfold bm1. rewrite list_elem_of_fmap.
    setoid_rewrite list_elem_of_filter. setoid_rewrite list_elem_of_fmap.
    setoid_rewrite Qeq_bool_iff. split.
    - intros (x & -> & Hx & m & -> & Hm). by exists m.
    - intros (m & Hm & Hx & ->). exists (h m). split; [done|].
      split; [done|]. by exists m. }
  destruct (py_max_Z (λ x : Z * Z, x.1) bm1) as (bestc & -> & Hbestc & Hmaxc).
  { intros Hnil. apply (elem_of_nil (samples q board mb, mb)).
    rewrite <- Hnil. apply Hbm1. exists mb. split; [done|]. split; [|done].
    reflexivity. }
  apply Hbm1 in Hbestc as (mc & Hmc & Havgc & ->).
  cbn [mbind py_bind fst snd] in Hmaxc |- *.
  set (max_count := samples q board mc).
  set (bm2 := (λ x : Z * Z, x.2) <$> filter (λ x : Z * Z, x.1 = max_count) bm1).
  assert (Hbm2 : ∀ m, m ∈ bm2 ↔
            m ∈ moves ∧ (average q board m == max_avg)%Q
            ∧ samples q board m = max_count).
  { intros m. unfold bm2. rewrite list_elem_of_fmap.
    setoid_rewrite list_elem_of_filter. setoid_rewrite Hbm1. split.
    - intros (y & -> & Hy & m0 & Hm & Ha & ->). done.
    - intros (Hm & Ha & Hs). exists (samples q board m, m).
      split; [done|]. split; [done|]. by exists m. }
  exists bm2, max_avg, max_count. split; [done|]. split.
  { intros Hnil. apply (elem_of_nil mc). rewrite <- Hnil. by apply Hbm2. }
  split; [|split; [|done]].
  - intros m Hm. apply (Hmax (h m)), list_elem_of_fmap. by exists m.
  - intros m Hm Heq. apply (Hmaxc (samples q board m, m)), Hbm1. by exists m.
Qed.

(** An average out of the floats' range stops the exploitation branch. *)
Lemma greedy_move_overflow board (moves : list Z) gen q epsilon g :
  existsb (overflows q board) moves = true →
  greedy_move nearest board moves gen q epsilon g = Raise OverflowError.
Proof. intros Hov. unfold greedy_move. by rewrite greedy_scores, Hov. Qed.

Lemma greedy_move_Ok board (moves : list Z) gen q epsilon g :
  moves ≠ [] → existsb (overflows q board) moves = false →
  ∃ move g', greedy_move nearest board moves gen q epsilon g = Ok (move, g')
    ∧ move ∈ moves.
Proof.
  intros Hne Hno.
  destruct (greedy_candidates board moves gen q epsilon g Hne Hno)
    as (bm & max_avg & max_count & -> & Hbm & _ & _ & Hin).
  destruct (_ && _).
  - destruct (py_min_spec bm Hbm) as (move & -> & Hmove & _).
    exists move, g. split; [done|]. by apply Hin.
  - destruct (random_choice_Ok bm g Hbm) as (move & g' & -> & Hmove).
    exists move, g'. split; [done|]. by apply Hin.
Qed.

(** In the deterministic greedy mode the chosen move has the largest
    average, among those the largest count, among those the smallest
    index; the random source is not consulted. *)
Lemma greedy_move_spec board (moves : list Z) q epsilon g :
  moves ≠ [] → existsb (overflows q board) moves = false →
  Qeq_bool epsilon 0 = true →
  ∃ move,
    greedy_move nearest board moves 3 q epsilon g = Ok (move, g)
    ∧ move ∈ moves
    ∧ (∀ m, m ∈ moves → (average q board m <= average q board move)%Q)
    ∧ (∀ m, m ∈ moves → (average q board m == average q board move)%Q →
         samples q board m ≤ samples q board move)
    ∧ (∀ m, m ∈ moves → (average q board m == average q board move)%Q →
         samples q board m = samples q board move → move ≤ m).
Proof.
  intros Hne Hno Heps.
  destruct (greedy_candidates board moves 3 q epsilon g Hne Hno)
    as (bm & max_avg & max_count & -> & Hbm & Hmax & Hmaxc & Hin).
  rewrite Z.eqb_refl, Heps. cbn [andb].
  destruct (py_min_spec bm Hbm) as (move & -> & Hmove & Hmin).
  apply Hin in Hmove as (Hmv & Havg & Hsam).
  exists move. split; [done|]. split; [done|]. split; [|split].
  - intros m Hm. rewrite Havg. by apply Hmax.
  - intros m Hm Heq. rewrite Hsam. apply Hmaxc; [done|]. by rewrite Heq.
  - intros m Hm Heq Hs. apply Hmin, Hin.
    split; [done|]. split; [by rewrite Heq|by rewrite Hs].
Qed.

Lemma random_random_nonneg g : (0 <= (random_random g).1)%Q.
Proof.
  unfold random_random, next_draw, Qle. cbn [fst Qnum Qden].
  rewrite Z.mul_0_l, Z.mul_1_r.
  apply Z.mod_pos_bound. done.
Qed.

Lemma random_random_lt_1 g : ((random_random g).1 < 1)%Q.
Proof.
  unfold random_random, next_draw, Qlt. cbn [fst Qnum Qden].
  rewrite Z.mul_1_r, Z.mul_1_l.
  apply Z.mod_pos_bound. done.
Qed.

(** Whatever the mode and the table, on a board with a legal move the
    call returns a legal move and appends its canonical key to the
    history, or it stops on an average that has no float. *)
Lemma get_and_save_move_cases self board gen q_values epsilon g :
  get_valid_moves board ≠ [] →
  (∃ move g',
     get_and_save_move nearest self board gen q_values epsilon g
     = Ok (move, set_moves self (moves self ++ [ckey (state board) move]), g')
     ∧ move ∈ get_valid_moves board)
  ∨ (get_and_save_move nearest self board gen q_values epsilon g
     = Raise OverflowError
     ∧ ∃ q, q_values = Some q
         ∧ existsb (overflows q board) (get_valid_moves board) = true).
Proof.
  intros Hne. unfold get_and_save_move.
  set (choice := if gen =? 1 then _ else _).
  assert (Hc : (∃ move g', choice = Ok (move, g') ∧ move ∈ get_valid_moves board)
               ∨ (choice = Raise OverflowError
                  ∧ ∃ q, q_values = Some q
                      ∧ existsb (overflows q board) (get_valid_moves board)
                        = true)).
  { unfold choice. destruct (gen =? 1); [left; by apply random_choice_Ok|].
    destruct q_values as [q|]; [|left; by apply random_choice_Ok].
    destruct (random_random g) as [u g1].
    destruct (Qlt_bool u epsilon); [left; by apply random_choice_Ok|].
    destruct (existsb (overflows q board) (get_valid_moves board)) eqn:Hov.
    - right. split; [by apply greedy_move_overflow|]. by exists q.
    - left. by apply greedy_move_Ok. }
  destruct Hc as [(move & g' & -> & Hin)|(-> & Hq)].
  - left. exists move, g'.
    split; [|done]. cbn [mbind py_bind]. by rewrite canonicalize_ckey.
  - by right.
Qed.

(** When the averages of the legal moves are floats the call returns. *)
Lemma get_and_save_move_Ok self board gen q_values epsilon g :
  get_valid_moves board ≠ [] →
  (∀ q m, q_values = Some q → m ∈ get_valid_moves board →
     overflows q board m = false) →
  ∃ move g',
    get_and_save_move nearest self board gen q_values epsilon g
    = Ok (move, set_moves self (moves self ++ [ckey (state board) move]), g')
    ∧ move ∈ get_valid_moves board.
Proof.
  intros Hne Hq.
  destruct (get_and_save_move_cases self board gen q_values epsilon g Hne)
    as [H|(_ & q & -> & Hov)]; [done|].
  rewrite existsb_overflows in Hov; [done|].
  intros m Hm. by apply Hq.
Qed.

(** C3: with [gen = 3], [epsilon = 0] and a table in which the average
    of every legal move is in the range of the floats (a larger one
    raises [OverflowError] at the division), [get_and_save_move] returns
    the legal move of largest
    average reward (sum/count when count > 0, else 0, a missing key
    counting as (0, 0)); among those of largest count; among those of
    smallest index.  So when moves 0 and 4 tie on average and count and
    every other legal move has a lower average, it returns 0.  The move's
    key is appended to the history. *)
Theorem get_and_save_move_greedy (self : CPU) (board : Board) (q : table)
    (epsilon : Q) (g : Random) :
  get_valid_moves board ≠ [] → (epsilon == 0)%Q →
  (∀ m, m ∈ get_valid_moves board → overflows q board m = false) →
  let valid := get_valid_moves board in
  ∃ move,
    get_and_save_move nearest self board 3 (Some q) epsilon g
    = Ok (move,
          set_moves self (moves self ++ [ckey (state board) move]),
          (random_random g).2)
    ∧ move ∈ valid
    ∧ (∀ m, m ∈ valid → (average q board m <= average q board move)%Q)
    ∧ (∀ m, m ∈ valid → (average q board m == average q board move)%Q →
         samples q board m ≤ samples q board move)
    ∧ (∀ m, m ∈ valid → (average q board m == average q board move)%Q →
         samples q board m = samples q board move → move ≤ m)
    ∧ (0 ∈ valid → 4 ∈ valid →
       (average q board 0 == average q board 4)%Q →
       samples q board 0 = samples q board 4 →
       (∀ m, m ∈ valid → m ≠ 0 → m ≠ 4 →
          (average q board m < average q board 0)%Q) →
       move = 0).
Proof.
  intros Hne Heps Hq moves0.
  destruct (greedy_move_spec board moves0 q epsilon (random_random g).2 Hne)
    as (move & Hg & Hin & Havg & Hsam & Hidx).
  { by apply existsb_overflows. }
  { by apply Qeq_bool_iff. }
  exists move. split; [|split; [done|split; [done|split; [done|split; [done|]]]]].
  - unfold get_and_save_move. fold moves0.
    change (3 =? 1) with false. cbv iota.
    pose proof (random_random_nonneg g) as Hu.
    destruct (random_random g) as [u g1]. cbn [fst snd] in *.
    rewrite (proj2 (Qlt_bool_false u epsilon)) by (by rewrite Heps).
    rewrite Hg. cbn [mbind py_bind]. by rewrite canonicalize_ckey.
  - intros H0 H4 Heq Hs Hlow.
    destruct (decide (move = 0)) as [|Hn0]; [done|].
    destruct (decide (move = 4)) as [->|Hn4].
    + pose proof (Hidx 0 H0 Heq Hs). lia.
    + exfalso. pose proof (Hlow move Hin Hn0 Hn4) as Hlt.
      pose proof (Havg 0 H0) as Hle.
      apply (Qlt_not_le _ _ Hlt Hle).
Qed.

(** ** The self-play loop *)

(** The reward of the first player for a terminal [result]; the second
    player gets the opposite. *)
Definition reward1_of (result marker1 : Z) : Z :=
  if result =? -1 then 0 else if result =? marker1 then 1 else -1.

Lemma get_and_save_move_inv self board gen q_values epsilon g move self' g' :
  get_and_save_move nearest self board gen q_values epsilon g
  = Ok (move, self', g') →
  ∃ k, self' = set_moves self (moves self ++ [k]).
Proof.
  unfold get_and_save_move.
  destruct (if gen =? 1 then _ else _) as [[mv g1]| |]; [|done..].
  cbn [mbind py_bind].
  destruct (canonicalize_state_action _ _) as [k| |]; [|done..].
  cbn [mbind py_bind mret py_ret]. intros [= <- <- <-]. by exists k.
Qed.

(** What a finished game leaves in the table, whatever the players, the
    table and the random draws were. *)
Lemma game_loop_table fuel cpu1 cpu2 q stats gen epsilon learn board cur oth g fin :
  game_loop nearest fuel cpu1 cpu2 q stats gen epsilon learn board cur oth g
  = Ok fin →
  let r := check_winner (g_board fin) in
  let reward1 := reward1_of r (marker cpu1) in
  r ≠ 0
  ∧ marker (g_cpu1 fin) = marker cpu1
  ∧ marker (g_cpu2 fin) = marker cpu2
  ∧ g_q_values fin
    = if learn
      then credit (- reward1) (moves (g_cpu2 fin))
             (credit reward1 (moves (g_cpu1 fin)) q)
      else q.
Proof.
  revert cpu1 cpu2 board cur oth g.
  induction fuel as [|fuel IH]; intros cpu1 cpu2 board cur oth g; [done|].
  cbn [game_loop].
  destruct (get_and_save_move _ _ _ _ _ _ _) as [[[move self'] g']| |] eqn:Eg;
    [|done..].
  apply get_and_save_move_inv in Eg as [k ->].
  cbn [mbind py_bind].
  set (c1 := match cur with Cpu1 => set_moves _ _ | Cpu2 => cpu1 end).
  set (c2 := match cur with Cpu1 => cpu2 | Cpu2 => set_moves _ _ end).
  assert (Hm1 : marker c1 = marker cpu1) by (unfold c1; by destruct cur).
  assert (Hm2 : marker c2 = marker cpu2) by (unfold c2; by destruct cur).
  set (board' := (make_move_cpu board _ move).2).
  destruct (Z.eqb_spec (check_winner board') 0) as [E0|E0]; cbn [negb].
  - intros H. apply IH in H. by rewrite Hm1, Hm2 in H.
  - unfold reward1_of. rewrite <- Hm1.
    destruct (check_winner board' =? -1) eqn:Ed.
    + destruct (incr stats "draws") as [stats'| |]; [|done..].
      cbn [mbind py_bind mret py_ret]. intros [= <-]. cbn.
      rewrite Ed. done.
    + destruct (check_winner board' =? marker c1) eqn:Ew;
        (destruct (incr stats "win_loss") as [stats'| |]; [|done..]);
        cbn [mbind py_bind mret py_ret]; intros [= <-]; cbn;
        rewrite Ed, Ew; done.
Qed.

Lemma game_loop_fuel fuel fuel' cpu1 cpu2 q stats gen epsilon learn board cur oth g fin :
  game_loop nearest fuel cpu1 cpu2 q stats gen epsilon learn board cur oth g
  = Ok fin →
  (fuel ≤ fuel')%nat →
  game_loop nearest fuel' cpu1 cpu2 q stats gen epsilon learn board cur oth g
  = Ok fin.
Proof.
  revert fuel' cpu1 cpu2 board cur oth g.
  induction fuel as [|fuel IH]; intros fuel' cpu1 cpu2 board cur oth g; [done|].
  intros H Hle. destruct fuel' as [|fuel']; [lia|].
  cbn [game_loop] in *.
  destruct (get_and_save_move _ _ _ _ _ _ _) as [[[move self'] g']| |];
    [|done..].
  cbn [mbind py_bind] in *.
  destruct (negb _); [done|].
  apply IH; [done|lia].
Qed.

(** *** Empty cells as the measure of progress *)

Definition empties (s : Z) : nat :=
  length (filter (λ i, digit s i = 0) (range 9)).

Lemma length_valid_moves b : length (get_valid_moves b) = empties (state b).
Proof. by rewrite get_valid_moves_filter. Qed.

Lemma length_filter_sum {A} (P : A → Prop) `{∀ x, Decision (P x)} (l : list A) :
  length (filter P l)
  = foldr (λ x n, ((if decide (P x) then 1 else 0) + n)%nat) 0%nat l.
Proof.
  induction l as [|x l IH]; [done|].
  rewrite filter_cons. simpl. rewrite <- IH. by destruct (decide (P x)).
Qed.

(** A symmetry moves the empty cells around and keeps their number. *)
Lemma empties_tstate t s : 0 ≤ t < 8 → empties (tstate t s) = empties s.
Proof.
  intros Ht. unfold empties. rewrite !length_filter_sum, range_9.
  cbn [foldr]. rewrite !digit_tstate by lia.
  apply transform_id_cases in Ht.
  each_case Ht; run_transforms; lia.
Qed.

Lemma empties_ckey s a : empties (ckey s a).1 = empties s.
Proof.
  destruct (canonicalize_Ok s a) as (k & Hk & Hin & _).
  unfold ckey. rewrite Hk.
  apply elem_of_keys in Hin as (t & Ht & ->). by apply empties_tstate.
Qed.

(** A legal move by player 1 or 2 fills a cell. *)
Lemma valid_moves_after_move b p m :
  legal b m → p = 1 ∨ p = 2 →
  get_valid_moves (make_move_cpu b p m).2
  = filter (λ i, i ≠ m) (get_valid_moves b).
Proof.
  intros Hl Hp. rewrite !get_valid_moves_filter, list_filter_filter.
  apply filter_ext_elem. intros i Hi%elem_of_range.
  rewrite digit_after_move by (done || lia).
  destruct (Z.eqb_spec m i); lia.
Qed.

Lemma empties_after_move b p m :
  legal b m → p = 1 ∨ p = 2 →
  (length (get_valid_moves (make_move_cpu b p m).2)
   < length (get_valid_moves b))%nat.
Proof.
  intros Hl Hp. rewrite valid_moves_after_move by done.
  apply (length_filter_lt _ _ m); [by apply legal_valid_moves|]. naive_solver.
Qed.

(** A position in progress has a legal move. *)
Lemma in_progress_not_full b : check_winner b = 0 → ¬ full b.
Proof.
  unfold check_winner. rewrite <- full_forallb.
  destruct (scan_lines (lines b)) as [w|] eqn:E.
  - apply scan_lines_value in E. lia.
  - by destruct (forallb _ _).
Qed.

Lemma in_progress_valid_moves b : check_winner b = 0 → get_valid_moves b ≠ [].
Proof.
  intros Hnf%in_progress_not_full Hnil.
  apply Hnf. intros row col Hr Hc Hz.
  apply (elem_of_nil (row * 3 + col)). rewrite <- Hnil.
  apply elem_of_get_valid_moves. rewrite <- get_cell_digit. split; [lia|done].
Qed.

Lemma NoDup_snoc_l {A} (h1 h2 : list A) k :
  k ∉ h1 ++ h2 → NoDup (h1 ++ h2) → NoDup ((h1 ++ [k]) ++ h2).
Proof.
  intros Hk Hnd. rewrite <- app_assoc. simpl.
  rewrite <- Permutation_middle. by constructor.
Qed.

Lemma NoDup_snoc_r {A} (h1 h2 : list A) k :
  k ∉ h1 ++ h2 → NoDup (h1 ++ h2) → NoDup (h1 ++ (h2 ++ [k])).
Proof.
  intros Hk Hnd. rewrite app_assoc.
  rewrite <- Permutation_cons_append. by constructor.
Qed.

(** With markers 1 and 2 the loop ends within as many turns as the board
    has empty cells, and no key is recorded twice: every turn records a
    key whose state has as many empty cells as the board before the move,
    and the move fills one. *)
Lemma game_loop_total fuel cpu1 cpu2 q stats gen epsilon learn board cur oth g :
  no_overflow q →
  marker cpu1 = 1 ∨ marker cpu1 = 2 →
  marker cpu2 = 1 ∨ marker cpu2 = 2 →
  is_Some (stats !! "draws") → is_Some (stats !! "win_loss") →
  get_valid_moves board ≠ [] →
  (length (get_valid_moves board) ≤ fuel)%nat →
  NoDup (moves cpu1 ++ moves cpu2) →
  (∀ k, k ∈ moves cpu1 ++ moves cpu2 →
        (length (get_valid_moves board) < empties k.1)%nat) →
  ∃ fin,
    game_loop nearest fuel cpu1 cpu2 q stats gen epsilon learn board cur oth g
    = Ok fin
    ∧ NoDup (moves (g_cpu1 fin) ++ moves (g_cpu2 fin))
    ∧ (length (moves (g_cpu1 fin)) + length (moves (g_cpu2 fin))
       ≤ length (moves cpu1) + length (moves cpu2)
         + length (get_valid_moves board))%nat.
Proof.
  intros Hq Hm1 Hm2 [d Hd] [w Hw].
  assert (Hsome : ∀ b q0 m, Some q = Some q0 → m ∈ get_valid_moves b →
                    overflows q0 b m = false)
    by (intros b ? m [= <-] _; by apply no_overflow_overflows).
  revert cpu1 cpu2 board cur oth g Hm1 Hm2.
  induction fuel as [|fuel IH];
    intros cpu1 cpu2 board cur oth g Hm1 Hm2 Hne Hfuel Hnd Hold.
  { destruct (get_valid_moves board); [done|simpl in Hfuel; lia]. }
  cbn [game_loop].
  set (self := match cur with Cpu1 => cpu1 | Cpu2 => cpu2 end).
  destruct (get_and_save_move_Ok self board gen (Some q) epsilon g Hne
              (Hsome board))
    as (move & g' & -> & Hmove).
  cbn [mbind py_bind].
  set (k0 := ckey (state board) move).
  set (c1 := match cur with Cpu1 => set_moves _ _ | Cpu2 => cpu1 end).
  set (c2 := match cur with Cpu1 => cpu2 | Cpu2 => set_moves _ _ end).
  assert (Hp : marker self = 1 ∨ marker self = 2) by (unfold self; by destruct cur).
  cbn [marker set_moves].
  apply legal_valid_moves in Hmove as Hlegal.
  pose proof (empties_after_move board (marker self) move Hlegal Hp) as Hless.
  set (board' := (make_move_cpu board (marker self) move).2) in *.
  assert (Hk0 : k0 ∉ moves cpu1 ++ moves cpu2).
  { intros Hin%Hold. unfold k0 in Hin.
    rewrite empties_ckey, <- length_valid_moves in Hin. lia. }
  assert (Hnd' : NoDup (moves c1 ++ moves c2)).
  { unfold c1, c2, self. destruct cur; cbn [moves set_moves].
    - by apply NoDup_snoc_l.
    - by apply NoDup_snoc_r. }
  assert (Hin' : ∀ k, k ∈ moves c1 ++ moves c2 →
                 k = k0 ∨ k ∈ moves cpu1 ++ moves cpu2).
  { intros k. unfold c1, c2, self. destruct cur; cbn [moves set_moves];
      rewrite !elem_of_app, list_elem_of_singleton; tauto. }
  assert (Hlen' : (length (moves c1) + length (moves c2)
                   = S (length (moves cpu1) + length (moves cpu2)))%nat).
  { unfold c1, c2, self. destruct cur; cbn [moves set_moves];
      rewrite length_app; simpl; lia. }
  assert (Hc1 : marker c1 = marker cpu1) by (unfold c1; by destruct cur).
  assert (Hc2 : marker c2 = marker cpu2) by (unfold c2; by destruct cur).
  destruct (Z.eqb_spec (check_winner board') 0) as [E0|E0]; cbn [negb].
  - destruct (IH c1 c2 board' oth cur g') as (fin & Hfin & Hnd2 & Hlen2).
    + by rewrite Hc1.
    + by rewrite Hc2.
    + by apply in_progress_valid_moves.
    + lia.
    + done.
    + intros k [->|Hk]%Hin'.
      * unfold k0. rewrite empties_ckey, <- length_valid_moves. lia.
      * apply Hold in Hk. lia.
    + exists fin. split; [done|]. split; [done|]. lia.
  - assert (Hone : (1 ≤ length (get_valid_moves board))%nat).
    { destruct (get_valid_moves board); [done|simpl; lia]. }
    unfold incr. rewrite Hd, Hw.
    destruct (_ =? -1); [|destruct (_ =? marker c1)];
      cbn [mbind py_bind mret py_ret]; eexists; (split; [done|]);
      cbn [g_cpu1 g_cpu2]; (split; [done|]); lia.
Qed.

(** *** Crediting a history *)

Lemma credit_cons r k h q :
  credit r (k :: h) q
  = credit r h (<[k := ((get q k).1 + r, (get q k).2 + 1)]> q).
Proof. unfold credit. simpl. by destruct (get q k). Qed.

Lemma credit_notin r h q k : k ∉ h → credit r h q !! k = q !! k.
Proof.
  revert q. induction h as [|x h IH]; intros q Hk; [done|].
  apply not_elem_of_cons in Hk as [Hne Hk].
  rewrite credit_cons, IH by done. by rewrite lookup_insert_ne.
Qed.

Lemma credit_in r h q k :
  NoDup h → k ∈ h →
  credit r h q !! k = Some ((get q k).1 + r, (get q k).2 + 1).
Proof.
  revert q. induction h as [|x h IH]; intros q Hnd Hk.
  { by apply elem_of_nil in Hk. }
  apply NoDup_cons in Hnd as [Hx Hnd]. rewrite credit_cons.
  destruct (decide (k = x)) as [->|Hne].
  - rewrite credit_notin by done. by rewrite lookup_insert_eq.
  - apply elem_of_cons in Hk as [?|Hk]; [done|].
    rewrite IH by done. unfold get. by rewrite lookup_insert_ne.
Qed.

(** The invariant of the value table. *)
Definition table_ok (q : table) : Prop :=
  ∀ k total count, q !! k = Some (total, count) →
    0 ≤ count ∧ - count ≤ total ≤ count.

Lemma credit_ok r h q :
  -1 ≤ r ≤ 1 → table_ok q → table_ok (credit r h q).
Proof.
  intros Hr. revert q. induction h as [|x h IH]; intros q Hq; [done|].
  rewrite credit_cons. apply IH. intros k total count.
  destruct (decide (x = k)) as [->|Hne].
  - rewrite lookup_insert_eq. intros [= <- <-]. unfold get.
    destruct (q !! k) as [[s c]|] eqn:E; simpl; [|lia].
    apply Hq in E. lia.
  - rewrite lookup_insert_ne by done. apply Hq.
Qed.

Lemma table_ok_no_overflow q : table_ok q → no_overflow q.
Proof.
  intros Hq k total count E Hc. apply Hq in E.
  pose proof float_limit_gt_1. nia.
Qed.

Lemma reward1_of_range r m : -1 ≤ reward1_of r m ≤ 1.
Proof. unfold reward1_of. repeat case_match; lia. Qed.

Lemma check_winner_values b :
  check_winner b = -1 ∨ check_winner b = 0
  ∨ check_winner b = 1 ∨ check_winner b = 2.
Proof.
  unfold check_winner. destruct (scan_lines (lines b)) as [w|] eqn:E.
  - apply scan_lines_value in E. lia.
  - destruct (forallb _ _); lia.
Qed.

(** *** The theorems about [simulate_game] *)

(** The terminal reward of player [c] for the result [result]. *)
Definition won (result : Z) (c : CPU) : Z :=
  if result =? -1 then 0 else if result =? marker c then 1 else -1.

(** With markers 1 and 2 the loop ends whatever the table and the
    counters: it returns, or an average has no float, or a counter is
    missing; beyond the number of empty cells the fuel does not matter. *)
Lemma game_loop_ends fuel cpu1 cpu2 q stats gen epsilon learn board cur oth g :
  marker cpu1 = 1 ∨ marker cpu1 = 2 →
  marker cpu2 = 1 ∨ marker cpu2 = 2 →
  get_valid_moves board ≠ [] →
  (length (get_valid_moves board) ≤ fuel)%nat →
  let r :=
    game_loop nearest fuel cpu1 cpu2 q stats gen epsilon learn board cur oth g in
  (∃ fin, r = Ok fin) ∨ r = Raise OverflowError ∨ r = Raise KeyError.
Proof.
  revert cpu1 cpu2 board cur oth g.
  induction fuel as [|fuel IH];
    intros cpu1 cpu2 board cur oth g Hm1 Hm2 Hne Hfuel.
  { destruct (get_valid_moves board); [done|simpl in Hfuel; lia]. }
  cbv zeta. cbn [game_loop].
  set (self := match cur with Cpu1 => cpu1 | Cpu2 => cpu2 end).
  destruct (get_and_save_move_cases self board gen (Some q) epsilon g Hne)
    as [(move & g' & -> & Hmove)|[-> _]]; [|by right; left].
  cbn [mbind py_bind marker set_moves].
  assert (Hp : marker self = 1 ∨ marker self = 2) by (unfold self; by destruct cur).
  apply legal_valid_moves in Hmove as Hlegal.
  pose proof (empties_after_move board (marker self) move Hlegal Hp) as Hless.
  set (board' := (make_move_cpu board (marker self) move).2) in *.
  destruct (Z.eqb_spec (check_winner board') 0) as [E0|E0]; cbn [negb].
  - apply IH.
    + by destruct cur.
    + by destruct cur.
    + by apply in_progress_valid_moves.
    + lia.
  - unfold incr.
    destruct (_ =? -1); [|destruct (_ =? _)];
      (destruct (stats !! _); cbn [mbind py_bind mret py_ret];
       [left; by eexists|by right; right]).
Qed.

Lemma game_loop_more_fuel fuel fuel' cpu1 cpu2 q stats gen epsilon learn board
    cur oth g :
  game_loop nearest fuel cpu1 cpu2 q stats gen epsilon learn board cur oth g
  ≠ OutOfFuel →
  (fuel ≤ fuel')%nat →
  game_loop nearest fuel' cpu1 cpu2 q stats gen epsilon learn board cur oth g
  = game_loop nearest fuel cpu1 cpu2 q stats gen epsilon learn board cur oth g.
Proof.
  revert fuel' cpu1 cpu2 board cur oth g.
  induction fuel as [|fuel IH]; intros fuel' cpu1 cpu2 board cur oth g; [done|].
  intros H Hle. destruct fuel' as [|fuel']; [lia|].
  cbn [game_loop] in *.
  destruct (get_and_save_move _ _ _ _ _ _ _) as [[[move self'] g']| |];
    [|done..].
  cbn [mbind py_bind] in *.
  destruct (negb _); [done|].
  apply IH; [done|lia].
Qed.

(** A player whose marker is 0 marks nothing: the board stays as it is
    and the loop goes on for ever. *)
Lemma game_loop_marker_0 fuel cpu1 cpu2 q stats gen epsilon learn board cur oth g :
  no_overflow q → marker cpu1 = 0 → marker cpu2 = 0 →
  check_winner board = 0 →
  game_loop nearest fuel cpu1 cpu2 q stats gen epsilon learn board cur oth g
  = OutOfFuel.
Proof.
  intros Hq.
  assert (Hsome : ∀ b q0 m, Some q = Some q0 → m ∈ get_valid_moves b →
                    overflows q0 b m = false)
    by (intros b ? m [= <-] _; by apply no_overflow_overflows).
  revert cpu1 cpu2 cur oth g.
  induction fuel as [|fuel IH]; intros cpu1 cpu2 cur oth g Hm1 Hm2 H0; [done|].
  cbn [game_loop].
  set (self := match cur with Cpu1 => cpu1 | Cpu2 => cpu2 end).
  destruct (get_and_save_move_Ok self board gen (Some q) epsilon g
              (in_progress_valid_moves board H0) (Hsome board))
    as (move & g' & -> & Hmove).
  cbn [mbind py_bind marker set_moves].
  assert (Hp : marker self = 0) by (unfold self; by destruct cur).
  apply legal_valid_moves in Hmove as Hlegal.
  rewrite Hp, (make_move_cpu_legal board 0 move Hlegal).
  cbn [snd]. rewrite Z.mul_0_l, Z.add_0_r.
  replace {| state := state board |} with board by (by destruct board).
  rewrite H0. cbn [Z.eqb negb].
  apply IH; [by destruct cur|by destruct cur|done].
Qed.

Lemma simulate_game_total fuel cpu1 cpu2 q stats gen epsilon learn g :
  no_overflow q →
  marker cpu1 = 1 ∨ marker cpu1 = 2 →
  marker cpu2 = 1 ∨ marker cpu2 = 2 →
  is_Some (stats !! "draws") → is_Some (stats !! "win_loss") →
  (9 ≤ fuel)%nat →
  ∃ fin,
    simulate_game nearest fuel cpu1 cpu2 q stats gen epsilon learn g = Ok fin
    ∧ simulate_game nearest 9 cpu1 cpu2 q stats gen epsilon learn g = Ok fin
    ∧ NoDup (moves (g_cpu1 fin) ++ moves (g_cpu2 fin))
    ∧ (length (moves (g_cpu1 fin)) + length (moves (g_cpu2 fin)) ≤ 9)%nat.
Proof.
  intros Hq Hm1 Hm2 Hd Hw Hfuel. unfold simulate_game.
  destruct (game_loop_total 9 (set_moves cpu1 []) (set_moves cpu2 []) q stats
              gen epsilon learn new_board Cpu1 Cpu2 g)
    as (fin & Hfin & Hnd & Hlen); try done.
  - constructor.
  - intros k Hk. by apply elem_of_nil in Hk.
  - exists fin. split; [by apply (game_loop_fuel 9)|]. done.
Qed.

(** C10: with the two markers 1 and 2, [simulate_game] always ends,
    whatever the table, the counters and the random draws: within nine
    turns of the loop it returns, or it raises [OverflowError] (an
    average of the table has no float) or [KeyError] (a counter is
    missing from [stats]), and more turns than nine change nothing.  With
    a table whose averages are floats and the two counters in [stats] it
    returns: the board it stops on is terminal and at most nine moves
    were recorded. *)
Theorem simulate_game_terminates (fuel : nat) (cpu1 cpu2 : CPU) (q : table)
    (stats : gmap string Z) (gen : Z) (epsilon : Q) (learn : bool) (g : Random) :
  marker cpu1 = 1 ∨ marker cpu1 = 2 →
  marker cpu2 = 1 ∨ marker cpu2 = 2 →
  (9 ≤ fuel)%nat →
  let r := simulate_game nearest fuel cpu1 cpu2 q stats gen epsilon learn g in
  ((∃ fin, r = Ok fin) ∨ r = Raise OverflowError ∨ r = Raise KeyError)
  ∧ r = simulate_game nearest 9 cpu1 cpu2 q stats gen epsilon learn g
  ∧ (no_overflow q →
     is_Some (stats !! "draws") → is_Some (stats !! "win_loss") →
     ∃ fin,
       r = Ok fin
       ∧ check_winner (g_board fin) ≠ 0
       ∧ (length (moves (g_cpu1 fin)) + length (moves (g_cpu2 fin)) ≤ 9)%nat).
Proof.
  intros Hm1 Hm2 Hfuel r.
  pose proof (game_loop_ends 9 (set_moves cpu1 []) (set_moves cpu2 []) q stats
                gen epsilon learn new_board Cpu1 Cpu2 g Hm1 Hm2) as H9.
  cbv zeta in H9.
  assert (Hr : r = simulate_game nearest 9 cpu1 cpu2 q stats gen epsilon learn g).
  { unfold r, simulate_game. apply game_loop_more_fuel; [|done].
    destruct H9 as [[fin H]|[H|H]]; try done;
      first [by rewrite H | change (length (get_valid_moves new_board)) with 9%nat; lia]. }
  split; [|split; [done|]].
  - rewrite Hr. apply H9; [done|].
    change (length (get_valid_moves new_board)) with 9%nat. lia.
  - intros Hq Hd Hw.
    destruct (simulate_game_total fuel cpu1 cpu2 q stats gen epsilon learn g)
      as (fin & Hfin & _ & _ & Hlen); try done.
    exists fin. split; [done|]. split; [|done].
    by apply game_loop_table in Hfin as (? & _).
Qed.

(** C7: the empty table satisfies the invariant (count >= 0 and
    -count <= sum <= count for every key) and every call of
    [simulate_game] preserves it: whatever the arguments, the table a call
    returns with satisfies it, and with markers 1 and 2 the call does
    return. *)
Theorem simulate_game_table_ok :
  table_ok ∅
  ∧ (∀ fuel cpu1 cpu2 q stats gen epsilon learn g fin,
       table_ok q →
       simulate_game nearest fuel cpu1 cpu2 q stats gen epsilon learn g
       = Ok fin →
       table_ok (g_q_values fin))
  ∧ (∀ fuel cpu1 cpu2 q stats gen epsilon learn g,
       table_ok q →
       marker cpu1 = 1 ∨ marker cpu1 = 2 →
       marker cpu2 = 1 ∨ marker cpu2 = 2 →
       is_Some (stats !! "draws") → is_Some (stats !! "win_loss") →
       (9 ≤ fuel)%nat →
       ∃ fin,
         simulate_game nearest fuel cpu1 cpu2 q stats gen epsilon learn g
         = Ok fin
         ∧ table_ok (g_q_values fin)).
Proof.
  assert (Hpres : ∀ fuel cpu1 cpu2 q stats gen epsilon learn g fin,
            table_ok q →
            simulate_game nearest fuel cpu1 cpu2 q stats gen epsilon learn g
            = Ok fin →
            table_ok (g_q_values fin)).
  { intros fuel cpu1 cpu2 q stats gen epsilon learn g fin Hq Hfin.
    apply game_loop_table in Hfin as (_ & _ & _ & ->).
    destruct learn; [|done].
    pose proof (reward1_of_range (check_winner (g_board fin))
                  (marker (set_moves cpu1 []))).
    apply credit_ok; [lia|]. by apply credit_ok. }
  split; [intros k total count; by rewrite lookup_empty|].
  split; [exact Hpres|].
  intros fuel cpu1 cpu2 q stats gen epsilon learn g Hq Hm1 Hm2 Hd Hw Hfuel.
  destruct (simulate_game_total fuel cpu1 cpu2 q stats gen epsilon learn g)
    as (fin & Hfin & _); try done.
  { by apply table_ok_no_overflow. }
  exists fin. split; [done|]. by apply Hpres in Hfin.
Qed.

(** C8: a game with [learn = False] leaves the table as it was: move
    selection only reads it and the terminal phase skips the update.
    Whatever the arguments, the table a call returns with is the table it
    was given; and with markers 1 and 2, the two counters and a table
    whose averages are floats the call does return. *)
Theorem simulate_game_no_learning (fuel : nat) (cpu1 cpu2 : CPU) (q : table)
    (stats : gmap string Z) (gen : Z) (epsilon : Q) (g : Random) :
  (∀ fin,
     simulate_game nearest fuel cpu1 cpu2 q stats gen epsilon false g = Ok fin →
     g_q_values fin = q)
  ∧ (no_overflow q →
     marker cpu1 = 1 ∨ marker cpu1 = 2 →
     marker cpu2 = 1 ∨ marker cpu2 = 2 →
     is_Some (stats !! "draws") → is_Some (stats !! "win_loss") →
     (9 ≤ fuel)%nat →
     ∃ fin,
       simulate_game nearest fuel cpu1 cpu2 q stats gen epsilon false g
       = Ok fin
       ∧ g_q_values fin = q).
Proof.
  assert (Hsame : ∀ fin,
            simulate_game nearest fuel cpu1 cpu2 q stats gen epsilon false g
            = Ok fin → g_q_values fin = q).
  { intros fin Hfin. by apply game_loop_table in Hfin as (_ & _ & _ & ->). }
  split; [exact Hsame|].
  intros Hq Hm1 Hm2 Hd Hw Hfuel.
  destruct (simulate_game_total fuel cpu1 cpu2 q stats gen epsilon false g)
    as (fin & Hfin & _); try done.
  exists fin. split; [done|]. by apply Hsame.
Qed.

End EngineProperties.

(** ** The theorems at work on concrete games *)

Definition demo_random : Random :=
  {| draws := λ n, Z.of_nat (n * 7 + 3); used := 0 |}.

(** The counters as [train_cpus] creates them. *)
Definition demo_stats : gmap string Z := <["win_loss" := 0]> {["draws" := 0]}.

Definition demo_cpu1 : CPU := new_cpu "CPU 1" 1.
Definition demo_cpu2 : CPU := new_cpu "CPU 2" 2.

(** X on cell 1 and O on cell 5: a position no symmetry fixes, so its
    seven legal moves have seven different keys. *)
Definition demo_board : Board := {| state := 1 * 3 ^ 1 + 2 * 3 ^ 5 |}.

(** Moves 0 and 4 (keys (33, 6) and (33, 4)) both average 1/2 over two
    games; move 2 (key (33, 0)) averages 1/4 over four. *)
Definition demo_table : table :=
  <[(33, 6) := (1, 2)]> (<[(33, 4) := (1, 2)]> {[(33, 0) := (1, 4)]}).

Lemma demo_table_ok : table_ok demo_table.
Proof.
  intros k total count. unfold demo_table.
  rewrite !lookup_insert, lookup_singleton.
  repeat case_decide; intros [= <- <-]; lia.
Qed.

Lemma demo_table_no_overflow : no_overflow demo_table.
Proof. apply table_ok_no_overflow, demo_table_ok. Qed.

Lemma get_and_save_move_greedy_witness :
  get_valid_moves demo_board = [0; 2; 3; 4; 6; 7; 8]
  ∧ (average exact_div demo_table demo_board 0 == 1 # 2)%Q
  ∧ (average exact_div demo_table demo_board 4 == 1 # 2)%Q
  ∧ ∃ self g,
      get_and_save_move exact_div demo_cpu1 demo_board 3 (Some demo_table) 0
        demo_random
      = Ok (0, self, g).
Proof.
  split; [reflexivity|]. split; [reflexivity|]. split; [reflexivity|].
  destruct (get_and_save_move_greedy exact_div demo_cpu1 demo_board demo_table
              0 demo_random)
    as (move & Hmove & _ & _ & _ & _ & H04).
  - discriminate.
  - reflexivity.
  - intros m _. apply no_overflow_overflows, demo_table_no_overflow.
  - assert (H0 : move = 0).
    { apply H04.
      - change (get_valid_moves demo_board) with [0; 2; 3; 4; 6; 7; 8]. left.
      - change (get_valid_moves demo_board) with [0; 2; 3; 4; 6; 7; 8].
        do 3 right. left.
      - reflexivity.
      - reflexivity.
      - change (get_valid_moves demo_board) with [0; 2; 3; 4; 6; 7; 8].
        intros m Hm Hn0 Hn4.
        rewrite !elem_of_cons, elem_of_nil in Hm.
        destruct Hm as [->|[->|[->|[->|[->|[->|[->|[]]]]]]]];
          first [congruence | vm_compute; reflexivity]. }
    rewrite H0 in Hmove. eexists _, _. exact Hmove.
Defined.

Lemma simulate_game_terminates_witness :
  let r := simulate_game exact_div 12 demo_cpu1 demo_cpu2 demo_table demo_stats
             2 (1 # 10) true demo_random in
  r = simulate_game exact_div 9 demo_cpu1 demo_cpu2 demo_table demo_stats 2
        (1 # 10) true demo_random
  ∧ ∃ fin,
      r = Ok fin
      ∧ check_winner (g_board fin) ≠ 0
      ∧ (length (moves (g_cpu1 fin)) + length (moves (g_cpu2 fin)) ≤ 9)%nat.
Proof.
  destruct (simulate_game_terminates exact_div 12 demo_cpu1 demo_cpu2 demo_table
              demo_stats 2 (1 # 10) true demo_random)
    as (_ & Hfuel & Hret).
  - left. reflexivity.
  - right. reflexivity.
  - lia.
  - split; [exact Hfuel|]. apply Hret.
    + exact demo_table_no_overflow.
    + exists 0. reflexivity.
    + exists 0. reflexivity.
Defined.

(** Two players whose marker is 0, the value of an empty cell. *)
Definition idle_cpu1 : CPU := new_cpu "CPU 1" 0.
Definition idle_cpu2 : CPU := new_cpu "CPU 2" 0.

(** Without the condition on the markers the loop need not end: between
    two players of marker 0 every move leaves the board empty, and no
    number of turns is enough. *)
Lemma simulate_game_never_ends :
  marker idle_cpu1 = 0 ∧ marker idle_cpu2 = 0
  ∧ ∀ fuel,
      simulate_game exact_div fuel idle_cpu1 idle_cpu2 ∅ demo_stats 1 (1 # 10)
        true demo_random
      = OutOfFuel.
Proof.
  split; [reflexivity|]. split; [reflexivity|].
  intros fuel. unfold simulate_game.
  apply game_loop_marker_0; [apply no_overflow_empty|reflexivity..].
Qed.

(** A game of the first generation on the empty table: player 1 wins
    with three moves, its keys gain 1, the two keys of player 2 lose 1. *)
Example simulate_game_demo :
  ∃ fin,
    simulate_game exact_div 9 demo_cpu1 demo_cpu2 ∅ demo_stats 1 (1 # 10) true
      demo_random = Ok fin
    ∧ check_winner (g_board fin) = 1
    ∧ moves (g_cpu1 fin) = [(0, 1); (45, 5); (290, 4)]
    ∧ moves (g_cpu2 fin) = [(3, 6); (272, 2)]
    ∧ map_to_list (g_q_values fin)
      ≡ₚ [((0, 1), (1, 1)); ((45, 5), (1, 1)); ((290, 4), (1, 1));
          ((3, 6), (-1, 1)); ((272, 2), (-1, 1))]
    ∧ g_stats fin !! "win_loss" = Some 1.
Proof.
  eexists. split; [vm_compute; reflexivity|].
  split; [reflexivity|]. split; [reflexivity|]. split; [reflexivity|].
  split; [|reflexivity].
  vm_compute. solve_Permutation.
Qed.

Lemma simulate_game_table_ok_witness :
  table_ok demo_table
  ∧ ∃ fin,
      simulate_game exact_div 9 demo_cpu1 demo_cpu2 demo_table demo_stats 2
        (1 # 10) true demo_random = Ok fin
      ∧ table_ok (g_q_values fin).
Proof.
  assert (Hq : table_ok demo_table).
  { intros k total count. unfold demo_table.
    rewrite !lookup_insert, lookup_singleton.
    repeat case_decide; intros [= <- <-]; lia. }
  split; [exact Hq|].
  assert (H : ∃ fin, simulate_game exact_div 9 demo_cpu1 demo_cpu2 demo_table
                       demo_stats 2 (1 # 10) true demo_random = Ok fin)
    by (vm_compute; eexists; reflexivity).
  destruct H as [fin H]. exists fin. split; [exact H|].
  exact (proj1 (proj2 (simulate_game_table_ok exact_div)) 9%nat demo_cpu1
           demo_cpu2 demo_table demo_stats 2 (1 # 10)%Q true demo_random fin
           Hq H).
Defined.

Lemma simulate_game_no_learning_witness :
  ∃ fin,
    simulate_game exact_div 9 demo_cpu1 demo_cpu2 demo_table demo_stats 3 0
      false demo_random = Ok fin
    ∧ g_q_values fin = demo_table.
Proof.
  apply (proj2 (simulate_game_no_learning exact_div 9 demo_cpu1 demo_cpu2
                  demo_table demo_stats 3 0 demo_random)).
  - exact demo_table_no_overflow.
  - left. reflexivity.
  - right. reflexivity.
  - exists 0. reflexivity.
  - exists 0. reflexivity.
  - lia.
Defined.

(** * Further properties of the engine *)

(** ** Reading and writing cells *)

Lemma digit_clear s i j :
  0 ≤ i → 0 ≤ j →
  digit (s - digit s i * 3 ^ i) j = if i =? j then 0 else digit s j.
Proof.
  intros Hi Hj.
  assert (H0 : digit (s - digit s i * 3 ^ i) i = 0).
  { replace (s - digit s i * 3 ^ i) with (s + - digit s i * 3 ^ i) by ring.
    unfold digit. rewrite Z.div_add by (pose proof (pow3_pos i); lia).
    set (q := s / 3 ^ i).
    replace (q + - (q mod 3)) with (q / 3 * 3)
      by (pose proof (Z.div_mod q 3); lia).
    apply Z_mod_mult. }
  destruct (Z.eqb_spec i j) as [<-|Hne]; [done|].
  pose proof (digit_add_pow (s - digit s i * 3 ^ i) (digit s i) i j Hi Hj H0
                (digit_range s i)) as H.
  replace (s - digit s i * 3 ^ i + digit s i * 3 ^ i) with s in H by ring.
  rewrite H. by destruct (Z.eqb_spec i j).
Qed.

Lemma digit_set_cell b row col value j :
  0 ≤ row * 3 + col → 0 ≤ j → 0 ≤ value < 3 →
  digit (state (_set_cell b row col value)) j
  = if row * 3 + col =? j then value else digit (state b) j.
Proof.
  intros Hi Hj Hv. unfold _set_cell. rewrite get_cell_digit. cbn [state].
  rewrite digit_add_pow by (try done; rewrite digit_clear by done;
                            by rewrite Z.eqb_refl).
  destruct (Z.eqb_spec (row * 3 + col) j); [done|].
  rewrite digit_clear by done.
  by destruct (Z.eqb_spec (row * 3 + col) j).
Qed.

(** X1: [_set_cell] followed by [_get_cell] reads back the value written
    (0, 1 or 2), whatever the cell held before, and every other cell of
    the grid reads as it did. *)
Theorem set_cell_get_cell (b : Board) (row col value row' col' : Z) :
  0 ≤ row < 3 → 0 ≤ col < 3 → 0 ≤ value < 3 →
  0 ≤ row' < 3 → 0 ≤ col' < 3 →
  _get_cell (_set_cell b row col value) row' col'
  = if (row' =? row) && (col' =? col) then value else _get_cell b row' col'.
Proof.
  intros Hr Hc Hv Hr' Hc'. rewrite !get_cell_digit.
  rewrite digit_set_cell by lia.
  destruct (Z.eqb_spec (row * 3 + col) (row' * 3 + col')) as [E|E];
    destruct (Z.eqb_spec row' row); destruct (Z.eqb_spec col' col);
    simpl; try done; lia.
Qed.

Lemma set_cell_get_cell_witness :
  _get_cell (_set_cell {| state := 13 |} 0 1 2) 0 1 = 2
  ∧ _get_cell (_set_cell {| state := 13 |} 0 1 2) 0 2
    = _get_cell {| state := 13 |} 0 2.
Proof.
  split.
  - apply (set_cell_get_cell {| state := 13 |} 0 1 2 0 1); lia.
  - apply (set_cell_get_cell {| state := 13 |} 0 1 2 0 2); lia.
Defined.

(** ** Legal moves shrink *)

Lemma length_filter_ne (l : list Z) m :
  NoDup l → m ∈ l → S (length (filter (λ i, i ≠ m) l)) = length l.
Proof.
  induction 1 as [|x l Hx Hnd IH]; intros Hm.
  { by apply elem_of_nil in Hm. }
  rewrite filter_cons. destruct (decide (x ≠ m)) as [Hne|He].
  - apply elem_of_cons in Hm as [->|Hm]; [done|]. simpl. by rewrite IH.
  - assert (x = m) as -> by (destruct (decide (x = m)); [done|by destruct He]).
    simpl. f_equal. f_equal.
    clear IH Hm Hnd. induction l as [|y l IH]; [done|].
    apply not_elem_of_cons in Hx as [Hne Hx].
    rewrite filter_cons_True by congruence. f_equal. by apply IH.
Qed.

Lemma NoDup_valid_moves b : NoDup (get_valid_moves b).
Proof.
  rewrite get_valid_moves_filter. apply NoDup_filter. unfold range.
  apply NoDup_seqZ.
Qed.

Lemma length_after_move b p m :
  legal b m → p = 1 ∨ p = 2 →
  S (length (get_valid_moves (make_move_cpu b p m).2))
  = length (get_valid_moves b).
Proof.
  intros Hl Hp. rewrite valid_moves_after_move by done.
  apply length_filter_ne; [apply NoDup_valid_moves|by apply legal_valid_moves].
Qed.

(** X2: after a successful [make_move_cpu] by player 1 or 2 the legal
    moves are the former ones without the move just played: the list is
    shorter by exactly one, the played index is gone, and playing it
    again is refused and changes nothing. *)
Theorem legal_moves_shrink (b : Board) (player_num move : Z) :
  player_num = 1 ∨ player_num = 2 →
  (make_move_cpu b player_num move).1 = true →
  let b' := (make_move_cpu b player_num move).2 in
  get_valid_moves b' = filter (λ i, i ≠ move) (get_valid_moves b)
  ∧ S (length (get_valid_moves b')) = length (get_valid_moves b)
  ∧ (move ∉ get_valid_moves b')
  ∧ ∀ p, make_move_cpu b' p move = (false, b').
Proof.
  intros Hp Hok.
  assert (Hl : legal b move).
  { destruct (decide (legal b move)) as [|Hn]; [done|].
    by rewrite make_move_cpu_illegal in Hok. }
  cbv zeta. split; [by apply valid_moves_after_move|].
  split; [by apply length_after_move|].
  assert (Hnot : move ∉ get_valid_moves (make_move_cpu b player_num move).2).
  { rewrite valid_moves_after_move by done.
    intros [Hne _]%list_elem_of_filter. done. }
  split; [done|].
  intros p. apply make_move_cpu_illegal. by rewrite legal_valid_moves.
Qed.

Lemma legal_moves_shrink_witness :
  let b' := (make_move_cpu {| state := 13 |} 2 4).2 in
  get_valid_moves b' = filter (λ i, i ≠ 4) (get_valid_moves {| state := 13 |})
  ∧ S (length (get_valid_moves b')) = length (get_valid_moves {| state := 13 |})
  ∧ (4 ∉ get_valid_moves b')
  ∧ ∀ p, make_move_cpu b' p 4 = (false, b').
Proof.
  apply (legal_moves_shrink {| state := 13 |} 2 4); [by right|reflexivity].
Defined.

(** ** The packed state is a faithful encoding *)

Lemma digits_div s i : 0 ≤ i → s / 3 ^ i = 3 * (s / 3 ^ (i + 1)) + digit s i.
Proof.
  intros Hi. unfold digit.
  rewrite Z.pow_add_r, Z.pow_1_r by lia.
  rewrite <- Z.div_div by (pose proof (pow3_pos i); lia).
  apply Z.div_mod. lia.
Qed.

(** Any state is its nine low digits plus a multiple of 3^9. *)
Lemma state_digits s :
  s = of_digits (digit s <$> range 9) + 3 ^ 9 * (s / 3 ^ 9).
Proof.
  rewrite range_9. cbn [fmap list_fmap of_digits].
  pose proof (digits_div s 0) as H0. pose proof (digits_div s 1) as H1.
  pose proof (digits_div s 2) as H2. pose proof (digits_div s 3) as H3.
  pose proof (digits_div s 4) as H4. pose proof (digits_div s 5) as H5.
  pose proof (digits_div s 6) as H6. pose proof (digits_div s 7) as H7.
  pose proof (digits_div s 8) as H8.
  rewrite Z.pow_0_r, Z.div_1_r in H0.
  change (0 + 1) with 1 in H0. change (1 + 1) with 2 in H1.
  change (2 + 1) with 3 in H2. change (3 + 1) with 4 in H3.
  change (4 + 1) with 5 in H4. change (5 + 1) with 6 in H5.
  change (6 + 1) with 7 in H6. change (7 + 1) with 8 in H7.
  change (8 + 1) with 9 in H8.
  specialize (H0 ltac:(lia)). specialize (H1 ltac:(lia)).
  specialize (H2 ltac:(lia)). specialize (H3 ltac:(lia)).
  specialize (H4 ltac:(lia)). specialize (H5 ltac:(lia)).
  specialize (H6 ltac:(lia)). specialize (H7 ltac:(lia)).
  specialize (H8 ltac:(lia)).
  generalize dependent (s / 3 ^ 1). generalize dependent (s / 3 ^ 2).
  generalize dependent (s / 3 ^ 3). generalize dependent (s / 3 ^ 4).
  generalize dependent (s / 3 ^ 5). generalize dependent (s / 3 ^ 6).
  generalize dependent (s / 3 ^ 7). generalize dependent (s / 3 ^ 8).
  generalize dependent (s / 3 ^ 9). intros. lia.
Qed.

Lemma of_digits_range l :
  Forall (λ d, 0 ≤ d < 3) l → 0 ≤ of_digits l < 3 ^ Z.of_nat (length l).
Proof.
  induction 1 as [|d l Hd Hl IH]; [simpl; lia|].
  cbn [of_digits length]. rewrite Nat2Z.inj_succ, Z.pow_succ_r by lia. lia.
Qed.

Lemma digits_range s : 0 ≤ of_digits (digit s <$> range 9) < 3 ^ 9.
Proof.
  pose proof (of_digits_range (digit s <$> range 9)) as H.
  rewrite length_fmap in H. apply H.
  apply Forall_fmap, Forall_forall. intros x _. apply digit_range.
Qed.

Lemma state_of_digits s :
  0 ≤ s < 3 ^ 9 → s = of_digits (digit s <$> range 9).
Proof.
  intros Hs. pose proof (state_digits s) as H.
  rewrite (Z.div_small s) in H by done. lia.
Qed.

(** X3: a board state in [0, 3^9) is determined by its nine cells: two
    such boards whose cells agree are the same board. *)
Theorem board_determined_by_cells (b1 b2 : Board) :
  0 ≤ state b1 < 3 ^ 9 → 0 ≤ state b2 < 3 ^ 9 →
  (∀ row col, 0 ≤ row < 3 → 0 ≤ col < 3 →
     _get_cell b1 row col = _get_cell b2 row col) →
  b1 = b2.
Proof.
  intros H1 H2 Hcells. destruct b1 as [s1], b2 as [s2]. cbn [state] in *.
  f_equal. rewrite (state_of_digits s1), (state_of_digits s2) by done.
  f_equal. apply list_fmap_ext.
  intros _ i Hi%list_elem_of_lookup_2%elem_of_range.
  pose proof (Hcells (i / 3) (i mod 3)) as H.
  rewrite !get_cell_digit, flat_index in H. cbn [state] in H. apply H.
  - split; [apply Z.div_pos|apply Z.div_lt_upper_bound]; lia.
  - apply Z.mod_pos_bound. lia.
Qed.

Lemma board_determined_by_cells_witness :
  {| state := 1 + 3 + 9 |} = {| state := 13 |}.
Proof.
  apply (board_determined_by_cells {| state := 1 + 3 + 9 |} {| state := 13 |}).
  - cbn. lia.
  - cbn. lia.
  - intros row col _ _. reflexivity.
Defined.

(** Boards reached from the empty board by calls of [make_move_cpu] with
    markers 1 and 2 (accepted or refused). *)
Inductive reachable : Board → Prop :=
| reachable_new : reachable new_board
| reachable_move b p m :
    reachable b → p = 1 ∨ p = 2 → reachable (make_move_cpu b p m).2.

Lemma move_in_range b p m :
  0 ≤ state b < 3 ^ 9 → p = 1 ∨ p = 2 →
  0 ≤ state (make_move_cpu b p m).2 < 3 ^ 9.
Proof.
  intros Hs Hp. destruct (decide (legal b m)) as [Hl|Hn];
    [|by rewrite make_move_cpu_illegal].
  pose proof (digits_range (state (make_move_cpu b p m).2)) as Hr.
  pose proof (state_digits (state (make_move_cpu b p m).2)) as Hd.
  assert (H0 : state (make_move_cpu b p m).2 / 3 ^ 9 = 0); [|lia].
  rewrite make_move_cpu_legal by done. cbn [snd state].
  apply legal_digit in Hl as [Hm Hz].
  pose proof (state_of_digits (state b) Hs) as Hb.
  apply Z.div_small. split.
  - pose proof (pow3_pos m). nia.
  - revert Hb. rewrite range_9. cbn [fmap list_fmap of_digits].
    pose proof (digit_range (state b) 0). pose proof (digit_range (state b) 1).
    pose proof (digit_range (state b) 2). pose proof (digit_range (state b) 3).
    pose proof (digit_range (state b) 4). pose proof (digit_range (state b) 5).
    pose proof (digit_range (state b) 6). pose proof (digit_range (state b) 7).
    pose proof (digit_range (state b) 8).
    apply index_cases in Hm.
    each_case Hm; rewrite Hz; run_transforms; lia.
Qed.

(** X4: every board reached from the empty board by moves of players 1
    and 2 has its state in [0, 3^9): the nine base-3 digits are the whole
    state. *)
Theorem reachable_state_range (b : Board) :
  reachable b → 0 ≤ state b < 3 ^ 9.
Proof.
  induction 1 as [|b p m Hb IH Hp]; [cbn; lia|]. by apply move_in_range.
Qed.

Lemma reachable_state_range_witness :
  0 ≤ state (make_move_cpu (make_move_cpu new_board 1 4).2 2 8).2 < 3 ^ 9.
Proof.
  apply reachable_state_range.
  apply reachable_move; [|by right].
  apply reachable_move; [|by left].
  apply reachable_new.
Defined.

(** ** The eight transforms *)

Lemma tindex_inverse_l t a :
  0 ≤ t < 8 → 0 ≤ a < 9 → tindex (inverse t) (tindex t a) = a.
Proof.
  intros Ht Ha.
  assert (H : forallb (λ t, forallb (λ a, tindex (inverse t) (tindex t a) =? a)
                 (range 9)) (range 8) = true) by (vm_compute; reflexivity).
  pose proof (forallb_range _ _ (forallb_range _ _ H t Ht) a Ha) as Hb.
  simpl in Hb. by apply Z.eqb_eq in Hb.
Qed.

Lemma compose_inverse_l t : 0 ≤ t < 8 → compose (inverse t) t = 0.
Proof.
  intros Ht.
  assert (H : forallb (λ t, compose (inverse t) t =? 0) (range 8) = true)
    by (vm_compute; reflexivity).
  pose proof (forallb_range _ _ H t Ht) as Hb.
  simpl in Hb. by apply Z.eqb_eq in Hb.
Qed.

Lemma transform_index_identity a : _transform_index a 0 = Ok a.
Proof.
  change (_transform_index a 0) with (Ok (a / 3 * 3 + a mod 3)).
  f_equal. apply flat_index.
Qed.

Lemma getitem_out_of_range {A} (l : list A) i :
  i < - Z.of_nat (length l) ∨ Z.of_nat (length l) ≤ i →
  getitem l i = Raise IndexError.
Proof.
  intros Hi. unfold getitem.
  destruct (Z.ltb_spec i 0).
  - rewrite (proj2 (Z.leb_gt 0 _)) by lia. done.
  - rewrite (proj2 (Z.ltb_ge i _)) by lia. by rewrite andb_false_r.
Qed.

(** X5: the transform id indexes a tuple of eight lambdas the Python way:
    an id of 8 or more, or below -8, raises [IndexError]; an id from -8 to
    -1 selects the transform [id + 8]; id 0 maps every index to itself. *)
Theorem transform_index_ids :
  (∀ a t, t < -8 ∨ 8 ≤ t → _transform_index a t = Raise IndexError)
  ∧ (∀ a t, -8 ≤ t < 0 → _transform_index a t = _transform_index a (t + 8))
  ∧ (∀ a, _transform_index a 0 = Ok a).
Proof.
  split; [|split; [|apply transform_index_identity]].
  - intros a t Ht. unfold _transform_index, divmod.
    by rewrite getitem_out_of_range by (cbn; lia).
  - intros a t Ht. unfold _transform_index, divmod.
    assert (Hc : t = -8 ∨ t = -7 ∨ t = -6 ∨ t = -5 ∨ t = -4 ∨ t = -3
                 ∨ t = -2 ∨ t = -1) by lia.
    each_case Hc; reflexivity.
Qed.

(** X6: each of the eight transforms permutes the indices 0..8: it keeps
    them in 0..8 and one of the eight transforms undoes it. *)
Theorem transform_index_permutation (t : Z) :
  0 ≤ t < 8 →
  ∃ u, 0 ≤ u < 8
    ∧ ∀ a, 0 ≤ a < 9 →
        ∃ a', _transform_index a t = Ok a' ∧ 0 ≤ a' < 9
          ∧ _transform_index a' u = Ok a.
Proof.
  intros Ht. exists (inverse t). split; [by apply inverse_range|].
  intros a Ha. exists (tindex t a).
  rewrite !transform_index_Ok by auto using inverse_range.
  split; [done|]. split; [by apply tindex_range|].
  by rewrite tindex_inverse_l.
Qed.

Lemma transform_index_permutation_witness :
  ∃ u, 0 ≤ u < 8
    ∧ ∀ a, 0 ≤ a < 9 →
        ∃ a', _transform_index a 1 = Ok a' ∧ 0 ≤ a' < 9
          ∧ _transform_index a' u = Ok a.
Proof. apply (transform_index_permutation 1). lia. Defined.

(** X7: the eight transforms are closed under composition: applying [t]
    and then [u], to an index or to a state, is applying one transform
    [v]. *)
Theorem transforms_compose (t u : Z) :
  0 ≤ t < 8 → 0 ≤ u < 8 →
  ∃ v, 0 ≤ v < 8
    ∧ (∀ a, 0 ≤ a < 9 →
         ∃ a1, _transform_index a t = Ok a1
           ∧ _transform_index a1 u = _transform_index a v)
    ∧ (∀ s, ∃ s1, _transform_state s t = Ok s1
           ∧ _transform_state s1 u = _transform_state s v).
Proof.
  intros Ht Hu. exists (compose u t).
  pose proof (compose_range u t Hu Ht) as Hv.
  split; [done|]. split.
  - intros a Ha. exists (tindex t a).
    rewrite !transform_index_Ok by done. by rewrite tindex_compose.
  - intros s. exists (tstate t s).
    rewrite !transform_state_Ok by done. by rewrite tstate_compose.
Qed.

Lemma transforms_compose_witness :
  ∃ v, 0 ≤ v < 8
    ∧ (∀ a, 0 ≤ a < 9 →
         ∃ a1, _transform_index a 1 = Ok a1
           ∧ _transform_index a1 4 = _transform_index a v)
    ∧ (∀ s, ∃ s1, _transform_state s 1 = Ok s1
           ∧ _transform_state s1 4 = _transform_state s v).
Proof. apply (transforms_compose 1 4); lia. Defined.

(** *** What a transform does to a state *)

Lemma tstate_range t s : 0 ≤ t < 8 → 0 ≤ tstate t s < 3 ^ 9.
Proof.
  intros Ht. rewrite tstate_digits by done.
  pose proof (of_digits_range ((λ j, digit s (tindex (inverse t) j)) <$> range 9))
    as H.
  rewrite length_fmap in H. apply H.
  apply Forall_fmap, Forall_forall. intros x _. apply digit_range.
Qed.

Lemma digit_tstate_tindex t s i :
  0 ≤ t < 8 → 0 ≤ i < 9 → digit (tstate t s) (tindex t i) = digit s i.
Proof.
  intros Ht Hi. rewrite digit_tstate by auto using tindex_range.
  by rewrite tindex_inverse_l.
Qed.

Lemma tstate_identity s : tstate 0 s = s mod 3 ^ 9.
Proof.
  rewrite tstate_digits by lia.
  pose proof (state_digits s) as Hs. pose proof (digits_range s) as Hr.
  change ((λ j, digit s (tindex (inverse 0) j)) <$> range 9)
    with ((λ j, digit s (tindex 0 j)) <$> range 9).
  assert (He : (λ j, digit s (tindex 0 j)) <$> range 9 = digit s <$> range 9).
  { apply list_fmap_ext. intros _ j _. unfold tindex.
    by rewrite transform_index_identity. }
  rewrite He.
  apply (Z.mod_unique_pos _ _ (s / 3 ^ 9)); [done|]. lia.
Qed.

(** The number of cells holding [p] is the same before and after. *)
Lemma count_tstate p t s :
  0 ≤ t < 8 →
  length (filter (λ i, digit (tstate t s) i = p) (range 9))
  = length (filter (λ i, digit s i = p) (range 9)).
Proof.
  intros Ht. rewrite !length_filter_sum, range_9.
  cbn [foldr]. rewrite !digit_tstate by lia.
  apply transform_id_cases in Ht.
  each_case Ht; run_transforms; lia.
Qed.

(** X8: [_transform_state] with one of the eight transforms moves the
    content of every cell [i] to the cell [_transform_index] sends [i] to;
    the result lies in [0, 3^9) and holds as many cells of each value as
    the original.  Transform 0 returns the state reduced modulo 3^9, which
    is the state itself for a board state. *)
Theorem transform_state_cells (s t : Z) :
  0 ≤ t < 8 →
  ∃ s', _transform_state s t = Ok s'
    ∧ 0 ≤ s' < 3 ^ 9
    ∧ (∀ i, 0 ≤ i < 9 →
         ∃ i', _transform_index i t = Ok i' ∧ 0 ≤ i' < 9
           ∧ _get_cell {| state := s' |} (i' / 3) (i' mod 3)
             = _get_cell {| state := s |} (i / 3) (i mod 3))
    ∧ (∀ p, length (filter (λ i, digit s' i = p) (range 9))
            = length (filter (λ i, digit s i = p) (range 9)))
    ∧ _transform_state s 0 = Ok (s mod 3 ^ 9).
Proof.
  intros Ht. exists (tstate t s).
  split; [by apply transform_state_Ok|].
  split; [by apply tstate_range|].
  split; [|split].
  - intros i Hi. exists (tindex t i).
    split; [by apply transform_index_Ok|].
    split; [by apply tindex_range|].
    rewrite !get_cell_digit, !flat_index. cbn [state].
    by apply digit_tstate_tindex.
  - intros p. by apply count_tstate.
  - rewrite transform_state_Ok by lia. f_equal. apply tstate_identity.
Qed.

Lemma transform_state_cells_witness :
  ∃ s', _transform_state 715 1 = Ok s'
    ∧ 0 ≤ s' < 3 ^ 9
    ∧ (∀ i, 0 ≤ i < 9 →
         ∃ i', _transform_index i 1 = Ok i' ∧ 0 ≤ i' < 9
           ∧ _get_cell {| state := s' |} (i' / 3) (i' mod 3)
             = _get_cell {| state := 715 |} (i / 3) (i mod 3))
    ∧ (∀ p, length (filter (λ i, digit s' i = p) (range 9))
            = length (filter (λ i, digit 715 i = p) (range 9)))
    ∧ _transform_state 715 0 = Ok (715 mod 3 ^ 9).
Proof. apply (transform_state_cells 715 1). lia. Defined.

(** *** Symmetry and play *)

Ltac run_eqb :=
  repeat match goal with
  | |- context [?a =? ?b] =>
      let v := eval vm_compute in (a =? b) in change (a =? b) with v
  end;
  cbv iota.

Lemma tstate_add_pow t s p m :
  0 ≤ t < 8 → 0 ≤ m < 9 → digit s m = 0 → 0 ≤ p < 3 →
  tstate t (s + p * 3 ^ m) = tstate t s + p * 3 ^ tindex t m.
Proof.
  intros Ht Hm Hz Hp. unfold tstate. rewrite !transform_state_sum by done.
  rewrite range_9. cbn [fold_left].
  rewrite !(digit_add_pow s p m) by (done || lia).
  apply transform_id_cases in Ht. apply index_cases in Hm.
  each_case Hm; run_eqb; rewrite Hz; each_case Ht; run_transforms; lia.
Qed.

(** X9: a symmetry carries legal moves to legal moves and commutes with
    playing: the move [m] is legal on a board exactly when its image is
    legal on the image of the board, and playing the image of [m] on the
    image of the board gives the image of the board after [m]. *)
Theorem symmetry_commutes_with_moves (b : Board) (p m t : Z) :
  0 ≤ t < 8 → 0 ≤ m < 9 → p = 1 ∨ p = 2 →
  ∃ s' m',
    _transform_state (state b) t = Ok s' ∧ _transform_index m t = Ok m'
    ∧ (m ∈ get_valid_moves b ↔ m' ∈ get_valid_moves {| state := s' |})
    ∧ (legal b m →
       ∃ s'', _transform_state (state (make_move_cpu b p m).2) t = Ok s''
         ∧ make_move_cpu {| state := s' |} p m' = (true, {| state := s'' |})).
Proof.
  intros Ht Hm Hp. exists (tstate t (state b)), (tindex t m).
  rewrite transform_state_Ok, transform_index_Ok by done.
  split; [done|]. split; [done|].
  pose proof (tindex_range t m Ht Hm) as Hr.
  assert (Hiff : m ∈ get_valid_moves b
                 ↔ tindex t m ∈ get_valid_moves {| state := tstate t (state b) |}).
  { rewrite !elem_of_get_valid_moves. cbn [state].
    rewrite digit_tstate_tindex by done. tauto. }
  split; [done|].
  intros Hl. exists (tstate t (state (make_move_cpu b p m).2)).
  rewrite transform_state_Ok by done. split; [done|].
  rewrite make_move_cpu_legal by (by apply legal_valid_moves, Hiff, legal_valid_moves).
  rewrite make_move_cpu_legal by done. cbn [state snd].
  apply legal_digit in Hl as [_ Hz].
  rewrite tstate_add_pow by (done || lia). done.
Qed.

Lemma symmetry_commutes_with_moves_witness :
  ∃ s' m',
    _transform_state 13 1 = Ok s' ∧ _transform_index 4 1 = Ok m'
    ∧ (4 ∈ get_valid_moves {| state := 13 |}
       ↔ m' ∈ get_valid_moves {| state := s' |})
    ∧ (legal {| state := 13 |} 4 →
       ∃ s'', _transform_state (state (make_move_cpu {| state := 13 |} 2 4).2) 1
              = Ok s''
         ∧ make_move_cpu {| state := s' |} 2 m' = (true, {| state := s'' |})).
Proof.
  apply (symmetry_commutes_with_moves {| state := 13 |} 2 4 1); [lia|lia|by right].
Defined.

(** The eight lines, cell by cell, in the order of the scan. *)
Definition wins (d : Z → Z) (p : Z) : Prop :=
  (d 0 = p ∧ d 1 = p ∧ d 2 = p) ∨ (d 0 = p ∧ d 3 = p ∧ d 6 = p)
  ∨ (d 3 = p ∧ d 4 = p ∧ d 5 = p) ∨ (d 1 = p ∧ d 4 = p ∧ d 7 = p)
  ∨ (d 6 = p ∧ d 7 = p ∧ d 8 = p) ∨ (d 2 = p ∧ d 5 = p ∧ d 8 = p)
  ∨ (d 0 = p ∧ d 4 = p ∧ d 8 = p) ∨ (d 2 = p ∧ d 4 = p ∧ d 6 = p).

Lemma holds_3 b p x y z :
  holds b p [x; y; z]
  ↔ _get_cell b x.1 x.2 = p ∧ _get_cell b y.1 y.2 = p ∧ _get_cell b z.1 z.2 = p.
Proof.
  unfold holds. split.
  - intros H. repeat split; apply H; repeat constructor.
  - intros (Hx & Hy & Hz) rc. rewrite !elem_of_cons, elem_of_nil.
    intros [->|[->|[->|[]]]]; done.
Qed.

Lemma has_line_wins b p : has_line b p ↔ wins (digit (state b)) p.
Proof.
  unfold has_line, wins, line_cells. split.
  - intros (l & Hl & Hh). rewrite !elem_of_cons, elem_of_nil in Hl.
    destruct Hl as [->|[->|[->|[->|[->|[->|[->|[->|[]]]]]]]]];
      apply holds_3 in Hh; rewrite !get_cell_digit in Hh; cbn in Hh; tauto.
  - intros H.
    destruct H as [H|[H|[H|[H|[H|[H|[H|H]]]]]]].
    + exists [(0, 0); (0, 1); (0, 2)]. split; [do 0 right; left|by apply holds_3].
    + exists [(0, 0); (1, 0); (2, 0)]. split; [do 1 right; left|by apply holds_3].
    + exists [(1, 0); (1, 1); (1, 2)]. split; [do 2 right; left|by apply holds_3].
    + exists [(0, 1); (1, 1); (2, 1)]. split; [do 3 right; left|by apply holds_3].
    + exists [(2, 0); (2, 1); (2, 2)]. split; [do 4 right; left|by apply holds_3].
    + exists [(0, 2); (1, 2); (2, 2)]. split; [do 5 right; left|by apply holds_3].
    + exists [(0, 0); (1, 1); (2, 2)]. split; [do 6 right; left|by apply holds_3].
    + exists [(0, 2); (1, 1); (2, 0)]. split; [do 7 right; left|by apply holds_3].
Qed.

Lemma wins_tstate t s p :
  0 ≤ t < 8 → wins (digit (tstate t s)) p ↔ wins (digit s) p.
Proof.
  intros Ht. unfold wins. rewrite !digit_tstate by lia.
  apply transform_id_cases in Ht.
  each_case Ht; run_transforms; tauto.
Qed.

Lemma has_line_tstate t b p :
  0 ≤ t < 8 → has_line {| state := tstate t (state b) |} p ↔ has_line b p.
Proof. intros Ht. rewrite !has_line_wins. by apply wins_tstate. Qed.

Lemma full_no_moves b : full b ↔ get_valid_moves b = [].
Proof.
  split.
  - intros Hf. destruct (get_valid_moves b) as [|i l] eqn:E; [done|].
    assert (Hi : i ∈ get_valid_moves b) by (rewrite E; left).
    apply elem_of_get_valid_moves in Hi as [Hi Hz]. exfalso.
    apply (Hf (i / 3) (i mod 3)).
    + split; [apply Z.div_pos|apply Z.div_lt_upper_bound]; lia.
    + apply Z.mod_pos_bound. lia.
    + by rewrite get_cell_digit, flat_index.
  - intros Hnil row col Hr Hc Hz.
    apply (elem_of_nil (row * 3 + col)). rewrite <- Hnil.
    apply elem_of_get_valid_moves. rewrite <- get_cell_digit. split; [lia|done].
Qed.

Lemma full_tstate t b :
  0 ≤ t < 8 → full {| state := tstate t (state b) |} ↔ full b.
Proof.
  intros Ht. rewrite !full_no_moves.
  rewrite <- !length_zero_iff_nil, !length_valid_moves. cbn [state].
  by rewrite empties_tstate.
Qed.

Lemma check_winner_draw_iff b : check_winner b = -1 ↔ ¬ decided b ∧ full b.
Proof.
  rewrite <- scan_lines_decided, <- full_forallb. unfold check_winner.
  destruct (scan_lines (lines b)) as [w|] eqn:E.
  - apply scan_lines_value in E. split; [lia|]. by intros [? _].
  - destruct (forallb _ _); split; solve [done | lia | by intros [_ ?]].
Qed.

Lemma check_winner_progress_iff b : check_winner b = 0 ↔ ¬ decided b ∧ ¬ full b.
Proof.
  rewrite <- scan_lines_decided, <- full_forallb. unfold check_winner.
  destruct (scan_lines (lines b)) as [w|] eqn:E.
  - apply scan_lines_value in E. split; [lia|]. by intros [? _].
  - destruct (forallb _ _); split; solve [done | lia | by intros [_ ?]].
Qed.

Lemma check_winner_sole b p :
  p = 1 ∨ p = 2 → has_line b p →
  (∀ q, q ≠ 0 → q ≠ p → ¬ has_line b q) → check_winner b = p.
Proof.
  intros Hp Hl Hother.
  destruct (decided_first_line b) as [p' Hf].
  { exists p. split; [lia|done]. }
  destruct (decide (p' = p)) as [->|Hne].
  - by apply check_winner_first_line.
  - exfalso. apply (Hother p'); [|done|by apply first_line_has_line].
    by destruct Hf as (_ & _ & _ & _ & ? & _).
Qed.

Lemma decided_tstate t b :
  0 ≤ t < 8 → decided {| state := tstate t (state b) |} ↔ decided b.
Proof.
  intros Ht. unfold decided. by setoid_rewrite has_line_tstate.
Qed.

(** X10: a symmetry does not change the result of a position: the image
    is in progress, drawn or decided exactly when the original is, and
    unless both markers hold a completed line (which no game produces)
    [check_winner] returns the same value on both. *)
Theorem check_winner_symmetric (b : Board) (t : Z) :
  0 ≤ t < 8 →
  ∃ s', _transform_state (state b) t = Ok s'
    ∧ (check_winner {| state := s' |} = 0 ↔ check_winner b = 0)
    ∧ (check_winner {| state := s' |} = -1 ↔ check_winner b = -1)
    ∧ (¬ (has_line b 1 ∧ has_line b 2) →
       check_winner {| state := s' |} = check_winner b).
Proof.
  intros Ht. exists (tstate t (state b)).
  split; [by apply transform_state_Ok|].
  set (tb := {| state := tstate t (state b) |}).
  assert (H0 : check_winner tb = 0 ↔ check_winner b = 0).
  { rewrite !check_winner_progress_iff. unfold tb.
    by rewrite decided_tstate, full_tstate. }
  assert (H1 : check_winner tb = -1 ↔ check_winner b = -1).
  { rewrite !check_winner_draw_iff. unfold tb.
    by rewrite decided_tstate, full_tstate. }
  split; [done|]. split; [done|].
  intros Hboth.
  assert (Hcell : ∀ q, q ≠ 0 → q ≠ 1 → q ≠ 2 → ¬ has_line tb q).
  { intros q ? ? ? (l & Hl & Hh).
    apply line_cells_length in Hl. destruct l as [|x l]; [done|].
    pose proof (Hh x (list_elem_of_here _ _)).
    pose proof (get_cell_range tb x.1 x.2). lia. }
  destruct (check_winner_values b) as [E|[E|[E|E]]].
  - rewrite E. by apply H1.
  - rewrite E. by apply H0.
  - rewrite E. apply check_winner_first_line, first_line_has_line in E as Hl;
      [|by left].
    apply check_winner_sole; [by left|by apply has_line_tstate|].
    intros q Hq0 Hq1. destruct (decide (q = 2)) as [->|Hq2]; [|by apply Hcell].
    unfold tb. rewrite has_line_tstate by done. tauto.
  - rewrite E. apply check_winner_first_line, first_line_has_line in E as Hl;
      [|by right].
    apply check_winner_sole; [by right|by apply has_line_tstate|].
    intros q Hq0 Hq2. destruct (decide (q = 1)) as [->|Hq1]; [|by apply Hcell].
    unfold tb. rewrite has_line_tstate by done. tauto.
Qed.

Lemma check_winner_symmetric_witness :
  ∃ s', _transform_state 13 1 = Ok s'
    ∧ (check_winner {| state := s' |} = 0 ↔ check_winner {| state := 13 |} = 0)
    ∧ (check_winner {| state := s' |} = -1 ↔ check_winner {| state := 13 |} = -1)
    ∧ (¬ (has_line {| state := 13 |} 1 ∧ has_line {| state := 13 |} 2) →
       check_winner {| state := s' |} = check_winner {| state := 13 |}).
Proof. apply (check_winner_symmetric {| state := 13 |} 1). lia. Defined.

(** *** The canonical key *)

Lemma identity_key s a : (s mod 3 ^ 9, a) ∈ keys s a.
Proof.
  apply elem_of_keys. exists 0. split; [lia|].
  rewrite tstate_identity. unfold tindex.
  by rewrite transform_index_identity.
Qed.

(** X11: the canonical key of (S, A), A in 0..8, is a board state in
    [0, 3^9) with an action in 0..8; it is never larger than (S mod 3^9, A)
    in the order of the keys; its state has as many empty cells as S, and
    its action is legal there whenever A is legal on S. *)
Theorem canonical_key_shape (S A : Z) :
  0 ≤ A < 9 →
  ∃ k, canonicalize_state_action S A = Ok k
    ∧ 0 ≤ k.1 < 3 ^ 9 ∧ 0 ≤ k.2 < 9
    ∧ key_lt (S mod 3 ^ 9, A) k = false
    ∧ length (get_valid_moves {| state := k.1 |})
      = length (get_valid_moves {| state := S |})
    ∧ (A ∈ get_valid_moves {| state := S |} →
       k.2 ∈ get_valid_moves {| state := k.1 |}).
Proof.
  intros HA. destruct (canonicalize_Ok S A) as (k & Hk & Hin & Hmin).
  exists k. split; [done|].
  pose proof (Hmin _ (identity_key S A)) as Hle.
  apply elem_of_keys in Hin as (t & Ht & ->). cbn [fst snd].
  split; [by apply tstate_range|]. split; [by apply tindex_range|].
  split; [done|]. split.
  - rewrite !length_valid_moves. cbn [state]. by apply empties_tstate.
  - rewrite !elem_of_get_valid_moves. cbn [state].
    rewrite digit_tstate_tindex by done.
    pose proof (tindex_range t A Ht HA). tauto.
Qed.

Lemma canonical_key_shape_witness :
  ∃ k, canonicalize_state_action 489 4 = Ok k
    ∧ 0 ≤ k.1 < 3 ^ 9 ∧ 0 ≤ k.2 < 9
    ∧ key_lt (489 mod 3 ^ 9, 4) k = false
    ∧ length (get_valid_moves {| state := k.1 |})
      = length (get_valid_moves {| state := 489 |})
    ∧ (4 ∈ get_valid_moves {| state := 489 |} →
       k.2 ∈ get_valid_moves {| state := k.1 |}).
Proof. apply (canonical_key_shape 489 4). lia. Defined.

(** X12: the canonical key separates positions that are not symmetric:
    if (S1, A1) and (S2, A2) get the same key, with A1 and A2 in 0..8 and
    S2 a board state in [0, 3^9), then one of the eight transforms takes
    (S1, A1) to (S2, A2). *)
Theorem canonical_key_complete (S1 A1 S2 A2 : Z) :
  0 ≤ A1 < 9 → 0 ≤ A2 < 9 → 0 ≤ S2 < 3 ^ 9 →
  canonicalize_state_action S1 A1 = canonicalize_state_action S2 A2 →
  ∃ t, 0 ≤ t < 8
    ∧ _transform_state S1 t = Ok S2 ∧ _transform_index A1 t = Ok A2.
Proof.
  intros H1 H2 HS Heq.
  destruct (canonicalize_Ok S1 A1) as (k & Hk1 & Hin1 & _).
  destruct (canonicalize_Ok S2 A2) as (k2 & Hk2 & Hin2 & _).
  rewrite Hk1, Hk2 in Heq. injection Heq as <-.
  apply elem_of_keys in Hin1 as (t1 & Ht1 & ->).
  apply elem_of_keys in Hin2 as (t2 & Ht2 & [= Hs Ha]).
  pose proof (inverse_range t2 Ht2) as Hu.
  exists (compose (inverse t2) t1).
  pose proof (compose_range _ _ Hu Ht1) as Hv.
  split; [done|].
  rewrite transform_state_Ok, transform_index_Ok by done.
  rewrite <- tstate_compose, <- tindex_compose by done.
  rewrite Hs, Ha, tstate_compose, tindex_inverse_l by done.
  rewrite compose_inverse_l, tstate_identity by done.
  by rewrite Z.mod_small.
Qed.

Lemma canonical_key_complete_witness :
  ∃ t, 0 ≤ t < 8
    ∧ _transform_state 489 t = Ok 33 ∧ _transform_index 0 t = Ok 6.
Proof.
  apply (canonical_key_complete 489 0 33 6); [lia|lia|cbn; lia|reflexivity].
Defined.

(** ** More on move selection *)

Section PolicyProperties.
Variable nearest : Z → Z → Q.

(** X13: in every mode (random, epsilon-greedy, greedy; without a table
    or with one in which the average of every legal move is a float), on
    a board that has a legal move [get_and_save_move] returns a legal
    move, appends exactly the canonical key of (state, move) to the
    player's history and leaves name, marker and [q_values] of the player
    alone. *)
Theorem get_and_save_move_legal (self : CPU) (board : Board) (gen : Z)
    (tbl : option table) (epsilon : Q) (g : Random) :
  get_valid_moves board ≠ [] →
  (∀ q m, tbl = Some q → m ∈ get_valid_moves board →
     overflows q board m = false) →
  ∃ move self' g' k,
    get_and_save_move nearest self board gen tbl epsilon g
    = Ok (move, self', g')
    ∧ legal board move
    ∧ canonicalize_state_action (state board) move = Ok k
    ∧ moves self' = moves self ++ [k]
    ∧ name self' = name self ∧ marker self' = marker self
    ∧ q_values self' = q_values self.
Proof.
  intros Hne Hq.
  destruct (get_and_save_move_Ok nearest self board gen tbl epsilon g Hne Hq)
    as (move & g' & H & Hin).
  exists move, (set_moves self (moves self ++ [ckey (state board) move])), g',
    (ckey (state board) move).
  split; [exact H|]. split; [by apply legal_valid_moves|].
  split; [apply canonicalize_ckey|]. done.
Qed.

Lemma greedy_move_nil board gen q epsilon g :
  greedy_move nearest board [] gen q epsilon g = Raise ValueError.
Proof. reflexivity. Qed.

(** X14: called on a board without a legal move, [get_and_save_move]
    raises and records nothing: [IndexError] from [random.choice] on the
    exploring paths ([gen = 1], no table, or a draw below [epsilon]),
    [ValueError] from [max] on the exploiting path. *)
Theorem get_and_save_move_no_moves (self : CPU) (board : Board) (gen : Z)
    (tbl : option table) (epsilon : Q) (g : Random) :
  get_valid_moves board = [] →
  get_and_save_move nearest self board gen tbl epsilon g
  = if gen =? 1 then Raise IndexError
    else match tbl with
         | None => Raise IndexError
         | Some _ =>
             if Qlt_bool (random_random g).1 epsilon
             then Raise IndexError
             else Raise ValueError
         end.
Proof.
  intros Hnil. unfold get_and_save_move. rewrite Hnil.
  destruct (gen =? 1); [done|]. destruct tbl as [q|]; [|done].
  destruct (random_random g) as [u g1]. cbn [fst].
  destruct (Qlt_bool u epsilon); [done|]. by rewrite greedy_move_nil.
Qed.

(** X15: with an exploration rate of 1 or more the table is not looked
    at: the call behaves as the one without a table, on the random source
    after the draw compared with [epsilon]. *)
Theorem exploration_ignores_table (self : CPU) (board : Board) (gen : Z)
    (q : table) (epsilon : Q) (g : Random) :
  (1 <= epsilon)%Q →
  get_and_save_move nearest self board gen (Some q) epsilon g
  = get_and_save_move nearest self board gen None epsilon
      (if gen =? 1 then g else (random_random g).2).
Proof.
  intros Heps. unfold get_and_save_move.
  destruct (gen =? 1); [done|].
  pose proof (random_random_lt_1 g) as Hu.
  destruct (random_random g) as [u g1]. cbn [fst snd] in *.
  rewrite (proj2 (Qlt_bool_true u epsilon)); [done|].
  by apply Qlt_le_trans with 1%Q.
Qed.

(** X16: whenever the call exploits (a table is given, [gen] is not 1 and
    the draw is not below [epsilon], which is certain for [epsilon <= 0]),
    in any mode, when the average of every legal move is a float, the
    move returned has the largest average among the legal moves and the
    largest count among those of that average. *)
Theorem exploitation_picks_best (self : CPU) (board : Board) (gen : Z)
    (q : table) (epsilon : Q) (g : Random) :
  get_valid_moves board ≠ [] → gen ≠ 1 →
  (epsilon <= (random_random g).1)%Q →
  (∀ m, m ∈ get_valid_moves board → overflows q board m = false) →
  ∃ move self' g',
    get_and_save_move nearest self board gen (Some q) epsilon g
    = Ok (move, self', g')
    ∧ move ∈ get_valid_moves board
    ∧ (∀ m, m ∈ get_valid_moves board →
         (average nearest q board m <= average nearest q board move)%Q)
    ∧ (∀ m, m ∈ get_valid_moves board →
         (average nearest q board m == average nearest q board move)%Q →
         samples q board m ≤ samples q board move).
Proof.
  intros Hne Hgen Hdraw Hq. unfold get_and_save_move.
  rewrite (proj2 (Z.eqb_neq gen 1)) by done.
  destruct (random_random g) as [u g1]. cbn [fst] in Hdraw.
  rewrite (proj2 (Qlt_bool_false u epsilon)) by done.
  destruct (greedy_candidates nearest board (get_valid_moves board) gen q
              epsilon g1 Hne (existsb_overflows q board _ Hq))
    as (bm & max_avg & max_count & -> & Hbm & Hmax & Hmaxc & Hin).
  assert (Hpick : ∃ move g',
            (if (gen =? 3) && Qeq_bool epsilon 0
             then move ← py_min bm; mret (move, g1)
             else random_choice bm g1) = Ok (move, g') ∧ move ∈ bm).
  { destruct (_ && _).
    - destruct (py_min_spec bm Hbm) as (move & -> & Hmove & _).
      by exists move, g1.
    - destruct (random_choice_Ok bm g1 Hbm) as (move & g' & -> & Hmove).
      by exists move, g'. }
  destruct Hpick as (move & g' & -> & Hmove).
  apply Hin in Hmove as (Hmv & Havg & Hsam).
  cbn [mbind py_bind]. rewrite canonicalize_ckey. cbn [mbind py_bind].
  eexists move, _, g'. split; [done|]. split; [done|]. split.
  - intros m Hm. rewrite Havg. by apply Hmax.
  - intros m Hm Heq. rewrite Hsam. apply Hmaxc; [done|]. by rewrite Heq.
Qed.




End PolicyProperties.

Lemma get_and_save_move_legal_witness :
  ∃ move self' g' k,
    get_and_save_move exact_div demo_cpu1 demo_board 2 (Some demo_table)
      (1 # 10) demo_random
    = Ok (move, self', g')
    ∧ legal demo_board move
    ∧ canonicalize_state_action (state demo_board) move = Ok k
    ∧ moves self' = moves demo_cpu1 ++ [k]
    ∧ name self' = name demo_cpu1 ∧ marker self' = marker demo_cpu1
    ∧ q_values self' = q_values demo_cpu1.
Proof.
  apply (get_and_save_move_legal exact_div demo_cpu1 demo_board 2
           (Some demo_table) (1 # 10) demo_random).
  - discriminate.
  - intros q m [= <-] _. apply no_overflow_overflows, demo_table_no_overflow.
Defined.

(** The full board X O X / X O O / O X X. *)
Definition demo_full_board : Board :=
  {| state := 1 + 2*3 + 9 + 27 + 2*81 + 2*243 + 2*729 + 2187 + 6561 |}.

Lemma get_and_save_move_no_moves_witness :
  get_and_save_move exact_div demo_cpu1 demo_full_board 3 (Some demo_table) 0
    demo_random
  = Raise ValueError
  ∧ get_and_save_move exact_div demo_cpu1 demo_full_board 1 None (1 # 10)
      demo_random
    = Raise IndexError.
Proof.
  split.
  - exact (get_and_save_move_no_moves exact_div demo_cpu1 demo_full_board 3
             (Some demo_table) 0 demo_random eq_refl).
  - exact (get_and_save_move_no_moves exact_div demo_cpu1 demo_full_board 1
             None (1 # 10) demo_random eq_refl).
Defined.

Lemma exploration_ignores_table_witness :
  get_and_save_move exact_div demo_cpu1 demo_board 2 (Some demo_table) 1
    demo_random
  = get_and_save_move exact_div demo_cpu1 demo_board 2 None 1
      (random_random demo_random).2.
Proof.
  apply (exploration_ignores_table exact_div demo_cpu1 demo_board 2 demo_table
           1 demo_random).
  apply Qle_refl.
Defined.

(** A random source whose every [random.random()] is 1/2. *)
Definition demo_random_half : Random :=
  {| draws := λ _, 2 ^ 52; used := 0 |}.

Lemma exploitation_picks_best_witness :
  ∃ move self' g',
    get_and_save_move exact_div demo_cpu1 demo_board 2 (Some demo_table)
      (1 # 10) demo_random_half
    = Ok (move, self', g')
    ∧ move ∈ get_valid_moves demo_board
    ∧ (∀ m, m ∈ get_valid_moves demo_board →
         (average exact_div demo_table demo_board m
          <= average exact_div demo_table demo_board move)%Q)
    ∧ (∀ m, m ∈ get_valid_moves demo_board →
         (average exact_div demo_table demo_board m
          == average exact_div demo_table demo_board move)%Q →
         samples demo_table demo_board m ≤ samples demo_table demo_board move).
Proof.
  apply (exploitation_picks_best exact_div demo_cpu1 demo_board 2 demo_table
           (1 # 10) demo_random_half).
  - discriminate.
  - discriminate.
  - vm_compute. discriminate.
  - intros m _. apply no_overflow_overflows, demo_table_no_overflow.
Defined.





(** ** More on one game of self-play *)

(** The player a reference points to, and the two players after the
    current one has recorded the key [k]. *)
Definition player (cur : ref) (cpu1 cpu2 : CPU) : CPU :=
  match cur with Cpu1 => cpu1 | Cpu2 => cpu2 end.

Definition record_move (cur : ref) (cpu1 cpu2 : CPU) (k : key) : CPU * CPU :=
  match cur with
  | Cpu1 => (set_moves cpu1 (moves cpu1 ++ [k]), cpu2)
  | Cpu2 => (cpu1, set_moves cpu2 (moves cpu2 ++ [k]))
  end.

(** The counter a terminal result increments. *)
Definition counter (result : Z) : string :=
  if result =? -1 then "draws" else "win_loss".

(** A key that canonicalises to itself. *)
Definition canonical (k : key) : Prop :=
  canonicalize_state_action k.1 k.2 = Ok k.

(** The number of cells that hold [p]. *)
Definition cells_of (p : Z) (b : Board) : nat :=
  length (filter (λ i, digit (state b) i = p) (range 9)).

(** A component of the entries of a table, added up over the table; the
    counts and the sums. *)
Definition total (f : Z * Z → Z) (q : table) : Z :=
  map_fold (λ _ x acc, f x + acc) 0 q.

Definition total_count (q : table) : Z := total snd q.
Definition total_sum (q : table) : Z := total fst q.

Lemma total_insert (f : Z * Z → Z) (q : table) k v :
  total f (<[k := v]> q)
  = total f q - match q !! k with Some old => f old | None => 0 end + f v.
Proof.
  unfold total. destruct (q !! k) as [old|] eqn:E.
  - rewrite <- insert_delete_eq.
    rewrite map_fold_insert_L;
      [|intros; cbv beta; lia|by rewrite lookup_delete_eq].
    rewrite (map_fold_delete_L _ _ k old q); [lia|intros; cbv beta; lia|done].
  - rewrite map_fold_insert_L; [lia|intros; cbv beta; lia|done].
Qed.

Lemma total_count_credit r h q :
  total_count (credit r h q) = total_count q + Z.of_nat (length h).
Proof.
  unfold total_count.
  revert q. induction h as [|k h IH]; intros q; [cbn; lia|].
  rewrite credit_cons, IH, total_insert. unfold get.
  destruct (q !! k) as [[s c]|]; cbn [length snd default from_option id]; lia.
Qed.

Lemma total_sum_credit r h q :
  total_sum (credit r h q) = total_sum q + r * Z.of_nat (length h).
Proof.
  unfold total_sum.
  revert q. induction h as [|k h IH]; intros q; [cbn; lia|].
  rewrite credit_cons, IH, total_insert. unfold get.
  destruct (q !! k) as [[s c]|]; cbn [length fst default from_option id]; lia.
Qed.

Section GameProperties.
Variable nearest : Z → Z → Q.

Lemma get_and_save_move_Ok_inv self board gen tbl epsilon g move self' g' :
  get_and_save_move nearest self board gen tbl epsilon g = Ok (move, self', g') →
  move ∈ get_valid_moves board
  ∧ self' = set_moves self (moves self ++ [ckey (state board) move]).
Proof.
  intros H.
  destruct (decide (get_valid_moves board = [])) as [Hnil|Hne].
  - exfalso. revert H. unfold get_and_save_move. rewrite Hnil.
    destruct (gen =? 1); [done|]. destruct tbl as [q|]; [|done].
    destruct (random_random g) as [u g1].
    by destruct (Qlt_bool u epsilon).
  - destruct (get_and_save_move_cases nearest self board gen tbl epsilon g Hne)
      as [(mv & g1 & Hmv & Hin)|[Hmv _]]; rewrite Hmv in H; [|done].
    by injection H as <- <- <-.
Qed.

(** One turn of the loop, for a call that returns. *)
Lemma game_loop_step fuel cpu1 cpu2 q stats gen epsilon learn board cur oth g fin :
  game_loop nearest (S fuel) cpu1 cpu2 q stats gen epsilon learn board cur oth g
  = Ok fin →
  ∃ move g',
    move ∈ get_valid_moves board
    ∧ let cs := record_move cur cpu1 cpu2 (ckey (state board) move) in
      let board' :=
        (make_move_cpu board (marker (player cur cpu1 cpu2)) move).2 in
      if check_winner board' =? 0
      then game_loop nearest fuel cs.1 cs.2 q stats gen epsilon learn board'
             oth cur g' = Ok fin
      else g_cpu1 fin = cs.1 ∧ g_cpu2 fin = cs.2 ∧ g_board fin = board'
           ∧ g_random fin = g'
           ∧ ∃ v, stats !! counter (check_winner board') = Some v
               ∧ g_stats fin = <[counter (check_winner board') := v + 1]> stats.
Proof.
  cbn [game_loop].
  destruct (get_and_save_move _ _ _ _ _ _ _) as [[[move self'] g']| |] eqn:Eg;
    [|done..].
  apply get_and_save_move_Ok_inv in Eg as [Hin ->].
  cbn [mbind py_bind]. intros H. exists move, g'. split; [done|]. cbv zeta.
  replace (marker (set_moves _ _)) with (marker (player cur cpu1 cpu2)) in H
    by (by destruct cur).
  set (board' := (make_move_cpu board (marker (player cur cpu1 cpu2)) move).2) in *.
  assert (Hc1 : (record_move cur cpu1 cpu2 (ckey (state board) move)).1
                = match cur with
                  | Cpu1 => set_moves (match cur with Cpu1 => cpu1 | Cpu2 => cpu2 end)
                              (moves (match cur with Cpu1 => cpu1 | Cpu2 => cpu2 end)
                               ++ [ckey (state board) move])
                  | Cpu2 => cpu1
                  end) by (by destruct cur).
  assert (Hc2 : (record_move cur cpu1 cpu2 (ckey (state board) move)).2
                = match cur with
                  | Cpu1 => cpu2
                  | Cpu2 => set_moves (match cur with Cpu1 => cpu1 | Cpu2 => cpu2 end)
                              (moves (match cur with Cpu1 => cpu1 | Cpu2 => cpu2 end)
                               ++ [ckey (state board) move])
                  end) by (by destruct cur).
  rewrite Hc1, Hc2.
  destruct (check_winner board' =? 0) eqn:E0; cbn [negb] in H; [done|].
  unfold counter.
  destruct (check_winner board' =? -1) eqn:Ed.
  - unfold incr in H. destruct (stats !! "draws") as [v|] eqn:Ev; [|done].
    cbn [mbind py_bind mret py_ret] in H. injection H as <-. cbn.
    do 4 (split; [reflexivity|]). by exists v.
  - unfold incr in H. destruct (stats !! "win_loss") as [v|] eqn:Ev;
      [|by repeat case_match].
    destruct (_ =? _) in H; cbn [mbind py_bind mret py_ret] in H;
      injection H as <-; cbn; do 4 (split; [reflexivity|]); by exists v.
Qed.

Lemma game_loop_stats fuel cpu1 cpu2 q stats gen epsilon learn board cur oth g fin :
  game_loop nearest fuel cpu1 cpu2 q stats gen epsilon learn board cur oth g
  = Ok fin →
  ∃ v, stats !! counter (check_winner (g_board fin)) = Some v
    ∧ g_stats fin = <[counter (check_winner (g_board fin)) := v + 1]> stats.
Proof.
  revert cpu1 cpu2 board cur oth g.
  induction fuel as [|fuel IH]; intros cpu1 cpu2 board cur oth g H; [done|].
  apply game_loop_step in H as (move & g' & _ & H). cbv zeta in H.
  destruct (_ =? 0); [by apply IH in H|].
  by destruct H as (_ & _ & -> & _ & H).
Qed.

Lemma canonical_ckey s m : 0 ≤ m < 9 → canonical (ckey s m).
Proof.
  intros Hm. unfold canonical.
  destruct (canonicalize_Ok s m) as (k & Hk & Hin & _).
  unfold ckey. rewrite Hk.
  apply elem_of_keys in Hin as (t & Ht & ->). cbn [fst snd].
  by rewrite canonicalize_transform.
Qed.

(** The first player moves first and the two alternate; every turn fills
    one cell and records one canonical key. *)
Lemma game_loop_shape fuel cpu1 cpu2 q stats gen epsilon learn board cur oth g fin :
  marker cpu1 = 1 ∨ marker cpu1 = 2 →
  marker cpu2 = 1 ∨ marker cpu2 = 2 →
  game_loop nearest fuel cpu1 cpu2 q stats gen epsilon learn board cur oth g
  = Ok fin →
  (cur = Cpu1 ∧ oth = Cpu2 ∧ length (moves cpu1) = length (moves cpu2))
  ∨ (cur = Cpu2 ∧ oth = Cpu1 ∧ length (moves cpu1) = S (length (moves cpu2))) →
  Forall canonical (moves cpu1) → Forall canonical (moves cpu2) →
  (length (moves (g_cpu2 fin)) ≤ length (moves (g_cpu1 fin))
   ≤ S (length (moves (g_cpu2 fin))))%nat
  ∧ (length (moves (g_cpu1 fin)) + length (moves (g_cpu2 fin))
     + length (get_valid_moves (g_board fin))
     = length (moves cpu1) + length (moves cpu2)
       + length (get_valid_moves board))%nat
  ∧ Forall canonical (moves (g_cpu1 fin))
  ∧ Forall canonical (moves (g_cpu2 fin))
  ∧ name (g_cpu1 fin) = name cpu1 ∧ name (g_cpu2 fin) = name cpu2
  ∧ q_values (g_cpu1 fin) = q_values cpu1
  ∧ q_values (g_cpu2 fin) = q_values cpu2.
Proof.
  revert cpu1 cpu2 board cur oth g.
  induction fuel as [|fuel IH];
    intros cpu1 cpu2 board cur oth g Hm1 Hm2 H Halt Hk1 Hk2; [done|].
  apply game_loop_step in H as (move & g' & Hin & H). cbv zeta in H.
  assert (Hp : marker (player cur cpu1 cpu2) = 1 ∨ marker (player cur cpu1 cpu2) = 2)
    by (by destruct cur).
  apply legal_valid_moves in Hin as Hlegal.
  pose proof (length_after_move board _ move Hlegal Hp) as Hlen.
  assert (Hcan : canonical (ckey (state board) move)).
  { apply canonical_ckey. by apply legal_digit in Hlegal as [? _]. }
  set (board' := (make_move_cpu board (marker (player cur cpu1 cpu2)) move).2) in *.
  set (cs := record_move cur cpu1 cpu2 (ckey (state board) move)) in *.
  assert (Hcs : marker cs.1 = marker cpu1 ∧ marker cs.2 = marker cpu2
                ∧ name cs.1 = name cpu1 ∧ name cs.2 = name cpu2
                ∧ q_values cs.1 = q_values cpu1 ∧ q_values cs.2 = q_values cpu2
                ∧ Forall canonical (moves cs.1) ∧ Forall canonical (moves cs.2)
                ∧ (length (moves cs.1) + length (moves cs.2)
                   = S (length (moves cpu1) + length (moves cpu2)))%nat
                ∧ ((oth = Cpu1 ∧ cur = Cpu2
                    ∧ length (moves cs.1) = length (moves cs.2))
                   ∨ (oth = Cpu2 ∧ cur = Cpu1
                      ∧ length (moves cs.1) = S (length (moves cs.2))))).
  { unfold cs.
    destruct Halt as [(-> & -> & Hl)|(-> & -> & Hl)]; cbn;
      rewrite ?length_app, ?Forall_app, ?Forall_singleton; cbn;
      split_and!; try done; try lia; [right|left]; split_and!; try done; lia. }
  destruct Hcs as (Hc1 & Hc2 & Hn1 & Hn2 & Hq1 & Hq2 & Hf1 & Hf2 & Hsum & Halt').
  destruct (_ =? 0).
  - apply IH in H as (Ha & Hb & Hc & Hd & He & Hf & Hg & Hh);
      [|by rewrite Hc1|by rewrite Hc2|done|done|done].
    split; [done|]. split; [lia|]. split; [done|]. split; [done|].
    by rewrite He, Hf, Hg, Hh.
  - destruct H as (-> & -> & -> & _).
    split; [destruct Halt' as [(_ & _ & ?)|(_ & _ & ?)]; lia|].
    split; [fold board'; lia|]. done.
Qed.

Lemma cells_after_move b p m q' :
  legal b m → p = 1 ∨ p = 2 → q' = 1 ∨ q' = 2 →
  cells_of q' (make_move_cpu b p m).2
  = (cells_of q' b + if decide (q' = p) then 1 else 0)%nat.
Proof.
  intros Hl Hp Hq. unfold cells_of.
  rewrite !length_filter_sum, range_9. cbn [foldr].
  rewrite !(digit_after_move b p m) by (done || lia).
  apply legal_digit in Hl as [Hm Hz]. apply index_cases in Hm.
  each_case Hm. all: run_eqb. all: rewrite Hz.
  all: destruct (decide (0 = q')); try lia.
  all: destruct (decide (p = q')); destruct (decide (q' = p)); lia.
Qed.

Lemma wins_cells s p : wins (digit s) p → (3 ≤ cells_of p {| state := s |})%nat.
Proof.
  unfold wins, cells_of. rewrite length_filter_sum, range_9.
  cbn [foldr state].
  intros [H|[H|[H|[H|[H|[H|[H|H]]]]]]]; destruct H as (Ha & Hb & Hc);
    rewrite (decide_True _ _ Ha), (decide_True _ _ Hb), (decide_True _ _ Hc);
    lia.
Qed.

Lemma wins_before d d' r :
  (∀ i, 0 ≤ i < 9 → d' i = r → d i = r) → wins d' r → wins d r.
Proof.
  intros H. unfold wins.
  intros [Hw|[Hw|[Hw|[Hw|[Hw|[Hw|[Hw|Hw]]]]]]];
    [do 0 right; left|do 1 right; left|do 2 right; left|do 3 right; left
    |do 4 right; left|do 5 right; left|do 6 right; left|do 7 right];
    destruct Hw as (Ha & Hb & Hc); (split; [|split]); apply H;
    first [lia | assumption].
Qed.

(** A move on a position in progress can only complete a line of the
    mover. *)
Lemma winner_is_mover b p m :
  legal b m → p = 1 ∨ p = 2 → check_winner b = 0 →
  let r := check_winner (make_move_cpu b p m).2 in
  r = 1 ∨ r = 2 → r = p.
Proof.
  intros Hl Hp H0 r Hr.
  destruct (decide (r = p)) as [|Hne]; [done|]. exfalso.
  apply check_winner_progress_iff in H0 as [Hnd _]. apply Hnd.
  exists r. split; [lia|].
  assert (Hline : has_line (make_move_cpu b p m).2 r).
  { by apply first_line_has_line, check_winner_first_line. }
  rewrite has_line_wins in Hline |- *.
  revert Hline. apply wins_before. intros i Hi.
  rewrite digit_after_move by (done || lia).
  destruct (m =? i); [|done]. intros Heq. exfalso. apply Hne. by symmetry.
Qed.

Lemma game_loop_winner fuel cpu1 cpu2 q stats gen epsilon learn board cur oth g fin :
  (marker cpu1 = 1 ∧ marker cpu2 = 2) ∨ (marker cpu1 = 2 ∧ marker cpu2 = 1) →
  game_loop nearest fuel cpu1 cpu2 q stats gen epsilon learn board cur oth g
  = Ok fin →
  (cur = Cpu1 ∧ oth = Cpu2 ∧ length (moves cpu1) = length (moves cpu2))
  ∨ (cur = Cpu2 ∧ oth = Cpu1 ∧ length (moves cpu1) = S (length (moves cpu2))) →
  check_winner board = 0 →
  cells_of (marker cpu1) board = length (moves cpu1) →
  cells_of (marker cpu2) board = length (moves cpu2) →
  cells_of (marker cpu1) (g_board fin) = length (moves (g_cpu1 fin))
  ∧ cells_of (marker cpu2) (g_board fin) = length (moves (g_cpu2 fin))
  ∧ (check_winner (g_board fin) = marker cpu1 →
     length (moves (g_cpu1 fin)) = S (length (moves (g_cpu2 fin))))
  ∧ (check_winner (g_board fin) = marker cpu2 →
     length (moves (g_cpu1 fin)) = length (moves (g_cpu2 fin))).
Proof.
  revert cpu1 cpu2 board cur oth g.
  induction fuel as [|fuel IH];
    intros cpu1 cpu2 board cur oth g Hm H Halt H0 Hn1 Hn2; [done|].
  apply game_loop_step in H as (move & g' & Hin & H). cbv zeta in H.
  assert (Hp : marker (player cur cpu1 cpu2) = 1 ∨ marker (player cur cpu1 cpu2) = 2)
    by (destruct cur; cbn; lia).
  apply legal_valid_moves in Hin as Hlegal.
  pose proof (cells_after_move board _ move (marker cpu1) Hlegal Hp) as Hcell1.
  pose proof (cells_after_move board _ move (marker cpu2) Hlegal Hp) as Hcell2.
  pose proof (winner_is_mover board _ move Hlegal Hp H0) as Hwin.
  cbv zeta in Hwin.
  set (board' := (make_move_cpu board (marker (player cur cpu1 cpu2)) move).2) in *.
  set (cs := record_move cur cpu1 cpu2 (ckey (state board) move)) in *.
  assert (Hcs : marker cs.1 = marker cpu1 ∧ marker cs.2 = marker cpu2
                ∧ cells_of (marker cpu1) board' = length (moves cs.1)
                ∧ cells_of (marker cpu2) board' = length (moves cs.2)
                ∧ ((oth = Cpu1 ∧ cur = Cpu2
                    ∧ length (moves cs.1) = length (moves cs.2))
                   ∨ (oth = Cpu2 ∧ cur = Cpu1
                      ∧ length (moves cs.1) = S (length (moves cs.2))))).
  { rewrite Hcell1, Hcell2 by lia. unfold cs.
    destruct Halt as [(-> & -> & Hl)|(-> & -> & Hl)]; cbn;
      rewrite ?length_app; cbn;
      repeat case_decide; split_and!; try done; try lia;
      [right|left]; split_and!; try done; lia. }
  destruct Hcs as (Hc1 & Hc2 & Hcell1' & Hcell2' & Halt').
  destruct (Z.eqb_spec (check_winner board') 0) as [E0|E0].
  - apply IH in H; [|by rewrite Hc1, Hc2|done|done|by rewrite Hc1|by rewrite Hc2].
    by rewrite Hc1, Hc2 in H.
  - destruct H as (-> & -> & -> & _).
    split; [done|]. split; [done|].
    split; intros Hr; rewrite Hr in Hwin;
      destruct Halt' as [(_ & -> & ?)|(_ & -> & ?)]; cbn in Hwin; lia.
Qed.


(** X17: a game that returns adds 1 to exactly one counter of [stats],
    ["draws"] after a draw and ["win_loss"] otherwise, and leaves every
    other entry of [stats] as it was. *)
Theorem simulate_game_stats (fuel : nat) (cpu1 cpu2 : CPU) (q : table)
    (stats : gmap string Z) (gen : Z) (epsilon : Q) (learn : bool)
    (g : Random) (fin : Game) :
  simulate_game nearest fuel cpu1 cpu2 q stats gen epsilon learn g = Ok fin →
  let c := if check_winner (g_board fin) =? -1 then "draws" else "win_loss" in
  ∃ v, stats !! c = Some v
    ∧ g_stats fin !! c = Some (v + 1)
    ∧ ∀ c', c' ≠ c → g_stats fin !! c' = stats !! c'.
Proof.
  intros H. apply game_loop_stats in H as (v & Hv & ->).
  cbv zeta. fold (counter (check_winner (g_board fin))).
  exists v. split; [done|]. split; [by rewrite lookup_insert_eq|].
  intros c' Hc. by rewrite lookup_insert_ne.
Qed.


(** The course of a game between players with markers 1 and 2. *)
Lemma game_length (fuel : nat) (cpu1 cpu2 : CPU) (q : table)
    (stats : gmap string Z) (gen : Z) (epsilon : Q) (learn : bool)
    (g : Random) (fin : Game) :
  (marker cpu1 = 1 ∧ marker cpu2 = 2) ∨ (marker cpu1 = 2 ∧ marker cpu2 = 1) →
  simulate_game nearest fuel cpu1 cpu2 q stats gen epsilon learn g = Ok fin →
  let n1 := length (moves (g_cpu1 fin)) in
  let n2 := length (moves (g_cpu2 fin)) in
  let result := check_winner (g_board fin) in
  (n2 ≤ n1 ≤ S n2)%nat
  ∧ (5 ≤ n1 + n2 ≤ 9)%nat
  ∧ (n1 + n2 + length (get_valid_moves (g_board fin)) = 9)%nat
  ∧ cells_of (marker cpu1) (g_board fin) = n1
  ∧ cells_of (marker cpu2) (g_board fin) = n2
  ∧ (result = marker cpu1 → n1 = S n2)
  ∧ (result = marker cpu2 → n1 = n2)
  ∧ (result = -1 → n1 = 5%nat ∧ n2 = 4%nat).
Proof.
  intros Hm H. unfold simulate_game in H.
  pose proof (game_loop_table _ _ _ _ _ _ _ _ _ _ _ _ _ _ H) as (Hr & _).
  assert (Hstart : (Cpu1 = Cpu1 ∧ Cpu2 = Cpu2
                    ∧ length (moves (set_moves cpu1 []))
                      = length (moves (set_moves cpu2 [])))
                   ∨ (Cpu1 = Cpu2 ∧ Cpu2 = Cpu1
                      ∧ length (moves (set_moves cpu1 []))
                        = S (length (moves (set_moves cpu2 []))))) by (by left).
  assert (Hnil : ∀ c, Forall canonical (moves (set_moves c []))) by (by constructor).
  assert (Hcells : ∀ c, marker c = 1 ∨ marker c = 2 →
            cells_of (marker (set_moves c [])) new_board
            = length (moves (set_moves c []))).
  { intros c [Hc|Hc]; cbn [marker set_moves]; rewrite Hc; reflexivity. }
  assert (Hm1 : marker (set_moves cpu1 []) = 1 ∨ marker (set_moves cpu1 []) = 2)
    by (cbn; lia).
  assert (Hm2 : marker (set_moves cpu2 []) = 1 ∨ marker (set_moves cpu2 []) = 2)
    by (cbn; lia).
  pose proof (game_loop_shape _ _ _ _ _ _ _ _ _ _ _ _ _
                Hm1 Hm2 H Hstart (Hnil _) (Hnil _))
    as (Halt & Hplies & _).
  assert (Hm' : (marker (set_moves cpu1 []) = 1 ∧ marker (set_moves cpu2 []) = 2)
                 ∨ (marker (set_moves cpu1 []) = 2
                    ∧ marker (set_moves cpu2 []) = 1)) by exact Hm.
  pose proof (game_loop_winner _ _ _ _ _ _ _ _ _ _ _ _ _
                Hm' H Hstart eq_refl
                (Hcells cpu1 ltac:(lia)) (Hcells cpu2 ltac:(lia)))
    as (Hc1 & Hc2 & Hw1 & Hw2).
  cbn [marker set_moves moves length] in *.
  change (length (get_valid_moves new_board)) with 9%nat in Hplies.
  cbv zeta. set (n1 := length (moves (g_cpu1 fin))) in *.
  set (n2 := length (moves (g_cpu2 fin))) in *.
  set (r := check_winner (g_board fin)) in *.
  assert (Hwin : ∀ p, p = 1 ∨ p = 2 → r = p → (3 ≤ cells_of p (g_board fin))%nat).
  { intros p Hp Hrp.
    assert (Hl : has_line (g_board fin) p).
    { by apply first_line_has_line, check_winner_first_line. }
    apply has_line_wins, wins_cells in Hl. by destruct (g_board fin). }
  assert (Hdraw : r = -1 → length (get_valid_moves (g_board fin)) = 0%nat).
  { intros Hd. apply check_winner_draw_iff in Hd as [_ Hf].
    apply full_no_moves in Hf. by rewrite Hf. }
  pose proof (check_winner_values (g_board fin)) as Hv. fold r in Hv.
  split; [done|]. split; [|split; [lia|]]; [|split; [done|]; split; [done|]].
  - destruct Hv as [Hv|[Hv|[Hv|Hv]]]; [specialize (Hdraw Hv); lia|done|..].
    + destruct Hm as [[E1 E2]|[E1 E2]].
      * pose proof (Hwin 1 (or_introl eq_refl) Hv).
        rewrite <- E1 in *. specialize (Hw1 Hv). lia.
      * pose proof (Hwin 1 (or_introl eq_refl) Hv).
        rewrite <- E2 in *. specialize (Hw2 Hv). lia.
    + destruct Hm as [[E1 E2]|[E1 E2]].
      * pose proof (Hwin 2 (or_intror eq_refl) Hv).
        rewrite <- E2 in *. specialize (Hw2 Hv). lia.
      * pose proof (Hwin 2 (or_intror eq_refl) Hv).
        rewrite <- E1 in *. specialize (Hw1 Hv). lia.
  - split; [done|]. split; [done|].
    intros Hd. specialize (Hdraw Hd). lia.
Qed.

(** What holds of every game that returns, between players with markers
    1 and 2. *)
Definition game_course (cpu1 cpu2 : CPU) (fin : Game) : Prop :=
  let n1 := length (moves (g_cpu1 fin)) in
  let n2 := length (moves (g_cpu2 fin)) in
  let result := check_winner (g_board fin) in
  (n2 ≤ n1 ≤ S n2)%nat
  ∧ (5 ≤ n1 + n2 ≤ 9)%nat
  ∧ (n1 + n2 + length (get_valid_moves (g_board fin)) = 9)%nat
  ∧ cells_of (marker cpu1) (g_board fin) = n1
  ∧ cells_of (marker cpu2) (g_board fin) = n2
  ∧ (result = marker cpu1 → n1 = S n2)
  ∧ (result = marker cpu2 → n1 = n2)
  ∧ (result = -1 → n1 = 5%nat ∧ n2 = 4%nat).

(** X20: a game between players with markers 1 and 2, with the two
    counters and a table whose averages are floats, returns, and the
    first player moves first and the two alternate, one cell per ply: the
    game takes 5 to 9 plies, the board then has one marker per recorded
    move, the winner is the player who moved last, and a draw fills the
    board.  The same holds of every call that returns, whatever the
    table, the counters and the fuel. *)
Theorem simulate_game_length (fuel : nat) (cpu1 cpu2 : CPU) (q : table)
    (stats : gmap string Z) (gen : Z) (epsilon : Q) (learn : bool)
    (g : Random) :
  (marker cpu1 = 1 ∧ marker cpu2 = 2) ∨ (marker cpu1 = 2 ∧ marker cpu2 = 1) →
  (∀ fin,
     simulate_game nearest fuel cpu1 cpu2 q stats gen epsilon learn g = Ok fin →
     game_course cpu1 cpu2 fin)
  ∧ (no_overflow q →
     is_Some (stats !! "draws") → is_Some (stats !! "win_loss") →
     (9 ≤ fuel)%nat →
     ∃ fin,
       simulate_game nearest fuel cpu1 cpu2 q stats gen epsilon learn g = Ok fin
       ∧ game_course cpu1 cpu2 fin).
Proof.
  intros Hm.
  assert (Hany : ∀ fin,
            simulate_game nearest fuel cpu1 cpu2 q stats gen epsilon learn g
            = Ok fin → game_course cpu1 cpu2 fin).
  { intros fin H. by apply (game_length fuel cpu1 cpu2 q stats gen epsilon learn g). }
  split; [exact Hany|].
  intros Hq Hd Hw Hfuel.
  destruct (simulate_game_total nearest fuel cpu1 cpu2 q stats gen epsilon learn
              g Hq) as (fin & Hfin & _); [lia|lia|done|done|done|].
  exists fin. split; [done|]. by apply Hany.
Qed.

(** X19: a game with learning adds to the table one count per recorded
    move, so the counts of the table grow by the number of plies; its
    sums grow by the first player's reward times the difference of the
    two history lengths.  Between players with markers 1 and 2, with the
    two counters and a table whose averages are floats, the game returns
    and the counts grow by 5 to 9. *)
Theorem simulate_game_count_mass (fuel : nat) (cpu1 cpu2 : CPU) (q : table)
    (stats : gmap string Z) (gen : Z) (epsilon : Q) (g : Random) :
  (∀ fin,
     simulate_game nearest fuel cpu1 cpu2 q stats gen epsilon true g = Ok fin →
     let n1 := Z.of_nat (length (moves (g_cpu1 fin))) in
     let n2 := Z.of_nat (length (moves (g_cpu2 fin))) in
     total_count (g_q_values fin) = total_count q + n1 + n2
     ∧ total_sum (g_q_values fin)
       = total_sum q
         + reward1_of (check_winner (g_board fin)) (marker cpu1) * (n1 - n2))
  ∧ (no_overflow q →
     (marker cpu1 = 1 ∧ marker cpu2 = 2) ∨ (marker cpu1 = 2 ∧ marker cpu2 = 1) →
     is_Some (stats !! "draws") → is_Some (stats !! "win_loss") →
     (9 ≤ fuel)%nat →
     ∃ fin,
       simulate_game nearest fuel cpu1 cpu2 q stats gen epsilon true g = Ok fin
       ∧ total_count q + 5 ≤ total_count (g_q_values fin) ≤ total_count q + 9).
Proof.
  assert (Hany : ∀ fin,
            simulate_game nearest fuel cpu1 cpu2 q stats gen epsilon true g
            = Ok fin →
            let n1 := Z.of_nat (length (moves (g_cpu1 fin))) in
            let n2 := Z.of_nat (length (moves (g_cpu2 fin))) in
            total_count (g_q_values fin) = total_count q + n1 + n2
            ∧ total_sum (g_q_values fin)
              = total_sum q
                + reward1_of (check_winner (g_board fin)) (marker cpu1)
                  * (n1 - n2)).
  { intros fin H. apply game_loop_table in H as (_ & _ & _ & ->).
    cbn [marker set_moves]. cbv zeta.
    rewrite !total_count_credit, !total_sum_credit. lia. }
  split; [exact Hany|].
  intros Hq Hm Hd Hw Hfuel.
  destruct (simulate_game_total nearest fuel cpu1 cpu2 q stats gen epsilon true
              g Hq) as (fin & Hfin & _); [lia|lia|done|done|done|].
  exists fin. split; [done|].
  pose proof (game_length fuel cpu1 cpu2 q stats gen epsilon true g fin Hm Hfin)
    as (_ & Hplies & _).
  destruct (Hany fin Hfin) as [Hcount _]. cbv zeta in Hplies, Hcount. lia.
Qed.

(** X21: every key a game records is canonical (canonicalising it again
    returns it), and the game changes nothing of the two players but
    their histories; and with markers 1 and 2, the two counters and a
    table whose averages are floats the game returns. *)
Theorem simulate_game_keys (fuel : nat) (cpu1 cpu2 : CPU) (q : table)
    (stats : gmap string Z) (gen : Z) (epsilon : Q) (learn : bool)
    (g : Random) :
  marker cpu1 = 1 ∨ marker cpu1 = 2 →
  marker cpu2 = 1 ∨ marker cpu2 = 2 →
  let kept fin :=
    (∀ k, k ∈ moves (g_cpu1 fin) ++ moves (g_cpu2 fin) →
       canonicalize_state_action k.1 k.2 = Ok k)
    ∧ g_cpu1 fin = set_moves cpu1 (moves (g_cpu1 fin))
    ∧ g_cpu2 fin = set_moves cpu2 (moves (g_cpu2 fin)) in
  (∀ fin,
     simulate_game nearest fuel cpu1 cpu2 q stats gen epsilon learn g = Ok fin →
     kept fin)
  ∧ (no_overflow q →
     is_Some (stats !! "draws") → is_Some (stats !! "win_loss") →
     (9 ≤ fuel)%nat →
     ∃ fin,
       simulate_game nearest fuel cpu1 cpu2 q stats gen epsilon learn g = Ok fin
       ∧ kept fin).
Proof.
  intros Hm1 Hm2 kept.
  assert (Hany : ∀ fin,
            simulate_game nearest fuel cpu1 cpu2 q stats gen epsilon learn g
            = Ok fin → kept fin).
  { intros fin H. unfold simulate_game in H.
    pose proof (game_loop_table _ _ _ _ _ _ _ _ _ _ _ _ _ _ H)
      as (_ & Hk1 & Hk2 & _).
    assert (Hstart : (Cpu1 = Cpu1 ∧ Cpu2 = Cpu2
                      ∧ length (moves (set_moves cpu1 []))
                        = length (moves (set_moves cpu2 [])))
                     ∨ (Cpu1 = Cpu2 ∧ Cpu2 = Cpu1
                        ∧ length (moves (set_moves cpu1 []))
                          = S (length (moves (set_moves cpu2 []))))) by (by left).
    assert (Hnil : ∀ c, Forall canonical (moves (set_moves c [])))
      by (by constructor).
    assert (Hm1' : marker (set_moves cpu1 []) = 1 ∨ marker (set_moves cpu1 []) = 2)
      by exact Hm1.
    assert (Hm2' : marker (set_moves cpu2 []) = 1 ∨ marker (set_moves cpu2 []) = 2)
      by exact Hm2.
    pose proof (game_loop_shape _ _ _ _ _ _ _ _ _ _ _ _ _
                  Hm1' Hm2' H Hstart (Hnil _) (Hnil _))
      as (_ & _ & Hc1 & Hc2 & Hn1 & Hn2 & Hq1 & Hq2).
    cbn [marker name q_values set_moves] in *.
    split.
    - intros k [Hk|Hk]%elem_of_app.
      + by apply (proj1 (Forall_forall _ _) Hc1).
      + by apply (proj1 (Forall_forall _ _) Hc2).
    - destruct (g_cpu1 fin), (g_cpu2 fin). cbn in *. by subst. }
  split; [exact Hany|].
  intros Hq Hd Hw Hfuel.
  destruct (simulate_game_total nearest fuel cpu1 cpu2 q stats gen epsilon learn
              g Hq Hm1 Hm2 Hd Hw Hfuel) as (fin & Hfin & _).
  exists fin. split; [done|]. by apply Hany.
Qed.

(** No key is recorded twice in a game that returns: every turn records
    a key whose state has as many empty cells as the board before the
    move, and the move fills one. *)
Lemma game_loop_nodup fuel cpu1 cpu2 q stats gen epsilon learn board cur oth g fin :
  marker cpu1 = 1 ∨ marker cpu1 = 2 →
  marker cpu2 = 1 ∨ marker cpu2 = 2 →
  game_loop nearest fuel cpu1 cpu2 q stats gen epsilon learn board cur oth g
  = Ok fin →
  NoDup (moves cpu1 ++ moves cpu2) →
  (∀ k, k ∈ moves cpu1 ++ moves cpu2 →
        (length (get_valid_moves board) < empties k.1)%nat) →
  NoDup (moves (g_cpu1 fin) ++ moves (g_cpu2 fin)).
Proof.
  revert cpu1 cpu2 board cur oth g.
  induction fuel as [|fuel IH];
    intros cpu1 cpu2 board cur oth g Hm1 Hm2 H Hnd Hold; [done|].
  apply game_loop_step in H as (move & g' & Hin & H). cbv zeta in H.
  assert (Hp : marker (player cur cpu1 cpu2) = 1 ∨ marker (player cur cpu1 cpu2) = 2)
    by (by destruct cur).
  apply legal_valid_moves in Hin as Hlegal.
  pose proof (empties_after_move nearest board _ move Hlegal Hp) as Hless.
  set (k0 := ckey (state board) move) in *.
  set (board' := (make_move_cpu board (marker (player cur cpu1 cpu2)) move).2) in *.
  set (cs := record_move cur cpu1 cpu2 k0) in *.
  assert (Hk0 : k0 ∉ moves cpu1 ++ moves cpu2).
  { intros Hk%Hold. unfold k0 in Hk.
    rewrite empties_ckey, <- length_valid_moves in Hk. lia. }
  assert (Hcs : marker cs.1 = marker cpu1 ∧ marker cs.2 = marker cpu2
                ∧ NoDup (moves cs.1 ++ moves cs.2)
                ∧ ∀ k, k ∈ moves cs.1 ++ moves cs.2 →
                       k = k0 ∨ k ∈ moves cpu1 ++ moves cpu2).
  { unfold cs. destruct cur; cbn [record_move fst snd marker moves set_moves].
    - split; [done|]. split; [done|]. split; [by apply NoDup_snoc_l|].
      intros k. rewrite !elem_of_app, list_elem_of_singleton. tauto.
    - split; [done|]. split; [done|]. split; [by apply NoDup_snoc_r|].
      intros k. rewrite !elem_of_app, list_elem_of_singleton. tauto. }
  destruct Hcs as (Hc1 & Hc2 & Hnd' & Hin').
  destruct (_ =? 0).
  - apply IH in H; [done|by rewrite Hc1|by rewrite Hc2|done|].
    intros k [->|Hk]%Hin'.
    + unfold k0. rewrite empties_ckey, <- length_valid_moves. lia.
    + apply Hold in Hk. lia.
  - by destruct H as (-> & -> & _).
Qed.

(** C2: between two players with markers 1 and 2, every game with
    learning that returns has recorded 5 to 9 keys, those of the first
    player and those of the second in turn; every key recorded by the
    winner has its sum raised by 1 and every key recorded by the loser
    lowered by 1 (by 0 for both after a draw); every recorded key has its
    count raised by 1; no key is recorded twice in a game; no other entry
    changes.  With the two counters in [stats] and a table whose averages
    are floats the game does return. *)
Theorem simulate_game_rewards (fuel : nat) (cpu1 cpu2 : CPU) (q : table)
    (stats : gmap string Z) (gen : Z) (epsilon : Q) (g : Random) :
  (marker cpu1 = 1 ∧ marker cpu2 = 2) ∨ (marker cpu1 = 2 ∧ marker cpu2 = 1) →
  let rewarded fin :=
    let result := check_winner (g_board fin) in
    let q' := g_q_values fin in
    let n1 := length (moves (g_cpu1 fin)) in
    let n2 := length (moves (g_cpu2 fin)) in
    (result = -1 ∨ result = marker cpu1 ∨ result = marker cpu2)
    ∧ (n2 ≤ n1 ≤ S n2)%nat ∧ (5 ≤ n1 + n2 ≤ 9)%nat
    ∧ NoDup (moves (g_cpu1 fin) ++ moves (g_cpu2 fin))
    ∧ (∀ k, k ∈ moves (g_cpu1 fin) →
         q' !! k = Some ((get q k).1 + won result cpu1, (get q k).2 + 1))
    ∧ (∀ k, k ∈ moves (g_cpu2 fin) →
         q' !! k = Some ((get q k).1 + won result cpu2, (get q k).2 + 1))
    ∧ (∀ k, k ∉ moves (g_cpu1 fin) → k ∉ moves (g_cpu2 fin) →
         q' !! k = q !! k) in
  (∀ fin,
     simulate_game nearest fuel cpu1 cpu2 q stats gen epsilon true g = Ok fin →
     rewarded fin)
  ∧ (is_Some (stats !! "draws") → is_Some (stats !! "win_loss") →
     (9 ≤ fuel)%nat → no_overflow q →
     ∃ fin,
       simulate_game nearest fuel cpu1 cpu2 q stats gen epsilon true g = Ok fin
       ∧ rewarded fin).
Proof.
  intros Hm rewarded.
  assert (Hany : ∀ fin,
            simulate_game nearest fuel cpu1 cpu2 q stats gen epsilon true g
            = Ok fin → rewarded fin).
  { intros fin Hfin.
    pose proof (game_length fuel cpu1 cpu2 q stats gen epsilon true g fin Hm Hfin)
      as (Halt & Hplies & _). cbv zeta in Halt, Hplies.
    assert (Hnd : NoDup (moves (g_cpu1 fin) ++ moves (g_cpu2 fin))).
    { unfold simulate_game in Hfin.
      assert (Hm1 : marker (set_moves cpu1 []) = 1 ∨ marker (set_moves cpu1 []) = 2)
        by (cbn; lia).
      assert (Hm2 : marker (set_moves cpu2 []) = 1 ∨ marker (set_moves cpu2 []) = 2)
        by (cbn; lia).
      apply (game_loop_nodup _ _ _ _ _ _ _ _ _ _ _ _ _ Hm1 Hm2 Hfin).
      - constructor.
      - intros k Hk. by apply elem_of_nil in Hk. }
    apply game_loop_table in Hfin as (Hr & _ & _ & Hq).
    cbn [marker set_moves] in Hq. unfold rewarded. cbv zeta. rewrite Hq.
    pose proof (check_winner_values (g_board fin)) as Hv.
    apply NoDup_app in Hnd as (Hnd1 & Hdisj & Hnd2).
    set (r := check_winner (g_board fin)) in *.
    assert (Hw1 : reward1_of r (marker cpu1) = won r cpu1) by done.
    assert (Hw2 : - reward1_of r (marker cpu1) = won r cpu2).
    { unfold reward1_of, won. repeat case_match; lia. }
    rewrite Hw2, Hw1.
    split; [lia|]. split; [done|]. split; [done|].
    split; [by apply NoDup_app|]. split; [|split].
    - intros k Hk. rewrite credit_notin by auto. by apply credit_in.
    - intros k Hk. rewrite credit_in by done.
      unfold get. rewrite credit_notin; [done|].
      intros Hk1. by apply (Hdisj k).
    - intros k Hk1 Hk2. by rewrite !credit_notin. }
  split; [exact Hany|].
  intros Hd Hw Hfuel Hq0.
  destruct (simulate_game_total nearest fuel cpu1 cpu2 q stats gen epsilon true
              g Hq0)
    as (fin & Hfin & _); [lia..|done|done|done|].
  exists fin. split; [done|]. by apply Hany.
Qed.

End GameProperties.

(** The game of [demo_cpu1] against [demo_cpu2] on [demo_table], in the
    epsilon-greedy regime. *)
Definition demo_game : py Game :=
  simulate_game exact_div 9 demo_cpu1 demo_cpu2 demo_table demo_stats 2
    (1 # 10) true demo_random.

Lemma demo_game_Ok : ∃ fin, demo_game = Ok fin.
Proof. vm_compute. eexists. reflexivity. Defined.

Lemma simulate_game_stats_witness :
  ∃ fin, demo_game = Ok fin
    ∧ let c := if check_winner (g_board fin) =? -1 then "draws" else "win_loss" in
      ∃ v, demo_stats !! c = Some v
        ∧ g_stats fin !! c = Some (v + 1)
        ∧ ∀ c', c' ≠ c → g_stats fin !! c' = demo_stats !! c'.
Proof.
  destruct demo_game_Ok as [fin H]. exists fin. split; [exact H|].
  exact (simulate_game_stats exact_div 9 demo_cpu1 demo_cpu2 demo_table
           demo_stats 2 (1 # 10) true demo_random fin H).
Defined.


Lemma simulate_game_count_mass_witness :
  ∃ fin, demo_game = Ok fin
    ∧ total_count demo_table + 5 ≤ total_count (g_q_values fin)
      ≤ total_count demo_table + 9.
Proof.
  apply (proj2 (simulate_game_count_mass exact_div 9 demo_cpu1 demo_cpu2
                  demo_table demo_stats 2 (1 # 10) demo_random)).
  - exact demo_table_no_overflow.
  - left. split; reflexivity.
  - exists 0. reflexivity.
  - exists 0. reflexivity.
  - lia.
Defined.

Lemma simulate_game_length_witness :
  ∃ fin, demo_game = Ok fin ∧ game_course demo_cpu1 demo_cpu2 fin.
Proof.
  apply (proj2 (simulate_game_length exact_div 9 demo_cpu1 demo_cpu2 demo_table
                  demo_stats 2 (1 # 10) true demo_random
                  (or_introl (conj eq_refl eq_refl)))).
  - exact demo_table_no_overflow.
  - exists 0. reflexivity.
  - exists 0. reflexivity.
  - lia.
Defined.

Lemma simulate_game_keys_witness :
  ∃ fin, demo_game = Ok fin
    ∧ (∀ k, k ∈ moves (g_cpu1 fin) ++ moves (g_cpu2 fin) →
         canonicalize_state_action k.1 k.2 = Ok k)
    ∧ g_cpu1 fin = set_moves demo_cpu1 (moves (g_cpu1 fin))
    ∧ g_cpu2 fin = set_moves demo_cpu2 (moves (g_cpu2 fin)).
Proof.
  apply (proj2 (simulate_game_keys exact_div 9 demo_cpu1 demo_cpu2 demo_table
                  demo_stats 2 (1 # 10) true demo_random
                  (or_introl eq_refl) (or_intror eq_refl))).
  - exact demo_table_no_overflow.
  - exists 0. reflexivity.
  - exists 0. reflexivity.
  - lia.
Defined.

Lemma simulate_game_rewards_witness :
  ∃ fin,
    simulate_game exact_div 9 demo_cpu1 demo_cpu2 demo_table demo_stats 1
      (1 # 10) true demo_random = Ok fin
    ∧ let result := check_winner (g_board fin) in
      let q' := g_q_values fin in
      let n1 := length (moves (g_cpu1 fin)) in
      let n2 := length (moves (g_cpu2 fin)) in
      (result = -1 ∨ result = marker demo_cpu1 ∨ result = marker demo_cpu2)
      ∧ (n2 ≤ n1 ≤ S n2)%nat ∧ (5 ≤ n1 + n2 ≤ 9)%nat
      ∧ NoDup (moves (g_cpu1 fin) ++ moves (g_cpu2 fin))
      ∧ (∀ k, k ∈ moves (g_cpu1 fin) →
           q' !! k = Some ((get demo_table k).1 + won result demo_cpu1,
                           (get demo_table k).2 + 1))
      ∧ (∀ k, k ∈ moves (g_cpu2 fin) →
           q' !! k = Some ((get demo_table k).1 + won result demo_cpu2,
                           (get demo_table k).2 + 1))
      ∧ (∀ k, k ∉ moves (g_cpu1 fin) → k ∉ moves (g_cpu2 fin) →
           q' !! k = demo_table !! k).
Proof.
  apply (proj2 (simulate_game_rewards exact_div 9 demo_cpu1 demo_cpu2 demo_table
                  demo_stats 1 (1 # 10) demo_random
                  (or_introl (conj eq_refl eq_refl)))).
  - exists 0. reflexivity.
  - exists 0. reflexivity.
  - lia.
  - exact demo_table_no_overflow.
Defined.

(** ** Training *)

(** The float [0.1]: the double nearest to one tenth. *)
Definition float_0_1 : Q := 3602879701896397 # 36028797018963968.

(** [stats[k]] *)
Definition getkey (stats : gmap string Z) (k : string) : py Z :=
  match stats !! k with
  | Some v => Ok v
  | None => Raise KeyError
  end.

(** What one [print] of [train_cpus] shows: the generation, the number of
    games asked for and the two counters. *)
Record Report := {
  r_gen : Z;
  r_games : Z;
  r_win_loss : Z;
  r_draws : Z
}.

(** What [train_cpus] returns and prints; the elapsed time it also
    returns is wall-clock time and is left out. *)
Record Training := {
  t_q_values : table;
  t_printed : list Report;
  t_random : Random
}.

Section Training.
Variable nearest : Z → Z → Q.

(** [stats = {'win_loss': 0, 'draws': 0}] *)
Definition new_stats : gmap string Z := <["draws" := 0]> {["win_loss" := 0]}.

(** [for _ in range(games): simulate_game(cpu1, cpu2, q_values, stats, ...)]
    followed by the [print] of the counters. *)
Definition play_games (fuel : nat) (games gen : Z) (epsilon : Q) (learn : bool)
    (s : CPU * CPU * table * gmap string Z * Random)
    : py (CPU * CPU * table * gmap string Z * Random) :=
  for_each (range games)
    (λ '(cpu1, cpu2, q_values, stats, g) _,
       fin ← simulate_game nearest fuel cpu1 cpu2 q_values stats gen epsilon
               learn g;
       mret (g_cpu1 fin, g_cpu2 fin, g_q_values fin, g_stats fin, g_random fin))
    s.

Definition report (gen games : Z) (stats : gmap string Z) : py Report :=
  win_loss ← getkey stats "win_loss";
  draws ← getkey stats "draws";
  mret {| r_gen := gen; r_games := games; r_win_loss := win_loss;
          r_draws := draws |}.

Definition train_cpus (fuel : nat) (first_gen_games second_gen_games
    test_games : Z) (q_values : option table) (g : Random) : py Training :=
  let q_values := match q_values with None => ∅ | Some q => q end in
  let cpu1 := new_cpu "CPU 1" 1 in
  let cpu2 := new_cpu "CPU 2" 2 in
  let stats := new_stats in
  '(cpu1, cpu2, q_values, stats, g) ←
    play_games fuel first_gen_games 1 float_0_1 true
      (cpu1, cpu2, q_values, stats, g);
  r1 ← report 1 first_gen_games stats;
  let stats := new_stats in
  '(cpu1, cpu2, q_values, stats, g) ←
    play_games fuel second_gen_games 2 float_0_1 true
      (cpu1, cpu2, q_values, stats, g);
  r2 ← report 2 second_gen_games stats;
  if 0 <? test_games
  then
    let stats := new_stats in
    '(cpu1, cpu2, q_values, stats, g) ←
      play_games fuel test_games 3 0 false (cpu1, cpu2, q_values, stats, g);
    r3 ← report 3 test_games stats;
    mret {| t_q_values := q_values; t_printed := [r1; r2; r3]; t_random := g |}
  else
    mret {| t_q_values := q_values; t_printed := [r1; r2]; t_random := g |}.


(** One game of a training run, summed up. *)
Lemma game_summary fuel cpu1 cpu2 q stats gen epsilon learn g w d :
  (9 ≤ fuel)%nat → marker cpu1 = 1 → marker cpu2 = 2 →
  stats !! "win_loss" = Some w → stats !! "draws" = Some d →
  table_ok q →
  ∃ fin w' d',
    simulate_game nearest fuel cpu1 cpu2 q stats gen epsilon learn g = Ok fin
    ∧ marker (g_cpu1 fin) = 1 ∧ marker (g_cpu2 fin) = 2
    ∧ g_stats fin !! "win_loss" = Some w' ∧ g_stats fin !! "draws" = Some d'
    ∧ w ≤ w' ∧ d ≤ d' ∧ w' + d' = w + d + 1
    ∧ table_ok (g_q_values fin)
    ∧ (learn = false → g_q_values fin = q)
    ∧ (learn = true →
       total_count q + 5 ≤ total_count (g_q_values fin) ≤ total_count q + 9).
Proof.
  intros Hfuel Hm1 Hm2 Hw Hd Hok.
  destruct (simulate_game_total nearest fuel cpu1 cpu2 q stats gen epsilon
              learn g) as (fin & Hfin & _);
    [by apply table_ok_no_overflow|lia|lia|by exists d|by exists w|exact Hfuel|].
  pose proof (game_length nearest fuel cpu1 cpu2 q stats gen epsilon learn g fin
                ltac:(lia) Hfin) as (_ & Hplies & _).
  cbv zeta in Hplies.
  pose proof Hfin as Hs. unfold simulate_game in Hs.
  apply game_loop_stats in Hs as (v & Hv & Hst).
  pose proof Hfin as Ht. unfold simulate_game in Ht.
  apply game_loop_table in Ht as (_ & Hk1 & Hk2 & Hq).
  cbn [marker set_moves] in *.
  assert (Hstats : ∃ w' d', g_stats fin !! "win_loss" = Some w'
                     ∧ g_stats fin !! "draws" = Some d'
                     ∧ w ≤ w' ∧ d ≤ d' ∧ w' + d' = w + d + 1).
  { rewrite Hst. unfold counter in *. destruct (_ =? -1).
    - exists w, (d + 1). rewrite lookup_insert_ne, lookup_insert_eq by done.
      assert (v = d) by congruence. subst. split_and!; try done; lia.
    - exists (w + 1), d. rewrite lookup_insert_eq, lookup_insert_ne by done.
      assert (v = w) by congruence. subst. split_and!; try done; lia. }
  destruct Hstats as (w' & d' & Hw' & Hd' & Hle1 & Hle2 & Hsum).
  exists fin, w', d'. split; [done|].
  split; [lia|]. split; [lia|]. split; [done|]. split; [done|].
  split; [done|]. split; [done|]. split; [done|]. split; [|split].
  - rewrite Hq. destruct learn; [|done].
    pose proof (reward1_of_range (check_winner (g_board fin)) (marker cpu1)).
    apply credit_ok; [lia|]. by apply credit_ok.
  - intros ->. done.
  - intros ->. rewrite Hq, !total_count_credit. lia.
Qed.

(** A batch of games of one regime. *)
Lemma play_games_summary fuel games gen epsilon learn cpu1 cpu2 q stats g w d :
  (9 ≤ fuel)%nat → marker cpu1 = 1 → marker cpu2 = 2 →
  stats !! "win_loss" = Some w → stats !! "draws" = Some d →
  table_ok q →
  ∃ cpu1' cpu2' q' stats' g' w' d',
    play_games fuel games gen epsilon learn (cpu1, cpu2, q, stats, g)
    = Ok (cpu1', cpu2', q', stats', g')
    ∧ marker cpu1' = 1 ∧ marker cpu2' = 2
    ∧ stats' !! "win_loss" = Some w' ∧ stats' !! "draws" = Some d'
    ∧ w ≤ w' ∧ d ≤ d' ∧ w' + d' = w + d + Z.max 0 games
    ∧ table_ok q'
    ∧ (learn = false → q' = q)
    ∧ (learn = true →
       total_count q + 5 * Z.max 0 games ≤ total_count q'
       ≤ total_count q + 9 * Z.max 0 games).
Proof.
  intros Hfuel. unfold play_games.
  assert (Hlen : Z.max 0 games = Z.of_nat (length (range games))).
  { unfold range. rewrite length_seqZ. lia. }
  rewrite Hlen. clear Hlen.
  generalize (range games) as l.
  intros l. revert cpu1 cpu2 q stats g w d.
  induction l as [|x l IH]; intros cpu1 cpu2 q stats g w d Hm1 Hm2 Hw Hd Hq.
  - exists cpu1, cpu2, q, stats, g, w, d. cbn.
    split_and!; try done; lia.
  - cbn [for_each].
    destruct (game_summary fuel cpu1 cpu2 q stats gen epsilon learn g w d)
      as (fin & w1 & d1 & -> & Hk1 & Hk2 & Hw1 & Hd1 & Hle1 & Hle2 & Hsum
          & Hok & Hsame & Hmass); try done.
    cbn [mbind py_bind mret py_ret].
    destruct (IH (g_cpu1 fin) (g_cpu2 fin) (g_q_values fin) (g_stats fin)
                (g_random fin) w1 d1)
      as (cpu1' & cpu2' & q' & stats' & g' & w' & d' & -> & Hk1' & Hk2' & Hw'
          & Hd' & Hle1' & Hle2' & Hsum' & Hok' & Hsame' & Hmass'); try done.
    exists cpu1', cpu2', q', stats', g', w', d'.
    cbn [length]. split; [done|]. split; [done|]. split; [done|].
    split; [done|]. split; [done|]. split; [lia|]. split; [lia|].
    split; [lia|]. split; [done|]. split.
    + intros Hl. rewrite Hsame', Hsame by done. done.
    + intros Hl. specialize (Hmass Hl). specialize (Hmass' Hl). lia.
Qed.


(** What a printed report must satisfy: it names the generation and the
    number of games asked for, and its two counters are not negative and
    add up to the number of games played. *)
Definition report_ok (gen games : Z) (r : Report) : Prop :=
  r_gen r = gen ∧ r_games r = games
  ∧ 0 ≤ r_win_loss r ∧ 0 ≤ r_draws r
  ∧ r_win_loss r + r_draws r = Z.max 0 games.

Lemma new_stats_lookup :
  new_stats !! "win_loss" = Some 0 ∧ new_stats !! "draws" = Some 0.
Proof. split; reflexivity. Qed.

Lemma train_cpus_summary fuel a b n qv g :
  (9 ≤ fuel)%nat →
  let q0 := match qv with None => ∅ | Some q => q end in
  table_ok q0 →
  ∃ t r1 r2,
    train_cpus fuel a b n qv g = Ok t
    ∧ report_ok 1 a r1 ∧ report_ok 2 b r2
    ∧ (if 0 <? n
       then ∃ r3, report_ok 3 n r3 ∧ t_printed t = [r1; r2; r3]
       else t_printed t = [r1; r2])
    ∧ table_ok (t_q_values t)
    ∧ total_count q0 + 5 * (Z.max 0 a + Z.max 0 b)
      ≤ total_count (t_q_values t)
      ≤ total_count q0 + 9 * (Z.max 0 a + Z.max 0 b)
    ∧ ∃ t0, train_cpus fuel a b 0 qv g = Ok t0
        ∧ t_q_values t0 = t_q_values t ∧ t_printed t0 = [r1; r2].
Proof.
  intros Hfuel q0 Hok0. unfold train_cpus. fold q0.
  destruct new_stats_lookup as [Hw0 Hd0].
  destruct (play_games_summary fuel a 1 float_0_1 true (new_cpu "CPU 1" 1)
              (new_cpu "CPU 2" 2) q0 new_stats g 0 0 Hfuel eq_refl eq_refl
              Hw0 Hd0 Hok0)
    as (c1 & c2 & q1 & s1 & g1 & w1 & d1 & -> & Hk1 & Hk2 & Hw1 & Hd1 & Hle1
        & Hle1' & Hsum1 & Hok1 & _ & Hmass1).
  cbn [mbind py_bind]. unfold report, getkey. rewrite Hw1, Hd1.
  cbn [mbind py_bind mret py_ret].
  destruct (play_games_summary fuel b 2 float_0_1 true c1 c2 q1 new_stats g1
              0 0 Hfuel Hk1 Hk2 Hw0 Hd0 Hok1)
    as (c1' & c2' & q2 & s2 & g2 & w2 & d2 & -> & Hk1' & Hk2' & Hw2 & Hd2 & Hle2
        & Hle2' & Hsum2 & Hok2 & _ & Hmass2).
  cbn [mbind py_bind]. rewrite Hw2, Hd2. cbn [mbind py_bind mret py_ret].
  specialize (Hmass1 eq_refl). specialize (Hmass2 eq_refl).
  set (r1 := {| r_gen := 1; r_games := a; r_win_loss := w1; r_draws := d1 |}).
  set (r2 := {| r_gen := 2; r_games := b; r_win_loss := w2; r_draws := d2 |}).
  assert (Hr1 : report_ok 1 a r1) by (unfold report_ok; cbn; lia).
  assert (Hr2 : report_ok 2 b r2) by (unfold report_ok; cbn; lia).
  change (0 <? 0) with false. cbv iota.
  destruct (0 <? n) eqn:En.
  - destruct (play_games_summary fuel n 3 0 false c1' c2' q2 new_stats g2
                0 0 Hfuel Hk1' Hk2' Hw0 Hd0 Hok2)
      as (c1'' & c2'' & q3 & s3 & g3 & w3 & d3 & -> & _ & _ & Hw3 & Hd3 & Hle3
          & Hle3' & Hsum3 & _ & Hsame & _).
    cbn [mbind py_bind]. rewrite Hw3, Hd3. cbn [mbind py_bind mret py_ret].
    rewrite (Hsame eq_refl).
    eexists _, r1, r2. split; [done|]. cbn [t_q_values t_printed].
    split; [done|]. split; [done|]. split.
    { eexists. split; [|done]. unfold report_ok; cbn; lia. }
    split; [done|]. split; [lia|]. eexists. split; [done|]. done.
  - eexists _, r1, r2. split; [done|]. cbn [t_q_values t_printed].
    split; [done|]. split; [done|]. split; [done|].
    split; [done|]. split; [lia|]. eexists. split; [done|]. done.
Qed.

(** X22: given no table, or one that satisfies the value-table invariant
    (so that every average is a float), [train_cpus] returns for any
    numbers of games (a negative number plays none): it prints one report
    per regime, the third only when [test_games > 0]; in each report the
    wins/losses and the draws add up to the number of games played; and
    the returned table satisfies the invariant. *)
Theorem train_cpus_reports (fuel : nat) (first_gen_games second_gen_games
    test_games : Z) (tbl : option table) (g : Random) :
  (9 ≤ fuel)%nat →
  table_ok (match tbl with None => ∅ | Some q => q end) →
  ∃ t r1 r2,
    train_cpus fuel first_gen_games second_gen_games test_games tbl g = Ok t
    ∧ report_ok 1 first_gen_games r1 ∧ report_ok 2 second_gen_games r2
    ∧ (if 0 <? test_games
       then ∃ r3, report_ok 3 test_games r3 ∧ t_printed t = [r1; r2; r3]
       else t_printed t = [r1; r2])
    ∧ table_ok (t_q_values t).
Proof.
  intros Hfuel Hok0.
  destruct (train_cpus_summary fuel first_gen_games second_gen_games test_games
              tbl g Hfuel Hok0) as (t & r1 & r2 & H & Hr1 & Hr2 & Hp & Hok & _).
  by exists t, r1, r2.
Qed.

(** X23: the evaluation games do not touch the table: given no table or
    one that satisfies the value-table invariant, [train_cpus] with any
    number of test games returns the table it returns with none. *)
Theorem train_cpus_evaluation (fuel : nat) (first_gen_games second_gen_games
    test_games : Z) (tbl : option table) (g : Random) :
  (9 ≤ fuel)%nat →
  table_ok (match tbl with None => ∅ | Some q => q end) →
  ∃ t t0,
    train_cpus fuel first_gen_games second_gen_games test_games tbl g = Ok t
    ∧ train_cpus fuel first_gen_games second_gen_games 0 tbl g = Ok t0
    ∧ t_q_values t = t_q_values t0.
Proof.
  intros Hfuel Hok0.
  destruct (train_cpus_summary fuel first_gen_games second_gen_games test_games
              tbl g Hfuel Hok0)
    as (t & r1 & r2 & H & _ & _ & _ & _ & _ & t0 & H0 & Hq & _).
  by exists t, t0.
Qed.

(** X24: given no table or one that satisfies the value-table invariant,
    training adds between 5 and 9 counts to the table for every game of
    the two learning regimes, one per ply, and none for the test games;
    the table is left as given when no learning game is asked for. *)
Theorem train_cpus_count_mass (fuel : nat) (first_gen_games second_gen_games
    test_games : Z) (tbl : option table) (g : Random) :
  (9 ≤ fuel)%nat →
  let q0 := match tbl with None => ∅ | Some q => q end in
  let games := Z.max 0 first_gen_games + Z.max 0 second_gen_games in
  table_ok q0 →
  ∃ t,
    train_cpus fuel first_gen_games second_gen_games test_games tbl g = Ok t
    ∧ total_count q0 + 5 * games ≤ total_count (t_q_values t)
      ≤ total_count q0 + 9 * games.
Proof.
  intros Hfuel q0 games Hok0.
  destruct (train_cpus_summary fuel first_gen_games second_gen_games test_games
              tbl g Hfuel Hok0) as (t & r1 & r2 & H & _ & _ & _ & _ & Hmass & _).
  by exists t.
Qed.

End Training.

Lemma table_ok_empty : table_ok (∅ : table).
Proof. intros k total count. by rewrite lookup_empty. Qed.

Lemma train_cpus_reports_witness :
  ∃ t r1 r2,
    train_cpus exact_div 9 3 2 1 None demo_random = Ok t
    ∧ report_ok 1 3 r1 ∧ report_ok 2 2 r2
    ∧ (if 0 <? 1
       then ∃ r3, report_ok 3 1 r3 ∧ t_printed t = [r1; r2; r3]
       else t_printed t = [r1; r2])
    ∧ table_ok (t_q_values t).
Proof.
  apply (train_cpus_reports exact_div 9 3 2 1 None demo_random).
  - lia.
  - exact table_ok_empty.
Defined.

Lemma train_cpus_evaluation_witness :
  ∃ t t0,
    train_cpus exact_div 9 3 2 4 (Some demo_table) demo_random = Ok t
    ∧ train_cpus exact_div 9 3 2 0 (Some demo_table) demo_random = Ok t0
    ∧ t_q_values t = t_q_values t0.
Proof.
  apply (train_cpus_evaluation exact_div 9 3 2 4 (Some demo_table) demo_random).
  - lia.
  - exact demo_table_ok.
Defined.

Lemma train_cpus_count_mass_witness :
  ∃ t,
    train_cpus exact_div 9 3 2 4 (Some demo_table) demo_random = Ok t
    ∧ total_count demo_table + 5 * (Z.max 0 3 + Z.max 0 2)
      ≤ total_count (t_q_values t)
      ≤ total_count demo_table + 9 * (Z.max 0 3 + Z.max 0 2).
Proof.
  apply (train_cpus_count_mass exact_div 9 3 2 4 (Some demo_table) demo_random).
  - lia.
  - exact demo_table_ok.
Defined.

(** ** Watching two players *)

From Stdlib Require Import Ascii.
From stdpp Require Import pretty.
Local Open Scope Z_scope.

(** What a run shows on the terminal: the argument of each [print] (which
    adds a line feed of its own) and each [time.sleep]. *)
Inductive event :=
| Print (text : string)
| Sleep (seconds : Q).

(** The line feed, written [\n] in the source. *)
Definition nl : string := String (Ascii.ascii_of_nat 10) "".

(** [symbols[v]] with [symbols = {0: ' ', 1: 'X', 2: 'O'}] *)
Definition symbols (v : Z) : py string :=
  if v =? 0 then Ok " "
  else if v =? 1 then Ok "X"
  else if v =? 2 then Ok "O"
  else Raise KeyError.

(** [Board.display]: the lines it prints. *)
Definition display (b : Board) : py (list event) :=
  for_each (range 3)
    (λ out r,
       row ← for_each (range 3)
                (λ row c, s ← symbols (_get_cell b r c); mret (row ++ [s])) [];
       let out := out ++ [Print (pretty r +:+ "  " +:+ String.concat " | " row)] in
       mret (if r <? 2 then out ++ [Print ("  " +:+ "-----------")] else out))
    [Print "   0   1   2"].

(** [cpu.q_values = q_values] *)
Definition set_q_values (c : CPU) (q : table) : CPU :=
  {| name := name c; marker := marker c; q_values := q; moves := moves c |}.

(** The character shown for a cell, and a row as [display] prints it. *)
Definition symbol (v : Z) : Ascii.ascii :=
  if v =? 1 then "X"%char else if v =? 2 then "O"%char else " "%char.

Definition row_text (b : Board) (r : Z) : string :=
  pretty r +:+ "  "
  +:+ String (symbol (_get_cell b r 0))
        (" | " +:+ String (symbol (_get_cell b r 1))
                     (" | " +:+ String (symbol (_get_cell b r 2)) "")).

Lemma symbols_cell b r c :
  symbols (_get_cell b r c) = Ok (String (symbol (_get_cell b r c)) "").
Proof.
  pose proof (get_cell_range b r c) as H. unfold symbols, symbol.
  destruct (Z.eqb_spec (_get_cell b r c) 0) as [->|]; [done|].
  destruct (Z.eqb_spec (_get_cell b r c) 1); [done|].
  destruct (Z.eqb_spec (_get_cell b r c) 2); [done|]. lia.
Qed.

Lemma display_Ok b :
  display b
  = Ok [Print "   0   1   2"; Print (row_text b 0); Print "  -----------";
        Print (row_text b 1); Print "  -----------"; Print (row_text b 2)].
Proof.
  unfold display. change (range 3) with [0; 1; 2].
  cbn [for_each]. rewrite !symbols_cell. reflexivity.
Qed.

Lemma symbol_inj v w : 0 ≤ v < 3 → 0 ≤ w < 3 → symbol v = symbol w → v = w.
Proof.
  intros Hv Hw.
  assert (Hv' : v = 0 ∨ v = 1 ∨ v = 2) by lia.
  assert (Hw' : w = 0 ∨ w = 1 ∨ w = 2) by lia.
  destruct Hv' as [-> | [-> | ->] ], Hw' as [-> | [-> | ->] ]; done.
Qed.

(** X25: [display] never raises, whatever the state: it prints the header,
    the three rows and two separators, each row showing its number and
    its three cells as X, O or blank; and what it prints determines every
    cell of the board. *)
Theorem display_shows_cells (b : Board) :
  display b
  = Ok [Print "   0   1   2"; Print (row_text b 0); Print "  -----------";
        Print (row_text b 1); Print "  -----------"; Print (row_text b 2)]
  ∧ ∀ b', display b' = display b →
      ∀ row col, 0 ≤ row < 3 → 0 ≤ col < 3 →
        _get_cell b' row col = _get_cell b row col.
Proof.
  split; [apply display_Ok|].
  intros b'. rewrite !display_Ok. unfold row_text.
  intros [= ? ? ? ? ? ? ? ? ?] row col Hr Hc.
  assert (Hr' : row = 0 ∨ row = 1 ∨ row = 2) by lia.
  assert (Hc' : col = 0 ∨ col = 1 ∨ col = 2) by lia.
  destruct Hr' as [-> | [-> | ->] ], Hc' as [-> | [-> | ->] ];
    (apply symbol_inj; [apply get_cell_range..|assumption]).
Qed.

(** What [play_cpu_vs_cpu] prints last. *)
Definition final_text (result : Z) (a b : CPU) : string :=
  if result =? -1 then nl +:+ "It's a draw!" +:+ nl
  else if result =? marker a then nl +:+ name a +:+ " wins!" +:+ nl
  else nl +:+ name b +:+ " wins!" +:+ nl.

Section Watching.
Variable nearest : Z → Z → Q.

(** What may be passed as [seconds]: an int or a float. *)
Variable number : Type.

(** What [time.sleep] makes of it: the exception it raises
    ([OverflowError] for a length that the clock cannot hold, which it
    tests first; [ValueError] for a negative length or a NaN), or the
    length it sleeps for.  The limits are those of the platform's
    clock. *)
Variable sleep_outcome : number → exn + Q.

(** [time.sleep(seconds)] *)
Definition time_sleep (seconds : number) : py (list event) :=
  match sleep_outcome seconds with
  | inl e => Raise e
  | inr pause => Ok [Sleep pause]
  end.

(** The loop of [play_cpu_vs_cpu]; [out] collects what was shown so far.
    The two players are local objects that only the loop refers to, so
    the two references are the players themselves. *)
Fixpoint watch_loop (fuel : nat) (q : table) (seconds : number) (board : Board)
    (current_player other_player : CPU) (g : Random) (out : list event)
    : py (list event * Board * Random) :=
  match fuel with
  | O => OutOfFuel
  | S fuel' =>
      '(move, current_player, g) ←
        get_and_save_move nearest current_player board 3 (Some q) 0 g;
      let board := (make_move_cpu board (marker current_player) move).2 in
      let '(row, col) := divmod move 3 in
      let out :=
        out ++ [Print (nl +:+ name current_player +:+ " played at row "
                       +:+ pretty row +:+ ", col " +:+ pretty col +:+ nl)] in
      shown ← display board;
      slept ← time_sleep seconds;
      let out := (out ++ shown) ++ slept in
      let result := check_winner board in
      if negb (result =? 0)
      then
        let text :=
          if result =? -1 then nl +:+ "It's a draw!" +:+ nl
          else if result =? marker current_player
          then nl +:+ name current_player +:+ " wins!" +:+ nl
          else nl +:+ name other_player +:+ " wins!" +:+ nl in
        mret (out ++ [Print text], board, g)
      else
        watch_loop fuel' q seconds board other_player current_player g out
  end.

(** Returns what was shown, with the final board and the random source. *)
Definition play_cpu_vs_cpu (fuel : nat) (q_values : table)
    (cpu1_marker cpu2_marker : Z) (seconds : number) (g : Random)
    : py (list event * Board * Random) :=
  let cpu1 := new_cpu "CPU 1" cpu1_marker in
  let cpu2 := new_cpu "CPU 2" cpu2_marker in
  let cpu1 := set_q_values cpu1 q_values in
  let cpu2 := set_q_values cpu2 q_values in
  let board := new_board in
  let '(current_player, other_player) :=
    if cpu1_marker =? 1 then (cpu1, cpu2) else (cpu2, cpu1) in
  shown ← display board;
  slept ← time_sleep seconds;
  let out := shown ++ slept in
  watch_loop fuel q_values seconds board current_player other_player g out.


Lemma greedy_same_move board (moves : list Z) q g1 g2 :
  moves ≠ [] → no_overflow q →
  ∃ move,
    greedy_move nearest board moves 3 q 0 g1 = Ok (move, g1)
    ∧ greedy_move nearest board moves 3 q 0 g2 = Ok (move, g2)
    ∧ move ∈ moves.
Proof.
  intros Hne Hq.
  pose proof (no_overflow_existsb q board moves Hq) as Hno.
  destruct (greedy_move_spec nearest board moves q 0 g1 Hne Hno eq_refl)
    as (m1 & H1 & Hin1 & Ha1 & Hc1 & Hi1).
  destruct (greedy_move_spec nearest board moves q 0 g2 Hne Hno eq_refl)
    as (m2 & H2 & Hin2 & Ha2 & Hc2 & Hi2).
  assert (Heq : (average nearest q board m1 == average nearest q board m2)%Q).
  { apply Qle_antisym; auto. }
  assert (Hs : samples q board m1 = samples q board m2).
  { pose proof (Hc1 m2 Hin2 (Qeq_sym _ _ Heq)).
    pose proof (Hc2 m1 Hin1 Heq). lia. }
  assert (m1 = m2) as <-.
  { pose proof (Hi1 m2 Hin2 (Qeq_sym _ _ Heq) (eq_sym Hs)).
    pose proof (Hi2 m1 Hin1 Heq Hs). lia. }
  by exists m1.
Qed.

(** In the greedy mode of the interactive runs the move does not depend
    on the random source. *)
Lemma greedy_turn self board q g1 g2 :
  get_valid_moves board ≠ [] → no_overflow q →
  ∃ move,
    move ∈ get_valid_moves board
    ∧ get_and_save_move nearest self board 3 (Some q) 0 g1
      = Ok (move, set_moves self (moves self ++ [ckey (state board) move]),
            (random_random g1).2)
    ∧ get_and_save_move nearest self board 3 (Some q) 0 g2
      = Ok (move, set_moves self (moves self ++ [ckey (state board) move]),
            (random_random g2).2).
Proof.
  intros Hne Hq.
  destruct (greedy_same_move board (get_valid_moves board) q
              (random_random g1).2 (random_random g2).2 Hne Hq)
    as (move & H1 & H2 & Hin).
  exists move. split; [done|].
  unfold get_and_save_move. change (3 =? 1) with false. cbv iota.
  pose proof (random_random_nonneg g1) as Hu1.
  pose proof (random_random_nonneg g2) as Hu2.
  destruct (random_random g1) as [u1 g1'], (random_random g2) as [u2 g2'].
  cbn [fst snd] in *.
  rewrite (proj2 (Qlt_bool_false u1 0)), (proj2 (Qlt_bool_false u2 0)) by done.
  rewrite H1, H2. cbn [mbind py_bind]. rewrite canonicalize_ckey. done.
Qed.

Lemma time_sleep_Ok seconds pause :
  sleep_outcome seconds = inr pause → time_sleep seconds = Ok [Sleep pause].
Proof. intros H. unfold time_sleep. by rewrite H. Qed.

Lemma final_text_swap r a b :
  marker a ≠ marker b → r = -1 ∨ r = marker a ∨ r = marker b →
  final_text r a b = final_text r b a.
Proof.
  intros Hne Hr. unfold final_text.
  destruct (Z.eqb_spec r (-1)); [done|].
  destruct (Z.eqb_spec r (marker a)), (Z.eqb_spec r (marker b)); try done; lia.
Qed.

(** The loop of [play_cpu_vs_cpu] ends within as many turns as the board
    has empty cells, shows the same whatever the random source, and ends
    by announcing the result of the final board. *)
Lemma watch_loop_summary fuel q seconds pause board cur oth g1 g2 out :
  sleep_outcome seconds = inr pause → no_overflow q →
  (marker cur = 1 ∧ marker oth = 2) ∨ (marker cur = 2 ∧ marker oth = 1) →
  get_valid_moves board ≠ [] →
  (length (get_valid_moves board) ≤ fuel)%nat →
  ∃ shown board' g1' g2',
    watch_loop fuel q seconds board cur oth g1 out
    = Ok ((out ++ shown) ++ [Print (final_text (check_winner board') cur oth)],
          board', g1')
    ∧ watch_loop fuel q seconds board cur oth g2 out
      = Ok ((out ++ shown) ++ [Print (final_text (check_winner board') cur oth)],
            board', g2')
    ∧ check_winner board' ≠ 0.
Proof.
  intros Hs Hq. revert board cur oth g1 g2 out.
  induction fuel as [|fuel IH]; intros board cur oth g1 g2 out Hm Hne Hfuel.
  { destruct (get_valid_moves board); [done|simpl in Hfuel; lia]. }
  cbn [watch_loop].
  destruct (greedy_turn cur board q g1 g2 Hne Hq) as (move & Hin & -> & ->).
  cbn [mbind py_bind marker name set_moves].
  assert (Hp : marker cur = 1 ∨ marker cur = 2) by lia.
  apply legal_valid_moves in Hin as Hlegal.
  pose proof (length_after_move board (marker cur) move Hlegal Hp) as Hless.
  set (board' := (make_move_cpu board (marker cur) move).2) in *.
  unfold divmod. rewrite display_Ok. cbn [mbind py_bind].
  rewrite (time_sleep_Ok seconds pause) by done. cbn [mbind py_bind].
  set (cur' := set_moves cur (moves cur ++ [ckey (state board) move])).
  set (played := Print (nl +:+ name cur +:+ " played at row "
                        +:+ pretty (move / 3) +:+ ", col "
                        +:+ pretty (move mod 3) +:+ nl)).
  set (shown := [Print "   0   1   2"; Print (row_text board' 0);
                 Print "  -----------"; Print (row_text board' 1);
                 Print "  -----------"; Print (row_text board' 2)]).
  destruct (Z.eqb_spec (check_winner board') 0) as [E0|E0]; cbn [negb].
  - destruct (IH board' oth cur' (random_random g1).2 (random_random g2).2
                (((out ++ [played]) ++ shown) ++ [Sleep pause]))
      as (shown' & b'' & g1' & g2' & H1 & H2 & Hr).
    + cbn [marker set_moves cur']. lia.
    + by apply in_progress_valid_moves.
    + lia.
    + exists (([played] ++ shown ++ [Sleep pause]) ++ shown'), b'', g1', g2'.
      rewrite H1, H2.
      assert (Ht : final_text (check_winner b'') oth cur'
                   = final_text (check_winner b'') cur oth).
      { rewrite final_text_swap.
        - reflexivity.
        - cbn [marker set_moves cur']. lia.
        - cbn [marker set_moves cur'].
          pose proof (check_winner_values b''). lia. }
      rewrite Ht. rewrite <- !app_assoc. done.
  - exists ([played] ++ shown ++ [Sleep pause]), board',
      (random_random g1).2, (random_random g2).2.
    rewrite <- !app_assoc. done.
Qed.

(** X26: with markers 1 and 2 (in either order), a pause that
    [time.sleep] accepts and a table whose averages are floats,
    [play_cpu_vs_cpu] ends within nine turns without an exception, on a
    terminal board, and its last line announces that board's result: a
    draw, or the win of the player whose marker completed a line.  What
    it shows, and the final board, do not depend on the random source. *)
Theorem play_cpu_vs_cpu_announces (fuel : nat) (q : table)
    (cpu1_marker cpu2_marker : Z) (seconds : number) (pause : Q)
    (g1 g2 : Random) :
  (cpu1_marker = 1 ∧ cpu2_marker = 2) ∨ (cpu1_marker = 2 ∧ cpu2_marker = 1) →
  sleep_outcome seconds = inr pause →
  no_overflow q →
  (9 ≤ fuel)%nat →
  ∃ shown board g1' g2',
    let result := check_winner board in
    let text :=
      if result =? -1 then nl +:+ "It's a draw!" +:+ nl
      else if result =? cpu1_marker then nl +:+ "CPU 1 wins!" +:+ nl
      else nl +:+ "CPU 2 wins!" +:+ nl in
    play_cpu_vs_cpu fuel q cpu1_marker cpu2_marker seconds g1
    = Ok (shown ++ [Print text], board, g1')
    ∧ play_cpu_vs_cpu fuel q cpu1_marker cpu2_marker seconds g2
      = Ok (shown ++ [Print text], board, g2')
    ∧ (result = -1 ∨ result = cpu1_marker ∨ result = cpu2_marker).
Proof.
  intros Hm Hs Hq Hfuel. unfold play_cpu_vs_cpu.
  rewrite display_Ok. cbn [mbind py_bind].
  rewrite (time_sleep_Ok seconds pause) by done. cbn [mbind py_bind].
  set (cpu1 := set_q_values (new_cpu "CPU 1" cpu1_marker) q).
  set (cpu2 := set_q_values (new_cpu "CPU 2" cpu2_marker) q).
  set (start := _ ++ [Sleep pause]).
  destruct (Z.eqb_spec cpu1_marker 1) as [E|E].
  - destruct (watch_loop_summary fuel q seconds pause new_board cpu1 cpu2 g1 g2
                start)
      as (shown & b' & g1' & g2' & H1 & H2 & Hr).
    + done.
    + done.
    + subst cpu1 cpu2. cbn [marker set_q_values new_cpu]. lia.
    + by vm_compute.
    + change (length (get_valid_moves new_board)) with 9%nat. lia.
    + exists (start ++ shown), b', g1', g2'. cbv zeta.
      rewrite H1, H2. split; [done|]. split; [done|].
      pose proof (check_winner_values b'). lia.
  - destruct (watch_loop_summary fuel q seconds pause new_board cpu2 cpu1 g1 g2
                start)
      as (shown & b' & g1' & g2' & H1 & H2 & Hr).
    + done.
    + done.
    + subst cpu1 cpu2. cbn [marker set_q_values new_cpu]. lia.
    + by vm_compute.
    + change (length (get_valid_moves new_board)) with 9%nat. lia.
    + exists (start ++ shown), b', g1', g2'. cbv zeta.
      rewrite H1, H2.
      assert (Ht : final_text (check_winner b') cpu2 cpu1
                   = final_text (check_winner b') cpu1 cpu2).
      { subst cpu1 cpu2.
        apply final_text_swap; cbn [marker set_q_values new_cpu]; [lia|].
        pose proof (check_winner_values b'). lia. }
      rewrite Ht. split; [done|]. split; [done|].
      pose proof (check_winner_values b'). lia.
Qed.


End Watching.

(** [time.sleep] on a clock of 64-bit nanoseconds, for a whole number
    of seconds. *)
Definition clock (seconds : Q) : exn + Q :=
  if Qle_bool 9223372037 seconds || Qle_bool seconds (-9223372037)
  then inl OverflowError
  else if Qlt_bool seconds 0 then inl ValueError
  else inr seconds.

Lemma play_cpu_vs_cpu_announces_witness :
  ∃ shown board g1' g2',
    let result := check_winner board in
    let text :=
      if result =? -1 then nl +:+ "It's a draw!" +:+ nl
      else if result =? 1 then nl +:+ "CPU 1 wins!" +:+ nl
      else nl +:+ "CPU 2 wins!" +:+ nl in
    play_cpu_vs_cpu exact_div Q clock 9 demo_table 1 2 1%Q demo_random
    = Ok (shown ++ [Print text], board, g1')
    ∧ play_cpu_vs_cpu exact_div Q clock 9 demo_table 1 2 1%Q demo_random_half
      = Ok (shown ++ [Print text], board, g2')
    ∧ (result = -1 ∨ result = 1 ∨ result = 2).
Proof.
  apply (play_cpu_vs_cpu_announces exact_div Q clock 9 demo_table 1 2 1%Q 1%Q
           demo_random demo_random_half).
  - left. split; reflexivity.
  - reflexivity.
  - exact demo_table_no_overflow.
  - lia.
Defined.

